(** * A shallow embedding of [advanced-vector/vector.h]

    The header defines two class templates: [RawMemory<T>], which owns an
    untyped block of storage, and [Vector<T>], which keeps [size_] live
    objects at the front of such a block.  The embedding keeps the two
    layers apart, as the code does.

    Memory is a finite map from block addresses to lists of slots; a slot
    is either raw storage ([None]) or a live object ([Some v]).  Every
    member function is a state transformer over the object it is called on
    ([*this]) and the memory, with three outcomes: normal return, an
    exception that propagates to the caller, or undefined behaviour (a
    failed [assert], an access to raw storage, a double destruction, an
    invalid [operator delete]).

    Modelling conventions.
    - [size_t] quantities are natural numbers.  A block of [n] elements
      takes [n * sizeof(T)] bytes of address space, so no reachable
      [size_] makes [2 * size_] wrap around; allocation itself is assumed
      to succeed ([std::bad_alloc] is not modelled).
    - [Allocate(n)] computes the byte count [n * sizeof(T)] in [size_t].
      Where the capacity is chosen by the caller ([Reserve], [Resize],
      [Vector(size)]) the product can wrap around, and the block then has
      room for fewer than [n] objects.  The embedding hands out the block
      of [n] slots the code obtains when the product does not wrap;
      [allocation_fits] is that condition, and what is proved of a
      capacity chosen by the caller is proved under it.
    - The element type [T] is a parameter: its values, the state an object
      is left in after being moved from, the two type traits consulted by
      the relocation policy, and an oracle that says which element
      operations throw.  Copy and move construction and assignment
      preserve values, and an element operation that throws has no other
      effect.
    - A reference argument ([const T&], [T&&]) denotes an object outside
      the vector's own storage. *)

From stdpp Require Import base option list gmap.
From Stdlib Require Import ZArith Lia.

Set Default Proof Using "Type".
Local Open Scope Z_scope.
Local Open Scope nat_scope.

(** ** The element type *)

(** The element operations the container invokes on [T]. *)
Inductive elem_op :=
  | DefaultCtor      (* T()                       *)
  | ArgsCtor         (* T(args...)                *)
  | CopyCtor         (* T(const T&)               *)
  | MoveCtor         (* T(T&&)                    *)
  | CopyAssign       (* operator=(const T&)       *)
  | MoveAssign.      (* operator=(T&&)            *)

Record ElemType (V : Type) := {
  (** [std::is_nothrow_move_constructible_v<T>] *)
  nothrow_move_constructible : bool;
  (** [std::is_copy_constructible_v<T>] *)
  copy_constructible : bool;
  (** [sizeof(T)], in bytes *)
  sizeof_ : positive;
  (** the value of a value-initialised object *)
  default_value : V;
  (** the state of an object after it has been moved from *)
  moved_from : V -> V;
  (** [throws n op v]: the element operation [op], run as the [n]-th
      element operation of the execution on the source value [v], throws *)
  throws : nat -> elem_op -> V -> bool
}.
Arguments nothrow_move_constructible {V} _.
Arguments copy_constructible {V} _.
Arguments sizeof_ {V} _.
Arguments default_value {V} _.
Arguments moved_from {V} _ _.
Arguments throws {V} _ _ _ _.

(** How a new element is initialised: the argument pack of a placement
    [new (p) T(...)]. *)
Inductive init (V : Type) :=
  | CopyOf (v : V)     (* T(value) for [const T& value]            *)
  | MoveOf (v : V)     (* T(std::move(value)) for [T&& value]      *)
  | FromArgs (v : V)   (* T(args...), building an object of value v *)
  | ValueInit.         (* T(), the empty argument pack              *)
Arguments CopyOf {V} v.
Arguments MoveOf {V} v.
Arguments FromArgs {V} v.
Arguments ValueInit {V}.

Definition init_op {V} (i : init V) : elem_op :=
  match i with
  | CopyOf _ => CopyCtor
  | MoveOf _ => MoveCtor
  | FromArgs _ => ArgsCtor
  | ValueInit => DefaultCtor
  end.

Definition init_value {V} (T : ElemType V) (i : init V) : V :=
  match i with
  | CopyOf v | MoveOf v | FromArgs v => v
  | ValueInit => default_value T
  end.

(** ** Pointers and memory *)

(** A [T*]: the block it points into ([None] for a pointer derived from
    [nullptr]) and the element offset inside that block. *)
Record ptr := Ptr { blk : option nat; off : Z }.

Definition nullptr : ptr := Ptr None 0.

Definition ptr_add (p : ptr) (k : Z) : ptr := Ptr (blk p) (off p + k)%Z.

Global Instance ptr_eq_dec : EqDecision ptr.
Proof. solve_decision. Defined.

Section Memory.
Context {V : Type}.

(** The state of the free store and the bookkeeping used to account for
    leaks. *)
Record world := World {
  heap : gmap nat (list (option V));  (* the allocated blocks               *)
  allocs : nat;                       (* blocks obtained from operator new  *)
  frees : nat;                        (* blocks returned to operator delete *)
  constructed : nat;                  (* elements constructed so far        *)
  destroyed : nat;                    (* elements destroyed so far          *)
  clock : nat                         (* element operations run so far      *)
}.

Definition set_heap (h : gmap nat (list (option V))) (w : world) : world :=
  World h (allocs w) (frees w) (constructed w) (destroyed w) (clock w).
Definition tick (w : world) : world :=
  World (heap w) (allocs w) (frees w) (constructed w) (destroyed w) (S (clock w)).
Definition count_alloc (w : world) : world :=
  World (heap w) (S (allocs w)) (frees w) (constructed w) (destroyed w) (clock w).
Definition count_free (w : world) : world :=
  World (heap w) (allocs w) (S (frees w)) (constructed w) (destroyed w) (clock w).
Definition count_ctor (w : world) : world :=
  World (heap w) (allocs w) (frees w) (S (constructed w)) (destroyed w) (clock w).
Definition count_dtor (w : world) : world :=
  World (heap w) (allocs w) (frees w) (constructed w) (S (destroyed w)) (clock w).

Definition empty_world : world := World ∅ 0 0 0 0 0.

(** Objects alive and blocks outstanding, as a test harness would count
    them. *)
Definition live_objects (w : world) : Z :=
  (Z.of_nat (constructed w) - Z.of_nat (destroyed w))%Z.
Definition live_blocks (w : world) : Z :=
  (Z.of_nat (allocs w) - Z.of_nat (frees w))%Z.

(** The slot a pointer designates, if it points into an allocated block. *)
Definition slot (w : world) (p : ptr) : option (option V) :=
  match blk p with
  | Some b =>
      if (off p <? 0)%Z then None
      else l ← heap w !! b; l !! Z.to_nat (off p)
  | None => None
  end.

Definition set_slot (p : ptr) (s : option V) (w : world) : world :=
  match blk p with
  | Some b =>
      match heap w !! b with
      | Some l => set_heap (<[b := <[Z.to_nat (off p) := s]> l]> (heap w)) w
      | None => w
      end
  | None => w
  end.

(** ** The monad of member functions

    [X] is the state of the objects in scope ([*this], locals); the memory
    is threaded next to it. *)
Inductive result (X A : Type) :=
  | Ok (a : A) (x : X) (w : world)     (* normal return             *)
  | Throw (x : X) (w : world)          (* an exception propagates   *)
  | Fault.                             (* undefined behaviour       *)
Arguments Ok {X A} a x w.
Arguments Throw {X A} x w.
Arguments Fault {X A}.

Definition M (X A : Type) : Type := X -> world -> result X A.

Definition ret {X A} (a : A) : M X A := fun x w => Ok a x w.

Definition bind {X A B} (m : M X A) (f : A -> M X B) : M X B :=
  fun x w =>
    match m x w with
    | Ok a x' w' => f a x' w'
    | Throw x' w' => Throw x' w'
    | Fault => Fault
    end.

Definition get {X} : M X X := fun x w => Ok x x w.
Definition put {X} (x' : X) : M X unit := fun _ w => Ok tt x' w.
Definition fault {X A} : M X A := fun _ _ => Fault.

(** [assert(b)] *)
Definition assert {X} (b : bool) : M X unit := if b then ret tt else fault.

(** [try { m } catch (...) { h; throw; }] *)
Definition on_throw {X A} (m : M X A) (h : M X unit) : M X A :=
  fun x w =>
    match m x w with
    | Ok a x' w' => Ok a x' w'
    | Throw x' w' =>
        match h x' w' with
        | Ok _ x'' w'' => Throw x'' w''
        | Throw x'' w'' => Throw x'' w''
        | Fault => Fault
        end
    | Fault => Fault
    end.

(** A block scope with one local object [l0 : L]: [body] runs with the
    local in scope, and the local's destructor [dtor] runs when the scope
    is left, whether by normal completion or by an exception.  A
    destructor that throws during unwinding terminates the program. *)
Definition with_local {X L A} (l0 : L) (body : M (X * L) A) (dtor : L -> M X unit)
  : M X A :=
  fun x w =>
    match body (x, l0) w with
    | Ok a (x', l) w' =>
        match dtor l x' w' with
        | Ok _ x'' w'' => Ok a x'' w''
        | Throw x'' w'' => Throw x'' w''
        | Fault => Fault
        end
    | Throw (x', l) w' =>
        match dtor l x' w' with
        | Ok _ x'' w'' => Throw x'' w''
        | _ => Fault
        end
    | Fault => Fault
    end.

(** Run a member function of the object selected by a lens. *)
Definition zoom {X Y A} (proj : X -> Y) (inj : Y -> X -> X) (m : M Y A) : M X A :=
  fun x w =>
    match m (proj x) w with
    | Ok a y w' => Ok a (inj y x) w'
    | Throw y w' => Throw (inj y x) w'
    | Fault => Fault
    end.

End Memory.
Arguments world V : clear implicits.
Arguments result V X A : clear implicits.
Arguments M V X A : clear implicits.
Arguments Ok {V X A} a x w.
Arguments Throw {V X A} x w.
Arguments Fault {V X A}.

Declare Scope vec_scope.
Delimit Scope vec_scope with vec.
Notation "x <- m ;; k" := (bind m (fun x => k))
  (at level 100, m at next level, right associativity) : vec_scope.
Notation "m ;; k" := (bind m (fun _ => k))
  (at level 100, k at level 200, right associativity) : vec_scope.
Local Open Scope vec_scope.

(** ** Primitive operations on storage and elements *)

Section Primitives.
Context {V : Type} (T : ElemType V).
Context {X : Type}.

(** [operator new(n * sizeof(T))] for [n != 0] and a byte count that does
    not wrap around: a fresh block of [n] raw slots. *)
Definition operator_new (n : nat) : M V X ptr :=
  fun x w =>
    let b := fresh (dom (heap w)) in
    Ok (Ptr (Some b) 0) x
       (count_alloc (set_heap (<[b := replicate n None]> (heap w)) w)).

(** [operator delete(buf)]: nothing for a null pointer; otherwise [buf]
    must be the start of an allocated block. *)
Definition operator_delete (buf : ptr) : M V X unit :=
  fun x w =>
    match blk buf with
    | None => if (off buf =? 0)%Z then Ok tt x w else Fault
    | Some b =>
        match heap w !! b with
        | Some _ =>
            if (off buf =? 0)%Z
            then Ok tt x (count_free (set_heap (delete b (heap w)) w))
            else Fault
        | None => Fault
        end
    end.

(** Reading the object at [p]: it must be alive. *)
Definition load (p : ptr) : M V X V :=
  fun x w =>
    match slot w p with
    | Some (Some v) => Ok v x w
    | _ => Fault
    end.

(** [new (p) T(i)]: placement construction into raw storage. *)
Definition construct_at (p : ptr) (i : init V) : M V X unit :=
  fun x w =>
    match slot w p with
    | Some None =>
        if throws T (clock w) (init_op i) (init_value T i) then Throw x (tick w)
        else Ok tt x (count_ctor (tick (set_slot p (Some (init_value T i)) w)))
    | _ => Fault
    end.

(** Copy construction at [dst] from the live object at [src]. *)
Definition copy_construct_at (dst src : ptr) : M V X unit :=
  v <- load src ;; construct_at dst (CopyOf v).

(** Move construction at [dst] from the live object at [src]: the source
    stays alive, in its moved-from state. *)
Definition move_construct_at (dst src : ptr) : M V X unit :=
  v <- load src ;;
  construct_at dst (MoveOf v) ;;
  fun x w => Ok tt x (set_slot src (Some (moved_from T v)) w).

(** [std::destroy_at(p)]: the object must be alive; destructors do not
    throw. *)
Definition destroy_at (p : ptr) : M V X unit :=
  fun x w =>
    match slot w p with
    | Some (Some _) => Ok tt x (count_dtor (set_slot p None w))
    | _ => Fault
    end.

(** Assignment of the value [v] to the live object at [dst], by the
    assignment operator [op]. *)
Definition assign_value (op : elem_op) (dst : ptr) (v : V) : M V X unit :=
  fun x w =>
    match slot w dst with
    | Some (Some _) =>
        if throws T (clock w) op v then Throw x (tick w)
        else Ok tt x (tick (set_slot dst (Some v) w))
    | _ => Fault
    end.

(** Copy assignment to the live object at [dst] from the one at [src]. *)
Definition copy_assign_at (dst src : ptr) : M V X unit :=
  v <- load src ;; assign_value CopyAssign dst v.

(** Move assignment to the live object at [dst] from the one at [src]. *)
Definition move_assign_at (dst src : ptr) : M V X unit :=
  v <- load src ;;
  assign_value MoveAssign dst v ;;
  fun x w => Ok tt x (set_slot src (Some (moved_from T v)) w).

(** An object with automatic storage, [T value(i);]. *)
Definition construct_local (i : init V) : M V X V :=
  fun x w =>
    if throws T (clock w) (init_op i) (init_value T i) then Throw x (tick w)
    else Ok (init_value T i) x (count_ctor (tick w)).

Definition destroy_local (v : V) : M V X unit :=
  fun x w => Ok tt x (count_dtor w).

(** [std::distance(first, last)] converted to [size_t]: both pointers must
    belong to the same array and [first] must not be past [last]. *)
Definition distance (first last : ptr) : M V X nat :=
  if bool_decide (blk first = blk last) && (off first <=? off last)%Z
  then ret (Z.to_nat (off last - off first))
  else fault.

(** *** The algorithms of [<memory>] and [<algorithm>] the header uses

    On an exception the [uninitialized_*] algorithms destroy the objects
    they have constructed (in unspecified order) and rethrow. *)

Fixpoint uninitialized_copy_n (first : ptr) (n : nat) (d_first : ptr) : M V X unit :=
  match n with
  | 0 => ret tt
  | S n' =>
      copy_construct_at d_first first ;;
      on_throw (uninitialized_copy_n (ptr_add first 1) n' (ptr_add d_first 1))
               (destroy_at d_first)
  end.

Fixpoint uninitialized_move_n (first : ptr) (n : nat) (d_first : ptr) : M V X unit :=
  match n with
  | 0 => ret tt
  | S n' =>
      move_construct_at d_first first ;;
      on_throw (uninitialized_move_n (ptr_add first 1) n' (ptr_add d_first 1))
               (destroy_at d_first)
  end.

Definition uninitialized_move (first last d_first : ptr) : M V X unit :=
  n <- distance first last ;; uninitialized_move_n first n d_first.

Fixpoint uninitialized_value_construct_n (first : ptr) (n : nat) : M V X unit :=
  match n with
  | 0 => ret tt
  | S n' =>
      construct_at first ValueInit ;;
      on_throw (uninitialized_value_construct_n (ptr_add first 1) n')
               (destroy_at first)
  end.

Fixpoint destroy_n (first : ptr) (n : nat) : M V X unit :=
  match n with
  | 0 => ret tt
  | S n' => destroy_at first ;; destroy_n (ptr_add first 1) n'
  end.

(** [std::move(first, last, d_first)]: move-assigns front to back. *)
Fixpoint move_n (first : ptr) (n : nat) (d_first : ptr) : M V X unit :=
  match n with
  | 0 => ret tt
  | S n' =>
      move_assign_at d_first first ;;
      move_n (ptr_add first 1) n' (ptr_add d_first 1)
  end.

Definition std_move (first last d_first : ptr) : M V X unit :=
  n <- distance first last ;; move_n first n d_first.

(** [std::move_backward(first, last, d_last)]: move-assigns back to
    front. *)
Fixpoint move_backward_n (last : ptr) (n : nat) (d_last : ptr) : M V X unit :=
  match n with
  | 0 => ret tt
  | S n' =>
      move_assign_at (ptr_add d_last (-1)) (ptr_add last (-1)) ;;
      move_backward_n (ptr_add last (-1)) n' (ptr_add d_last (-1))
  end.

Definition move_backward (first last d_last : ptr) : M V X unit :=
  n <- distance first last ;; move_backward_n last n d_last.

End Primitives.

(** ** Objects and references to them *)

Record RawMemory := { buffer_ : ptr; capacity_ : nat }.

Record Vector := { data_ : RawMemory; size_ : nat }.

Definition set_buffer (b : ptr) (m : RawMemory) : RawMemory :=
  {| buffer_ := b; capacity_ := capacity_ m |}.
Definition set_capacity (c : nat) (m : RawMemory) : RawMemory :=
  {| buffer_ := buffer_ m; capacity_ := c |}.
Definition set_data (d : RawMemory) (v : Vector) : Vector :=
  {| data_ := d; size_ := size_ v |}.
Definition set_size (n : nat) (v : Vector) : Vector :=
  {| data_ := data_ v; size_ := n |}.

(** The two objects a binary member function works on: [*this] and the
    object its reference parameter is bound to, which may be [*this]
    itself. *)
Inductive operands (O : Type) :=
  | Same (this : O)
  | Two (this other : O).
Arguments Same {O} this.
Arguments Two {O} this other.

Definition this_of {O} (x : operands O) : O :=
  match x with Same a => a | Two a _ => a end.
Definition other_of {O} (x : operands O) : O :=
  match x with Same a => a | Two _ b => b end.
Definition set_this {O} (a : O) (x : operands O) : operands O :=
  match x with Same _ => Same a | Two _ b => Two a b end.
Definition set_other {O} (b : O) (x : operands O) : operands O :=
  match x with Same _ => Same b | Two a _ => Two a b end.
(** [this != &other] *)
Definition distinct {O} (x : operands O) : bool :=
  match x with Same _ => false | Two _ _ => true end.

(** ** The size of an allocation *)

(** [SIZE_MAX] on a 64-bit platform. *)
Definition SIZE_MAX : Z := (2 ^ 64 - 1)%Z.

(** The byte count [n * sizeof(T)] that [Allocate(n)] passes to
    [operator new], as [size_t] arithmetic computes it. *)
Definition allocation_bytes {V} (T : ElemType V) (n : nat) : Z :=
  ((Z.of_nat n * Z.pos (sizeof_ T)) mod (SIZE_MAX + 1))%Z.

(** The number of objects of type [T] a block of that many bytes has room
    for. *)
Definition allocation_room {V} (T : ElemType V) (n : nat) : Z :=
  (allocation_bytes T n / Z.pos (sizeof_ T))%Z.

(** The byte count of [Allocate(n)] does not wrap around. *)
Definition allocation_fits {V} (T : ElemType V) (n : nat) : Prop :=
  (Z.of_nat n * Z.pos (sizeof_ T) <= SIZE_MAX)%Z.

(** ** [RawMemory<T>] *)

Section RawMemory.
Context {V : Type} {X : Type}.

(** [n != 0 ? static_cast<T*>(operator new(n * sizeof(T))) : nullptr]: the
    block of [n] slots the code obtains when [allocation_fits T n]. *)
Definition Allocate (n : nat) : M V X ptr :=
  if negb (n =? 0) then operator_new n else ret nullptr.

Definition Deallocate (buf : ptr) : M V X unit := operator_delete buf.

(** [RawMemory() = default] *)
Definition RawMemory_default : RawMemory := {| buffer_ := nullptr; capacity_ := 0 |}.

(** [explicit RawMemory(size_t capacity)] *)
Definition RawMemory_ctor (capacity : nat) : M V X RawMemory :=
  buf <- Allocate capacity ;;
  ret {| buffer_ := buf; capacity_ := capacity |}.

(** [~RawMemory()] *)
Definition RawMemory_dtor (m : RawMemory) : M V X unit := Deallocate (buffer_ m).

(** [operator+(size_t offset)] *)
Definition RawMemory_plus (m : RawMemory) (offset : nat) : M V X ptr :=
  assert (offset <=? capacity_ m) ;;
  ret (ptr_add (buffer_ m) (Z.of_nat offset)).

(** [operator[](size_t index)]: the reference is the element's address. *)
Definition RawMemory_index (m : RawMemory) (index : nat) : M V X ptr :=
  assert (index <? capacity_ m) ;;
  ret (ptr_add (buffer_ m) (Z.of_nat index)).

End RawMemory.

(** [Swap(RawMemory& other)]: the new states of [*this] and [other]. *)
Definition RawMemory_Swap (this other : RawMemory) : RawMemory * RawMemory :=
  let '(b1, b2) := (buffer_ other, buffer_ this) in
  let '(c1, c2) := (capacity_ other, capacity_ this) in
  ({| buffer_ := b1; capacity_ := c1 |}, {| buffer_ := b2; capacity_ := c2 |}).

Definition GetAddress (m : RawMemory) : ptr := buffer_ m.
Definition Capacity (m : RawMemory) : nat := capacity_ m.

(** [RawMemory(RawMemory&& other)]: the new object and the state [other]
    is left in. *)
Definition RawMemory_move_ctor (other : RawMemory) : RawMemory * RawMemory :=
  ({| buffer_ := buffer_ other; capacity_ := capacity_ other |},
   {| buffer_ := nullptr; capacity_ := 0 |}).

(** [operator=(RawMemory&& rhs)]:
    [buffer_ = std::exchange(rhs.buffer_, nullptr);]
    [capacity_ = std::exchange(rhs.capacity_, 0);] *)
Definition RawMemory_move_assign (x : operands RawMemory) : operands RawMemory :=
  let old_buffer := buffer_ (other_of x) in
  let x := set_other (set_buffer nullptr (other_of x)) x in
  let x := set_this (set_buffer old_buffer (this_of x)) x in
  let old_capacity := capacity_ (other_of x) in
  let x := set_other (set_capacity 0 (other_of x)) x in
  set_this (set_capacity old_capacity (this_of x)) x.

(** ** [Vector<T>] *)

Section Vector.
Context {V : Type} (T : ElemType V).

(** [Vector() = default] *)
Definition Vector_default : Vector := {| data_ := RawMemory_default; size_ := 0 |}.

(** [explicit Vector(size_t size)].  When the body throws, the member
    [data_], already constructed, is destroyed. *)
Definition Vector_ctor {X} (size : nat) : M V X Vector :=
  data <- RawMemory_ctor size ;;
  on_throw (uninitialized_value_construct_n T (GetAddress data) size)
           (RawMemory_dtor data) ;;
  ret {| data_ := data; size_ := size |}.

(** [Vector(const Vector& other)] *)
Definition Vector_copy_ctor {X} (other : Vector) : M V X Vector :=
  data <- RawMemory_ctor (size_ other) ;;
  on_throw (uninitialized_copy_n T (GetAddress (data_ other)) (size_ other)
                                 (GetAddress data))
           (RawMemory_dtor data) ;;
  ret {| data_ := data; size_ := size_ other |}.

(** [~Vector()], followed by the destructor of the member [data_]. *)
Definition Vector_dtor {X} (v : Vector) : M V X unit :=
  destroy_n (GetAddress (data_ v)) (size_ v) ;;
  RawMemory_dtor (data_ v).

Definition Size (v : Vector) : nat := size_ v.

Definition Vector_Capacity (v : Vector) : nat := Capacity (data_ v).

(** [operator[](size_t index)] *)
Definition Vector_index {X} (v : Vector) (index : nat) : M V X ptr :=
  assert (index <? size_ v) ;;
  RawMemory_index (data_ v) index.

(** [begin()], [cbegin()] *)
Definition begin (v : Vector) : ptr := GetAddress (data_ v).

(** [end()], [cend()] *)
Definition vend {X} (v : Vector) : M V X ptr := RawMemory_plus (data_ v) (size_ v).

(** [++size_] *)
Definition incr_size : M V Vector unit :=
  this <- get ;; put (set_size (S (size_ this)) this).

(** [--size_].  On an empty vector the counter would wrap around to
    [SIZE_MAX], outside every block. *)
Definition decr_size : M V Vector unit :=
  this <- get ;;
  if size_ this =? 0 then fault else put (set_size (size_ this - 1) this).

(** [Reserve(size_t new_capacity)] *)
Definition Reserve (new_capacity : nat) : M V Vector unit :=
  this <- get ;;
  if new_capacity <=? Capacity (data_ this) then ret tt
  else
    new_data <- RawMemory_ctor new_capacity ;;
    with_local new_data
      ((if nothrow_move_constructible T || negb (copy_constructible T)
        then uninitialized_move_n T (GetAddress (data_ this)) (size_ this)
                                    (GetAddress new_data)
        else uninitialized_copy_n T (GetAddress (data_ this)) (size_ this)
                                    (GetAddress new_data)) ;;
       destroy_n (GetAddress (data_ this)) (size_ this) ;;
       let '(d, nd) := RawMemory_Swap (data_ this) new_data in
       put (set_data d this, nd))
      RawMemory_dtor.

(** [PushBack(const T& value)] is [PushBack (CopyOf value)] and
    [PushBack(T&& value)] is [PushBack (MoveOf value)]: the two overloads
    differ only in the constructor call [T(value)] or
    [T(std::move(value))]. *)
Definition PushBack (value : init V) : M V Vector unit :=
  this <- get ;;
  (if size_ this <? Capacity (data_ this) then
     p <- RawMemory_plus (data_ this) (size_ this) ;;
     construct_at T p value
   else
     new_data <- RawMemory_ctor (if size_ this =? 0 then 1 else 2 * size_ this) ;;
     with_local new_data
       (p <- RawMemory_plus new_data (size_ this) ;;
        construct_at T p value ;;
        (if nothrow_move_constructible T || negb (copy_constructible T)
         then uninitialized_move_n T (GetAddress (data_ this)) (size_ this)
                                     (GetAddress new_data)
         else uninitialized_copy_n T (GetAddress (data_ this)) (size_ this)
                                     (GetAddress new_data)) ;;
        destroy_n (GetAddress (data_ this)) (size_ this) ;;
        let '(d, nd) := RawMemory_Swap (data_ this) new_data in
        put (set_data d this, nd))
       RawMemory_dtor) ;;
  incr_size.

Definition PushBack_copy (value : V) : M V Vector unit := PushBack (CopyOf value).
Definition PushBack_move (value : V) : M V Vector unit := PushBack (MoveOf value).

(** [PopBack()] *)
Definition PopBack : M V Vector unit :=
  decr_size ;;
  this <- get ;;
  p <- RawMemory_plus (data_ this) (size_ this) ;;
  destroy_at p.

(** [EmplaceBack(Args&&... args)]; the result is the address the returned
    reference is bound to. *)
Definition EmplaceBack (args : init V) : M V Vector ptr :=
  this <- get ;;
  (if size_ this <? Capacity (data_ this) then
     p <- RawMemory_plus (data_ this) (size_ this) ;;
     construct_at T p args
   else
     new_data <- RawMemory_ctor (if size_ this =? 0 then 1 else 2 * size_ this) ;;
     with_local new_data
       (p <- RawMemory_plus new_data (size_ this) ;;
        construct_at T p args ;;
        (if nothrow_move_constructible T || negb (copy_constructible T)
         then uninitialized_move_n T (GetAddress (data_ this)) (size_ this)
                                     (GetAddress new_data)
         else uninitialized_copy_n T (GetAddress (data_ this)) (size_ this)
                                     (GetAddress new_data)) ;;
        destroy_n (GetAddress (data_ this)) (size_ this) ;;
        let '(d, nd) := RawMemory_Swap (data_ this) new_data in
        put (set_data d this, nd))
       RawMemory_dtor) ;;
  incr_size ;;
  this <- get ;;
  p <- RawMemory_plus (data_ this) (size_ this) ;;
  ret (ptr_add p (-1)).

(** [Emplace(const_iterator pos, Args&&... args)] *)
Definition Emplace (pos : ptr) (args : init V) : M V Vector ptr :=
  this <- get ;;
  pos_ <- distance (begin this) pos ;;
  e <- vend this ;;
  if bool_decide (pos = e) then
    EmplaceBack args ;;
    this <- get ;;
    RawMemory_plus (data_ this) pos_
  else
    (if size_ this <? Capacity (data_ this) then
       value <- construct_local T args ;;
       with_local value
         (last <- RawMemory_plus (data_ this) (size_ this) ;;
          uninitialized_move T (ptr_add last (-1)) last last ;;
          first <- RawMemory_plus (data_ this) pos_ ;;
          move_backward T first (ptr_add last (-1)) last ;;
          assign_value T MoveAssign first value ;;
          put (this, moved_from T value))
         destroy_local
     else
       new_data <- RawMemory_ctor (if size_ this =? 0 then 1 else 2 * size_ this) ;;
       with_local new_data
         (p <- RawMemory_plus new_data pos_ ;;
          construct_at T p args ;;
          (if nothrow_move_constructible T || negb (copy_constructible T)
           then
             uninitialized_move_n T (GetAddress (data_ this)) pos_
                                    (GetAddress new_data) ;;
             on_throw
               (uninitialized_move_n T
                  (ptr_add (GetAddress (data_ this)) (Z.of_nat pos_))
                  (size_ this - pos_)
                  (ptr_add (ptr_add (GetAddress new_data) (Z.of_nat pos_)) 1))
               (destroy_n (GetAddress new_data) pos_)
           else
             uninitialized_copy_n T (GetAddress (data_ this)) pos_
                                    (GetAddress new_data) ;;
             on_throw
               (uninitialized_copy_n T
                  (ptr_add (GetAddress (data_ this)) (Z.of_nat pos_))
                  (size_ this - pos_)
                  (ptr_add (ptr_add (GetAddress new_data) (Z.of_nat pos_)) 1))
               (destroy_n (GetAddress new_data) pos_)) ;;
          destroy_n (GetAddress (data_ this)) (size_ this) ;;
          let '(d, nd) := RawMemory_Swap (data_ this) new_data in
          put (set_data d this, nd))
         RawMemory_dtor) ;;
    incr_size ;;
    this <- get ;;
    RawMemory_plus (data_ this) pos_.

(** [Erase(const_iterator pos)] *)
Definition Erase (pos : ptr) : M V Vector ptr :=
  this <- get ;;
  pos_ <- distance (begin this) pos ;;
  first <- RawMemory_plus (data_ this) pos_ ;;
  last <- RawMemory_plus (data_ this) (size_ this) ;;
  std_move T (ptr_add first 1) last first ;;
  destroy_at (ptr_add last (-1)) ;;
  decr_size ;;
  this <- get ;;
  RawMemory_plus (data_ this) pos_.

(** [Insert(const_iterator pos, const T& value)] *)
Definition Insert_copy (pos : ptr) (value : V) : M V Vector ptr :=
  Emplace pos (CopyOf value).

(** [Insert(const_iterator pos, T&& value)] *)
Definition Insert_move (pos : ptr) (value : V) : M V Vector ptr :=
  Emplace pos (MoveOf value).

(** [Resize(size_t new_size)] *)
Definition Resize (new_size : nat) : M V Vector unit :=
  this <- get ;;
  (if new_size <? size_ this then
     p <- RawMemory_plus (data_ this) new_size ;;
     destroy_n p (size_ this - new_size)
   else
     Reserve new_size ;;
     this <- get ;;
     p <- RawMemory_plus (data_ this) (size_ this) ;;
     uninitialized_value_construct_n T p (new_size - size_ this)) ;;
  this <- get ;;
  put (set_size new_size this).

(** [Swap(Vector& other)] *)
Definition Vector_Swap : M V (operands Vector) unit :=
  x <- get ;;
  if distinct x then
    let '(d1, d2) := RawMemory_Swap (data_ (this_of x)) (data_ (other_of x)) in
    put (Two {| data_ := d1; size_ := size_ (other_of x) |}
             {| data_ := d2; size_ := size_ (this_of x) |})
  else ret tt.

(** The loop of the in-place branch of copy assignment, which assigns
    [rhs[i]] to element [i] of the target for [i] in [[0, min_size)];
    entered at index [i] with [n] iterations to go. *)
Fixpoint assign_prefix {X} (this rhs : Vector) (i n : nat) : M V X unit :=
  match n with
  | 0 => ret tt
  | S n' =>
      dst <- Vector_index this i ;;
      src <- Vector_index rhs i ;;
      copy_assign_at T dst src ;;
      assign_prefix this rhs (S i) n'
  end.

(** [operator=(const Vector& rhs)] *)
Definition Vector_copy_assign : M V (operands Vector) unit :=
  x <- get ;;
  if distinct x then
    let this := this_of x in
    let rhs := other_of x in
    if Capacity (data_ this) <? size_ rhs then
      rhs_copy <- Vector_copy_ctor rhs ;;
      with_local rhs_copy
        (zoom (fun s => Two (this_of (fst s)) (snd s))
              (fun y s => (set_this (this_of y) (fst s), other_of y))
              Vector_Swap)
        Vector_dtor
    else
      let min_size := Nat.min (size_ rhs) (size_ this) in
      assign_prefix this rhs 0 min_size ;;
      (if size_ rhs <? size_ this then
         destroy_n (ptr_add (GetAddress (data_ this)) (Z.of_nat min_size))
                   (size_ this - size_ rhs)
       else
         uninitialized_copy_n T
           (ptr_add (GetAddress (data_ rhs)) (Z.of_nat min_size))
           (size_ rhs - size_ this)
           (ptr_add (GetAddress (data_ this)) (Z.of_nat min_size))) ;;
      put (set_this (set_size (size_ rhs) this) x)
  else ret tt.

(** [Vector(Vector&& other)]: the new object and the state [other] is
    left in. *)
Definition Vector_move_ctor (other : Vector) : Vector * Vector :=
  let '(d, od) := RawMemory_move_ctor (data_ other) in
  ({| data_ := d; size_ := size_ other |}, {| data_ := od; size_ := 0 |}).

(** [operator=(Vector&& rhs)]:
    [data_ = std::move(rhs.data_); size_ = std::exchange(rhs.size_, 0);] *)
Definition Vector_move_assign : M V (operands Vector) unit :=
  x <- get ;;
  let d :=
    RawMemory_move_assign
      (if distinct x then Two (data_ (this_of x)) (data_ (other_of x))
       else Same (data_ (this_of x))) in
  let x := set_this (set_data (this_of d) (this_of x)) x in
  let x := set_other (set_data (other_of d) (other_of x)) x in
  let old_size := size_ (other_of x) in
  let x := set_other (set_size 0 (other_of x)) x in
  put (set_this (set_size old_size (this_of x)) x).

(** The element sequence a vector holds: the values of the live objects in
    slots [[0, size_)], when they are all alive. *)
Definition contents (w : world V) (v : Vector) : option (list V) :=
  mapM (fun i => mjoin (slot w (ptr_add (begin v) (Z.of_nat i)))) (seq 0 (size_ v)).

(** [v[index]] read as a value. *)
Definition read_at {X} (v : Vector) (index : nat) : M V X V :=
  p <- Vector_index v index ;; load p.

(** The value of a call expression: nothing for a member function declared
    [void], the address the reference is bound to for one declared [T&]. *)
Inductive retval := Void | Ref (p : ptr).

(** [v.PushBack(value)], declared [void]. *)
Definition call_PushBack (value : init V) : M V Vector retval :=
  PushBack value ;; ret Void.

(** [v.EmplaceBack(args...)], declared [T&]. *)
Definition call_EmplaceBack (args : init V) : M V Vector retval :=
  p <- EmplaceBack args ;; ret (Ref p).

(** One Append: [by_move] selects the overload [PushBack(T&&)]. *)
Definition Append (by_move : bool) (value : V) : M V Vector unit :=
  if by_move then PushBack_move value else PushBack_copy value.

(** Successive Appends, in the order of the list. *)
Fixpoint Append_all (calls : list (bool * V)) : M V Vector unit :=
  match calls with
  | [] => ret tt
  | (by_move, value) :: rest => Append by_move value ;; Append_all rest
  end.

(** One Insert: [by_move] selects the overload [Insert(pos, T&&)]. *)
Definition Insert (by_move : bool) (pos : ptr) (value : V) : M V Vector ptr :=
  if by_move then Insert_move pos value else Insert_copy pos value.

End Vector.

(** ** Element types and states used in examples *)

(** A type none of whose operations throws, like [int]. *)
Definition Int : ElemType nat :=
  {| nothrow_move_constructible := true;
     copy_constructible := true;
     sizeof_ := 4;
     default_value := 0;
     moved_from := fun v => v;
     throws := fun _ _ _ => false |}.

(** A copyable type without a [noexcept] move constructor, whose copy and
    move constructors throw on the value 13. *)
Definition Legacy : ElemType nat :=
  {| nothrow_move_constructible := false;
     copy_constructible := true;
     sizeof_ := 4;
     default_value := 0;
     moved_from := fun v => v;
     throws := fun _ op v =>
       match op with
       | CopyCtor | MoveCtor => v =? 13
       | _ => false
       end |}.

(** A move-only type whose move constructor throws on the value 13 and
    leaves 0 in an object it has moved from. *)
Definition MoveOnly : ElemType nat :=
  {| nothrow_move_constructible := false;
     copy_constructible := false;
     sizeof_ := 4;
     default_value := 0;
     moved_from := fun _ => 0;
     throws := fun _ op v =>
       match op with
       | MoveCtor => v =? 13
       | _ => false
       end |}.

(** The vector and the memory a program reaches by running [m] on the
    vector [v] in the memory [w]. *)
Definition run_on {V A} (m : M V Vector A) (v : Vector) (w : world V)
  : Vector * world V :=
  match m v w with
  | Ok _ v' w' | Throw v' w' => (v', w')
  | Fault => (v, w)
  end.

(** The same, starting from a default-constructed vector in an empty
    memory. *)
Definition state_after {V A} (m : M V Vector A) : Vector * world V :=
  run_on m Vector_default empty_world.

(** * Reasoning about member functions *)

(** ** Outcomes

    [wp m x w Q E]: run from [x] and [w], [m] is free of undefined
    behaviour; when it returns, [Q] holds of the result and the final
    state; when it throws, [E] holds of the state the exception leaves. *)

Section WP.
Context {V : Type}.

Definition wp {X A} (m : M V X A) (x : X) (w : world V)
    (Q : A -> X -> world V -> Prop) (E : X -> world V -> Prop) : Prop :=
  match m x w with
  | Ok a x' w' => Q a x' w'
  | Throw x' w' => E x' w'
  | Fault => False
  end.

Lemma wp_mono {X A} (m : M V X A) x w (Q Q' : A -> X -> world V -> Prop) (E E' : X -> world V -> Prop) :
  wp m x w Q E ->
  (forall a x' w', Q a x' w' -> Q' a x' w') ->
  (forall x' w', E x' w' -> E' x' w') ->
  wp m x w Q' E'.
Proof.
  intros Hm HQ HE. unfold wp in *.
  destruct (m x w); [by apply HQ | by apply HE | done].
Qed.

Lemma wp_ret {X A} (a : A) (x : X) w Q E : Q a x w -> wp (ret a) x w Q E.
Proof. exact id. Qed.

Lemma wp_bind {X A B} (m : M V X A) (f : A -> M V X B) x w Q1 E1 Q E :
  wp m x w Q1 E1 ->
  (forall a x' w', Q1 a x' w' -> wp (f a) x' w' Q E) ->
  (forall x' w', E1 x' w' -> E x' w') ->
  wp (bind m f) x w Q E.
Proof.
  intros Hm HQ HE. unfold wp, bind in *.
  destruct (m x w); [by apply HQ | by apply HE | done].
Qed.

Lemma wp_get {X B} (f : X -> M V X B) x w Q E :
  wp (f x) x w Q E -> wp (bind get f) x w Q E.
Proof. exact id. Qed.

Lemma wp_put {X} (x' x : X) w (Q : unit -> X -> world V -> Prop) E :
  Q tt x' w -> wp (put x') x w Q E.
Proof. exact id. Qed.

Lemma wp_assert {X B} (b : bool) (f : unit -> M V X B) x w Q E :
  b = true -> wp (f tt) x w Q E -> wp (bind (assert b) f) x w Q E.
Proof. intros ->. exact id. Qed.

Lemma wp_on_throw {X A} (m : M V X A) (h : M V X unit) x w Q1 E1 E2 Q E :
  wp m x w Q1 E1 ->
  (forall a x' w', Q1 a x' w' -> Q a x' w') ->
  (forall x' w', E1 x' w' -> wp h x' w' (fun _ => E2) E2) ->
  (forall x' w', E2 x' w' -> E x' w') ->
  wp (on_throw m h) x w Q E.
Proof.
  intros Hm HQ HE HE'. unfold wp, on_throw in *.
  destruct (m x w) as [a x' w'|x' w'|]; [by apply HQ | | done].
  specialize (HE _ _ Hm). destruct (h x' w'); [by apply HE' | by apply HE' | done].
Qed.

Lemma wp_with_local {X L A} (l0 : L) (body : M V (X * L) A) (dtor : L -> M V X unit)
    x w Q1 E1 Q E :
  wp body (x, l0) w Q1 E1 ->
  (forall a x' l w', Q1 a (x', l) w' -> wp (dtor l) x' w' (fun _ => Q a) E) ->
  (forall x' l w', E1 (x', l) w' -> wp (dtor l) x' w' (fun _ => E) (fun _ _ => False)) ->
  wp (with_local l0 body dtor) x w Q E.
Proof.
  intros Hb HQ HE. unfold wp, with_local in *.
  destruct (body (x, l0) w) as [a [x' l] w'|[x' l] w'|]; [| | done].
  - specialize (HQ _ _ _ _ Hb). by destruct (dtor l x' w').
  - specialize (HE _ _ _ Hb). by destruct (dtor l x' w').
Qed.

Lemma wp_zoom {X Y A} (proj : X -> Y) (inj : Y -> X -> X) (m : M V Y A) x w Q1 E1 Q E :
  wp m (proj x) w Q1 E1 ->
  (forall a y w', Q1 a y w' -> Q a (inj y x) w') ->
  (forall y w', E1 y w' -> E (inj y x) w') ->
  wp (zoom proj inj m) x w Q E.
Proof.
  intros Hm HQ HE. unfold wp, zoom in *.
  destruct (m (proj x) w); [by apply HQ | by apply HE | done].
Qed.

(** What [wp] says about each outcome. *)
Lemma wp_Ok {X A} (m : M V X A) x w Q E a x' w' :
  wp m x w Q E -> m x w = Ok a x' w' -> Q a x' w'.
Proof. unfold wp. intros H Hr. by rewrite Hr in H. Qed.

Lemma wp_Throw {X A} (m : M V X A) x w Q E x' w' :
  wp m x w Q E -> m x w = Throw x' w' -> E x' w'.
Proof. unfold wp. intros H Hr. by rewrite Hr in H. Qed.

Lemma wp_not_Fault {X A} (m : M V X A) x w Q E :
  wp m x w Q E -> m x w <> Fault.
Proof. unfold wp. intros H Hr. by rewrite Hr in H. Qed.

Lemma wp_returns {X A} (m : M V X A) x w Q :
  wp m x w Q (fun _ _ => False) -> exists a x' w', m x w = Ok a x' w' /\ Q a x' w'.
Proof. unfold wp. destruct (m x w); [eauto | done | done]. Qed.

(** ** Bookkeeping between two states of the memory *)

(** No block allocated or released, and [d] more objects alive. *)
Record frame (w w' : world V) (d : Z) : Prop := Frame {
  frame_allocs : allocs w' = allocs w;
  frame_frees : frees w' = frees w;
  frame_objects : live_objects w' = (live_objects w + d)%Z
}.

Lemma frame_refl w : frame w w 0.
Proof. split; [done | done | lia]. Qed.

Lemma frame_trans w1 w2 w3 d1 d2 d :
  frame w1 w2 d1 -> frame w2 w3 d2 -> d = (d1 + d2)%Z -> frame w1 w3 d.
Proof. intros [] [] ->. split; [congruence | congruence | lia]. Qed.

(** The slots of the block a pointer's [blk] field designates; a null
    pointer designates no slots. *)
Definition block_in (h : gmap nat (list (option V))) (ob : option nat)
    (l : list (option V)) : Prop :=
  match ob with
  | Some b => h !! b = Some l
  | None => l = []
  end.

Definition block_is (w : world V) (ob : option nat) (l : list (option V)) : Prop :=
  block_in (heap w) ob l.

Definition write_block (ob : option nat) (l : list (option V))
    (h : gmap nat (list (option V))) : gmap nat (list (option V)) :=
  match ob with Some b => <[b := l]> h | None => h end.

Definition drop_block (ob : option nat)
    (h : gmap nat (list (option V))) : gmap nat (list (option V)) :=
  match ob with Some b => delete b h | None => h end.

Lemma block_in_write h ob l l' :
  block_in h ob l -> length l' = length l -> block_in (write_block ob l' h) ob l'.
Proof.
  destruct ob as [b|]; simpl; intros Hb Hl.
  - apply lookup_insert_eq.
  - subst l. by destruct l'.
Qed.

Lemma block_in_write_ne h ob ob' l l' :
  ob <> ob' -> block_in h ob' l -> block_in (write_block ob l' h) ob' l.
Proof.
  destruct ob as [b|], ob' as [b'|]; simpl; intros Hne Hb; try done.
  rewrite lookup_insert_ne; [done | congruence].
Qed.

Lemma block_in_drop_ne h ob ob' l :
  ob <> ob' -> block_in h ob' l -> block_in (drop_block ob h) ob' l.
Proof.
  destruct ob as [b|], ob' as [b'|]; simpl; intros Hne Hb; try done.
  rewrite lookup_delete_ne; [done | congruence].
Qed.

Lemma block_is_write w w' ob l l' :
  heap w' = write_block ob l' (heap w) -> block_is w ob l -> length l' = length l ->
  block_is w' ob l'.
Proof.
  unfold block_is. destruct ob as [b|]; simpl; intros Hh Hb Hl.
  - rewrite Hh. apply lookup_insert_eq.
  - subst l. by destruct l'.
Qed.

Lemma block_is_write_ne w w' ob ob' l l' :
  heap w' = write_block ob l' (heap w) -> ob <> ob' -> block_is w ob' l ->
  block_is w' ob' l.
Proof.
  unfold block_is. destruct ob as [b|], ob' as [b'|]; simpl; intros Hh Hne Hb; try done.
  - rewrite Hh, lookup_insert_ne; [done | congruence].
  - by rewrite Hh.
Qed.

Lemma block_is_same_heap w w' ob l :
  heap w' = heap w -> block_is w ob l -> block_is w' ob l.
Proof. unfold block_is. by intros Hh; rewrite Hh. Qed.

Lemma write_block_write ob l l' h :
  write_block ob l (write_block ob l' h) = write_block ob l h.
Proof. destruct ob; simpl; [apply insert_insert_eq | done]. Qed.

Lemma write_block_same h ob l :
  block_in h ob l -> write_block ob l h = h.
Proof. destruct ob; simpl; [apply insert_id | done]. Qed.

Lemma write_block_id w ob l :
  block_is w ob l -> write_block ob l (heap w) = heap w.
Proof. unfold block_is. destruct ob; simpl; [apply insert_id | done]. Qed.

Lemma write_block_comm ob1 ob2 l1 l2 h :
  ob1 <> ob2 ->
  write_block ob1 l1 (write_block ob2 l2 h) = write_block ob2 l2 (write_block ob1 l1 h).
Proof.
  destruct ob1, ob2; simpl; try done. intros Hne.
  apply insert_insert_ne. congruence.
Qed.

Lemma write_block_shadow ob1 ob2 l1 l1' l2 h :
  ob1 <> ob2 ->
  write_block ob1 l1 (write_block ob2 l2 (write_block ob1 l1' h)) =
  write_block ob1 l1 (write_block ob2 l2 h).
Proof.
  intros Hne. rewrite (write_block_comm ob2 ob1) by done.
  by rewrite write_block_write.
Qed.

Lemma drop_write_fresh ob l h :
  (forall b, ob = Some b -> h !! b = None) ->
  drop_block ob (write_block ob l h) = h.
Proof.
  destruct ob as [b|]; simpl; [|done]. intros Hf.
  rewrite delete_insert_eq. apply delete_id. auto.
Qed.

Lemma drop_write ob l h :
  drop_block ob (write_block ob l h) = drop_block ob h.
Proof. destruct ob; simpl; [apply delete_insert_eq | done]. Qed.

Lemma block_is_inj w ob l l' :
  block_is w ob l -> block_is w ob l' -> l = l'.
Proof. unfold block_is. destruct ob; simpl; congruence. Qed.

End WP.

(** ** Specifications of the primitives *)

Ltac solve_frame :=
  split; simpl; try done; unfold live_objects; simpl; lia.

Section PrimitiveSpecs.
Context {V : Type} (T : ElemType V).

(** Some element operation of kind [op] throws. *)
Definition thrown (op : elem_op) : Prop := exists n v, throws T n op v = true.

Lemma insert_middle {A} (l1 l2 : list A) (x y : A) n :
  n = length l1 -> <[n := y]> (l1 ++ x :: l2) = l1 ++ y :: l2.
Proof. intros ->. by rewrite insert_app_r_alt, Nat.sub_diag by lia. Qed.

Lemma slot_middle (w : world V) p l1 s l2 :
  block_is w (blk p) (l1 ++ s :: l2) -> off p = Z.of_nat (length l1) ->
  slot w p = Some s.
Proof.
  unfold slot, block_is, block_in. destruct (blk p) as [b|]; [|by destruct l1].
  intros Hb Ho. rewrite Ho, Hb. simpl.
  destruct (Z.ltb_spec (Z.of_nat (length l1)) 0); [lia|].
  rewrite Nat2Z.id. by apply list_lookup_middle.
Qed.

Lemma set_slot_middle (w : world V) p l1 s s' l2 :
  block_is w (blk p) (l1 ++ s :: l2) -> off p = Z.of_nat (length l1) ->
  set_slot p s' w = set_heap (write_block (blk p) (l1 ++ s' :: l2) (heap w)) w.
Proof.
  unfold set_slot, block_is, block_in. destruct (blk p) as [b|]; [|by destruct l1].
  intros Hb Ho. rewrite Hb, Ho, Nat2Z.id. simpl.
  by rewrite insert_middle.
Qed.

Lemma load_spec {X} (x : X) (w : world V) p l1 v l2 :
  block_is w (blk p) (l1 ++ Some v :: l2) -> off p = Z.of_nat (length l1) ->
  load p x w = Ok v x w.
Proof. intros Hb Ho. unfold load. by rewrite (slot_middle _ _ _ _ _ Hb Ho). Qed.

Lemma wp_load {X B} (f : V -> M V X B) x w p l1 v l2 Q E :
  block_is w (blk p) (l1 ++ Some v :: l2) -> off p = Z.of_nat (length l1) ->
  wp (f v) x w Q E -> wp (bind (load p) f) x w Q E.
Proof. intros Hb Ho. unfold wp, bind. by rewrite (load_spec _ _ _ _ _ _ Hb Ho). Qed.

Lemma construct_at_spec {X} (x : X) (w : world V) p i l1 l2 :
  block_is w (blk p) (l1 ++ None :: l2) -> off p = Z.of_nat (length l1) ->
  wp (construct_at T p i) x w
    (fun _ x' w' =>
       x' = x /\
       heap w' = write_block (blk p) (l1 ++ Some (init_value T i) :: l2) (heap w) /\
       frame w w' 1 /\
       throws T (clock w) (init_op i) (init_value T i) = false)
    (fun x' w' =>
       x' = x /\ heap w' = heap w /\ frame w w' 0 /\ thrown (init_op i) /\
       throws T (clock w) (init_op i) (init_value T i) = true).
Proof.
  intros Hb Ho. unfold wp, construct_at.
  rewrite (slot_middle _ _ _ _ _ Hb Ho).
  destruct (throws T _ _ _) eqn:Hthr.
  - split_and!; try done; [solve_frame | by eexists _, _].
  - rewrite (set_slot_middle _ _ _ _ _ _ Hb Ho).
    split_and!; try done. solve_frame.
Qed.

Lemma construct_local_spec {X} (x : X) (w : world V) i :
  wp (construct_local T i) x w
    (fun v x' w' =>
       v = init_value T i /\ x' = x /\ heap w' = heap w /\ frame w w' 1 /\
       throws T (clock w) (init_op i) (init_value T i) = false)
    (fun x' w' =>
       x' = x /\ heap w' = heap w /\ frame w w' 0 /\ thrown (init_op i) /\
       throws T (clock w) (init_op i) (init_value T i) = true).
Proof.
  unfold wp, construct_local. destruct (throws T _ _ _) eqn:Hthr.
  - split_and!; try done; [solve_frame | by eexists _, _].
  - split_and!; try done. solve_frame.
Qed.

Lemma destroy_local_spec {X} (x : X) (w : world V) v E :
  wp (destroy_local v) x w
    (fun _ x' w' => x' = x /\ heap w' = heap w /\ frame w w' (-1)) E.
Proof.
  unfold wp, destroy_local. split_and!; try done.
  solve_frame.
Qed.

Lemma destroy_at_spec {X} (x : X) (w : world V) p v l1 l2 E :
  block_is w (blk p) (l1 ++ Some v :: l2) -> off p = Z.of_nat (length l1) ->
  wp (destroy_at p) x w
    (fun _ x' w' =>
       x' = x /\ heap w' = write_block (blk p) (l1 ++ None :: l2) (heap w) /\
       frame w w' (-1)) E.
Proof.
  intros Hb Ho. unfold wp, destroy_at.
  rewrite (slot_middle _ _ _ _ _ Hb Ho), (set_slot_middle _ _ _ _ _ _ Hb Ho).
  split_and!; try done. solve_frame.
Qed.

Lemma assign_value_spec {X} (x : X) (w : world V) op p u v l1 l2 :
  block_is w (blk p) (l1 ++ Some u :: l2) -> off p = Z.of_nat (length l1) ->
  wp (assign_value T op p v) x w
    (fun _ x' w' =>
       x' = x /\ heap w' = write_block (blk p) (l1 ++ Some v :: l2) (heap w) /\
       frame w w' 0)
    (fun x' w' => x' = x /\ heap w' = heap w /\ frame w w' 0 /\ thrown op).
Proof.
  intros Hb Ho. unfold wp, assign_value.
  rewrite (slot_middle _ _ _ _ _ Hb Ho).
  destruct (throws T _ _ _) eqn:Hthr.
  - split_and!; try done; [solve_frame | by eexists _, _].
  - rewrite (set_slot_middle _ _ _ _ _ _ Hb Ho).
    split_and!; try done. solve_frame.
Qed.

(** Overwriting a live object with moved-from state changes nothing but
    that slot. *)
Lemma set_slot_spec {X} (x : X) (w : world V) p s s' l1 l2 Q E :
  block_is w (blk p) (l1 ++ s :: l2) -> off p = Z.of_nat (length l1) ->
  (forall w', heap w' = write_block (blk p) (l1 ++ s' :: l2) (heap w) ->
              frame w w' 0 -> Q tt x w') ->
  wp (fun x w => Ok tt x (set_slot p s' w)) x w Q E.
Proof.
  intros Hb Ho HQ. unfold wp. rewrite (set_slot_middle _ _ _ _ _ _ Hb Ho).
  apply HQ; [done|]. solve_frame.
Qed.

Lemma wp_distance {X B} (f : nat -> M V X B) x (w : world V) first last n Q E :
  blk first = blk last -> (off last = off first + Z.of_nat n)%Z ->
  wp (f n) x w Q E -> wp (bind (distance first last) f) x w Q E.
Proof.
  intros Hb Ho. unfold wp, bind, distance.
  rewrite bool_decide_eq_true_2 by done.
  destruct (Z.leb_spec (off first) (off last)); [|lia]. simpl.
  by replace (Z.to_nat (off last - off first)) with n by lia.
Qed.

End PrimitiveSpecs.

(** ** Specifications of the library algorithms *)

Ltac list_lengths :=
  unfold ptr_add; cbn [blk off length];
  repeat (progress (rewrite ?length_app, ?fmap_cons, ?length_fmap, ?length_replicate,
                      ?length_insert, ?length_take, ?length_drop, ?length_cons;
                    cbn [length])).

Ltac list_lengths_hyps :=
  repeat match goal with
  | H : ?P |- _ =>
      lazymatch P with
      | @eq nat _ _ => idtac
      | @eq Z _ _ => idtac
      | le _ _ => idtac
      | lt _ _ => idtac
      end;
      progress (rewrite ?length_app, ?fmap_cons, ?length_fmap, ?length_replicate,
                  ?length_insert, ?length_take, ?length_drop, ?length_cons in H;
                cbn [length blk off ptr_add] in H)
  end.

(** Successive writes to two blocks, collapsed to the last write to each. *)
Ltac norm_writes :=
  repeat first
    [ rewrite write_block_write
    | rewrite write_block_shadow by congruence ].

(** Lists of slots in right-nested normal form. *)
Ltac norm_lists :=
  repeat (rewrite fmap_app || rewrite fmap_cons);
  repeat first [rewrite <- app_assoc | progress (cbn [app])].

Ltac solve_off :=
  lazymatch goal with
  | |- ?G => tryif has_evar G then fail "the goal is not yet determined" else idtac
  end;
  list_lengths_hyps; list_lengths; lia.

Section AlgorithmSpecs.
Context {V : Type} (T : ElemType V).

Lemma uninitialized_copy_n_spec {X} (x : X) vs : forall (w : world V) p q s1 s2 d1 d2,
  block_is w (blk p) (s1 ++ (Some <$> vs) ++ s2) ->
  off p = Z.of_nat (length s1) ->
  block_is w (blk q) (d1 ++ replicate (length vs) None ++ d2) ->
  off q = Z.of_nat (length d1) ->
  (blk p = blk q -> vs = []) ->
  wp (uninitialized_copy_n T p (length vs) q) x w
    (fun _ x' w' =>
       x' = x /\
       heap w' = write_block (blk q) (d1 ++ (Some <$> vs) ++ d2) (heap w) /\
       frame w w' (Z.of_nat (length vs)))
    (fun x' w' => x' = x /\ heap w' = heap w /\ frame w w' 0 /\ thrown T CopyCtor).
Proof.
  induction vs as [|v vs IH]; intros w p q s1 s2 d1 d2 Hp Hop Hq Hoq Hne.
  - apply wp_ret. split_and!; [done | | apply frame_refl].
    symmetry. by apply write_block_id.
  - assert (blk p <> blk q) as Hpq by (intros Heq; by specialize (Hne Heq)).
    simpl. eapply wp_bind.
    { unfold copy_construct_at. eapply wp_load; [exact Hp | exact Hop |].
      by apply construct_at_spec with (l1 := d1) (l2 := replicate (length vs) None ++ d2). }
    + intros [] x1 w1 (-> & Hh1 & Hf1 & _).
      eapply wp_on_throw.
      * apply (IH w1 (ptr_add p 1) (ptr_add q 1) (s1 ++ [Some v]) s2 (d1 ++ [Some v]) d2).
        -- rewrite <- app_assoc. simpl.
           eapply block_is_write_ne; [exact Hh1 | congruence | done].
        -- solve_off.
        -- rewrite <- app_assoc. simpl.
           eapply block_is_write; [exact Hh1 | exact Hq | solve_off].
        -- solve_off.
        -- simpl. intros Heq. by destruct Hpq.
      * intros _ x2 w2 (-> & Hh2 & Hf2). split_and!; [done | |].
        -- simpl in Hh2. rewrite Hh2, Hh1, write_block_write.
           by rewrite <- app_assoc.
        -- eapply frame_trans; [exact Hf1 | exact Hf2 | simpl; lia].
      * intros x2 w2 (-> & Hh2 & Hf2 & Hthr).
        eapply wp_mono.
        { apply destroy_at_spec with (v := init_value T (CopyOf v)) (l1 := d1)
            (l2 := replicate (length vs) None ++ d2); [|done].
          eapply block_is_same_heap; [exact Hh2|].
          eapply block_is_write; [exact Hh1 | exact Hq | solve_off]. }
        -- intros _ x3 w3 (-> & Hh3 & Hf3).
           instantiate (1 := fun x' w' =>
             x' = x /\ heap w' = heap w /\ frame w w' 0 /\ thrown T CopyCtor).
           split_and!; [done | | | done].
           ++ rewrite Hh3, Hh2, Hh1, write_block_write. by apply write_block_id.
           ++ eapply frame_trans; [|exact Hf3|];
                [eapply frame_trans; [exact Hf1 | exact Hf2 | reflexivity] | lia].
        -- done.
      * done.
    + intros x1 w1 (-> & Hh1 & Hf1 & Hthr & _). done.
Qed.

Lemma move_construct_at_spec {X} (x : X) (w : world V) p q v s1 s2 d1 d2 :
  block_is w (blk p) (s1 ++ Some v :: s2) -> off p = Z.of_nat (length s1) ->
  block_is w (blk q) (d1 ++ None :: d2) -> off q = Z.of_nat (length d1) ->
  blk p <> blk q ->
  wp (move_construct_at T q p) x w
    (fun _ x' w' =>
       x' = x /\
       heap w' = write_block (blk p) (s1 ++ Some (moved_from T v) :: s2)
                   (write_block (blk q) (d1 ++ Some v :: d2) (heap w)) /\
       frame w w' 1)
    (fun x' w' => x' = x /\ heap w' = heap w /\ frame w w' 0 /\ thrown T MoveCtor).
Proof.
  intros Hp Hop Hq Hoq Hpq. unfold move_construct_at.
  eapply wp_load; [exact Hp | exact Hop |].
  eapply wp_bind; [by apply construct_at_spec with (l1 := d1) (l2 := d2) | |].
  - intros [] x1 w1 (-> & Hh1 & Hf1 & _).
    eapply set_slot_spec; [|exact Hop|].
    + eapply block_is_write_ne; [exact Hh1 | congruence | exact Hp].
    + intros w2 Hh2 Hf2. split_and!; [done | by rewrite Hh2, Hh1 |].
      eapply frame_trans; [exact Hf1 | exact Hf2 | lia].
  - intros x1 w1 (-> & Hh1 & Hf1 & Hthr & _). done.
Qed.

Lemma uninitialized_move_n_spec {X} (x : X) vs : forall (w : world V) p q s1 s2 d1 d2,
  block_is w (blk p) (s1 ++ (Some <$> vs) ++ s2) ->
  off p = Z.of_nat (length s1) ->
  block_is w (blk q) (d1 ++ replicate (length vs) None ++ d2) ->
  off q = Z.of_nat (length d1) ->
  (blk p = blk q -> vs = []) ->
  wp (uninitialized_move_n T p (length vs) q) x w
    (fun _ x' w' =>
       x' = x /\
       heap w' = write_block (blk p) (s1 ++ (Some <$> (moved_from T <$> vs)) ++ s2)
                   (write_block (blk q) (d1 ++ (Some <$> vs) ++ d2) (heap w)) /\
       frame w w' (Z.of_nat (length vs)))
    (fun x' w' =>
       x' = x /\ frame w w' 0 /\ thrown T MoveCtor /\
       exists l', length l' = length (s1 ++ (Some <$> vs) ++ s2) /\
                  heap w' = write_block (blk p) l' (heap w)).
Proof.
  induction vs as [|v vs IH]; intros w p q s1 s2 d1 d2 Hp Hop Hq Hoq Hne.
  - apply wp_ret. split_and!; [done | | apply frame_refl].
    simpl in *. rewrite (write_block_id _ _ _ Hq).
    symmetry. by apply write_block_id.
  - assert (blk p <> blk q) as Hpq by (intros Heq; by specialize (Hne Heq)).
    simpl. eapply wp_bind.
    { by apply move_construct_at_spec with (v := v) (s1 := s1)
        (s2 := (Some <$> vs) ++ s2) (d1 := d1) (d2 := replicate (length vs) None ++ d2). }
    + intros [] x1 w1 (-> & Hh1 & Hf1).
      assert (block_is w1 (blk p) ((s1 ++ [Some (moved_from T v)]) ++ (Some <$> vs) ++ s2)) as Hp1.
      { rewrite <- app_assoc. unfold block_is. rewrite Hh1.
        eapply block_in_write;
          [apply block_in_write_ne; [congruence | exact Hp] | solve_off]. }
      assert (block_is w1 (blk q) ((d1 ++ [Some v]) ++ replicate (length vs) None ++ d2)) as Hq1.
      { rewrite <- app_assoc. unfold block_is. rewrite Hh1.
        apply block_in_write_ne; [done|].
        eapply block_in_write; [exact Hq | solve_off]. }
      eapply wp_on_throw.
      * apply (IH w1 (ptr_add p 1) (ptr_add q 1) (s1 ++ [Some (moved_from T v)]) s2
                 (d1 ++ [Some v]) d2 Hp1); [solve_off | exact Hq1 | solve_off |].
        simpl. intros Heq. by destruct Hpq.
      * intros _ x2 w2 (-> & Hh2 & Hf2). split_and!; [done | |].
        -- simpl in Hh2. rewrite Hh2, Hh1.
           rewrite (write_block_comm (blk q) (blk p)) by done.
           rewrite !write_block_write.
           by rewrite <- !app_assoc.
        -- eapply frame_trans; [exact Hf1 | exact Hf2 | simpl; lia].
      * intros x2 w2 (-> & Hf2 & Hthr & l' & Hl' & Hh2).
        eapply wp_mono.
        { apply destroy_at_spec with (v := v) (l1 := d1)
            (l2 := replicate (length vs) None ++ d2); [|done].
          eapply block_is_write_ne; [exact Hh2 | done |].
          rewrite <- app_assoc in Hq1. exact Hq1. }
        -- intros _ x3 w3 (-> & Hh3 & Hf3).
           instantiate (1 := fun x' w' =>
             x' = x /\ frame w w' 0 /\ thrown T MoveCtor /\
             exists l', length l' = length (s1 ++ (Some <$> v :: vs) ++ s2) /\
                        heap w' = write_block (blk p) l' (heap w)).
           split_and!; [done | | done |].
           ++ eapply frame_trans; [|exact Hf3|];
                [eapply frame_trans; [exact Hf1 | exact Hf2 | reflexivity] | lia].
           ++ exists l'. split; [solve_off|].
              rewrite Hh3, Hh2, Hh1, write_block_write.
              rewrite (write_block_comm (blk q) (blk p)) by done.
              rewrite write_block_write.
              by rewrite (write_block_id w (blk q)
                            (d1 ++ None :: replicate (length vs) None ++ d2) Hq).
        -- done.
      * done.
    + intros x1 w1 (-> & Hh1 & Hf1 & Hthr). split_and!; [done | done | done |].
      eexists. split; [reflexivity|]. rewrite Hh1. symmetry. by apply write_block_id.
Qed.

(** [std::uninitialized_move(p, p + 1, p + 1)]: the last element is moved
    into the raw slot that follows it. *)
Lemma uninitialized_move_last_spec {X} (x : X) (w : world V) p v l1 l2 :
  block_is w (blk p) (l1 ++ Some v :: None :: l2) ->
  off p = Z.of_nat (length l1) ->
  wp (uninitialized_move T p (ptr_add p 1) (ptr_add p 1)) x w
    (fun _ x' w' =>
       x' = x /\
       heap w' = write_block (blk p) (l1 ++ Some (moved_from T v) :: Some v :: l2) (heap w) /\
       frame w w' 1)
    (fun x' w' => x' = x /\ heap w' = heap w /\ frame w w' 0 /\ thrown T MoveCtor).
Proof.
  intros Hp Hop. unfold uninitialized_move.
  apply wp_distance with (n := 1); [done | simpl; lia |].
  unfold uninitialized_move_n, move_construct_at.
  eapply wp_bind with (E1 := fun x' w' =>
    x' = x /\ heap w' = heap w /\ frame w w' 0 /\ thrown T MoveCtor).
  - eapply wp_load; [exact Hp | exact Hop |].
    eapply wp_bind.
    { apply construct_at_spec with (l1 := l1 ++ [Some v]) (l2 := l2).
      - simpl. by rewrite <- app_assoc.
      - solve_off. }
    + intros [] x1 w1 (-> & Hh1 & Hf1 & _).
      eapply set_slot_spec with (l1 := l1) (l2 := Some v :: l2) (s := Some v); [|exact Hop|].
      * unfold block_is. rewrite Hh1. cbn [blk ptr_add init_value].
        rewrite <- app_assoc.
        eapply block_in_write; [exact Hp | solve_off].
      * intros w2 Hh2 Hf2.
        instantiate (1 := fun _ x' w' =>
          x' = x /\
          heap w' = write_block (blk p) (l1 ++ Some (moved_from T v) :: Some v :: l2) (heap w) /\
          frame w w' 1).
        split_and!; [done | |].
        -- simpl in Hh1. rewrite Hh2, Hh1. apply write_block_write.
        -- eapply frame_trans; [exact Hf1 | exact Hf2 | lia].
    + intros x1 w1 (-> & Hh1 & Hf1 & Hthr & _). done.
  - intros [] x1 w1 H1. exact H1.
  - done.
Qed.

Lemma destroy_n_spec {X} (x : X) E vs : forall (w : world V) p l1 l2,
  block_is w (blk p) (l1 ++ (Some <$> vs) ++ l2) ->
  off p = Z.of_nat (length l1) ->
  wp (destroy_n p (length vs)) x w
    (fun _ x' w' =>
       x' = x /\
       heap w' = write_block (blk p) (l1 ++ replicate (length vs) None ++ l2) (heap w) /\
       frame w w' (- Z.of_nat (length vs))) E.
Proof.
  induction vs as [|v vs IH]; intros w p l1 l2 Hp Hop.
  - apply wp_ret. split_and!; [done | | apply frame_refl].
    symmetry. by apply write_block_id.
  - simpl. eapply wp_bind.
    { by apply destroy_at_spec with (v := v) (l1 := l1) (l2 := (Some <$> vs) ++ l2). }
    + intros [] x1 w1 (-> & Hh1 & Hf1).
      eapply wp_mono.
      { apply (IH w1 (ptr_add p 1) (l1 ++ [None]) l2); [|solve_off].
        rewrite <- app_assoc. simpl.
        eapply block_is_write; [exact Hh1 | exact Hp | solve_off]. }
      * intros _ x2 w2 (-> & Hh2 & Hf2). split_and!; [done | |].
        -- simpl in Hh2. rewrite Hh2, Hh1, write_block_write.
           by rewrite <- app_assoc.
        -- eapply frame_trans; [exact Hf1 | exact Hf2 | lia].
      * done.
    + done.
Qed.

(** Move assignment between neighbours in one block, leftwards and
    rightwards. *)
Lemma move_assign_left_spec {X} (x : X) (w : world V) p u v l1 l2 :
  block_is w (blk p) (l1 ++ Some u :: Some v :: l2) ->
  off p = Z.of_nat (length l1) ->
  wp (move_assign_at T p (ptr_add p 1)) x w
    (fun _ x' w' =>
       x' = x /\ frame w w' 0 /\
       heap w' = write_block (blk p) (l1 ++ Some v :: Some (moved_from T v) :: l2) (heap w))
    (fun x' w' => x' = x /\ heap w' = heap w /\ frame w w' 0 /\ thrown T MoveAssign).
Proof.
  intros Hp Hop. unfold move_assign_at.
  eapply wp_load with (l1 := l1 ++ [Some u]) (v := v) (l2 := l2);
    [by rewrite <- app_assoc | solve_off |].
  eapply wp_bind.
  { by apply assign_value_spec with (u := u) (l1 := l1) (l2 := Some v :: l2). }
  - intros [] x1 w1 (-> & Hh1 & Hf1).
    eapply set_slot_spec with (l1 := l1 ++ [Some v]) (l2 := l2) (s := Some v).
    + unfold block_is. rewrite Hh1. cbn [blk ptr_add]. rewrite <- app_assoc.
      eapply block_in_write; [exact Hp | solve_off].
    + solve_off.
    + intros w2 Hh2 Hf2.
      split_and!; [done | eapply frame_trans; [exact Hf1 | exact Hf2 | lia] |].
      cbn [blk ptr_add] in Hh2. rewrite Hh2, Hh1, write_block_write.
      by rewrite <- app_assoc.
  - intros x1 w1 (-> & Hh1 & Hf1 & Hthr). done.
Qed.

Lemma move_assign_right_spec {X} (x : X) (w : world V) p u v l1 l2 :
  block_is w (blk p) (l1 ++ Some v :: Some u :: l2) ->
  off p = Z.of_nat (length l1) ->
  wp (move_assign_at T (ptr_add p 1) p) x w
    (fun _ x' w' =>
       x' = x /\ frame w w' 0 /\
       heap w' = write_block (blk p) (l1 ++ Some (moved_from T v) :: Some v :: l2) (heap w))
    (fun x' w' => x' = x /\ heap w' = heap w /\ frame w w' 0 /\ thrown T MoveAssign).
Proof.
  intros Hp Hop. unfold move_assign_at.
  eapply wp_load with (l1 := l1) (v := v) (l2 := Some u :: l2); [done | done |].
  eapply wp_bind.
  { apply assign_value_spec with (u := u) (l1 := l1 ++ [Some v]) (l2 := l2);
      [by rewrite <- app_assoc | solve_off]. }
  - intros [] x1 w1 (-> & Hh1 & Hf1).
    eapply set_slot_spec with (l1 := l1) (l2 := Some v :: l2) (s := Some v).
    + unfold block_is. rewrite Hh1. cbn [blk ptr_add]. rewrite <- app_assoc.
      eapply block_in_write; [exact Hp | solve_off].
    + done.
    + intros w2 Hh2 Hf2.
      split_and!; [done | eapply frame_trans; [exact Hf1 | exact Hf2 | lia] |].
      cbn [blk ptr_add] in Hh1. by rewrite Hh2, Hh1, write_block_write.
  - intros x1 w1 (-> & Hh1 & Hf1 & Hthr). done.
Qed.

(** [std::move(p + 1, p + 1 + n, p)]: the run is shifted one slot to the
    left; the vacated last slot keeps a live object in some state. *)
Lemma move_n_left_spec {X} (x : X) vs : forall (w : world V) p u l1 l2,
  block_is w (blk p) (l1 ++ Some u :: (Some <$> vs) ++ l2) ->
  off p = Z.of_nat (length l1) ->
  wp (move_n T (ptr_add p 1) (length vs) p) x w
    (fun _ x' w' =>
       x' = x /\ frame w w' 0 /\
       exists j, heap w' = write_block (blk p) (l1 ++ (Some <$> vs) ++ Some j :: l2) (heap w))
    (fun x' w' => x' = x /\ frame w w' 0 /\ thrown T MoveAssign).
Proof.
  induction vs as [|v vs IH]; intros w p u l1 l2 Hp Hop.
  - apply wp_ret. split_and!; [done | apply frame_refl |].
    exists u. symmetry. by apply write_block_id.
  - cbn [length move_n]. eapply wp_bind.
    { by apply move_assign_left_spec with (u := u) (v := v) (l1 := l1)
        (l2 := (Some <$> vs) ++ l2). }
    + intros [] x1 w1 (-> & Hf1 & Hh1).
      eapply wp_mono.
      { apply (IH w1 (ptr_add p 1) (moved_from T v) (l1 ++ [Some v]) l2); [|solve_off].
        unfold block_is. rewrite Hh1. cbn [blk ptr_add]. rewrite <- app_assoc.
        eapply block_in_write; [exact Hp | solve_off]. }
      * intros _ x2 w2 (-> & Hf2 & j & Hh2).
        split_and!; [done | eapply frame_trans; [exact Hf1 | exact Hf2 | lia] |].
        exists j. cbn [blk ptr_add] in Hh2. rewrite Hh2, Hh1, write_block_write.
        by rewrite <- app_assoc.
      * intros x2 w2 (-> & Hf2 & Hthr).
        split_and!; [done | eapply frame_trans; [exact Hf1 | exact Hf2 | lia] | done].
    + intros x1 w1 (-> & Hh1 & Hf1 & Hthr). done.
Qed.

(** [std::move_backward(p, p + n, p + n + 1)], entered with the
    pointers at the end of the two ranges: the run is shifted one slot to
    the right; its first slot keeps a live object in some state. *)
Lemma move_backward_n_spec {X} (x : X) vs : forall (w : world V) p u l1 l2,
  block_is w (blk p) (l1 ++ (Some <$> vs) ++ Some u :: l2) ->
  off p = Z.of_nat (length l1 + length vs) ->
  wp (move_backward_n T p (length vs) (ptr_add p 1)) x w
    (fun _ x' w' =>
       x' = x /\ frame w w' 0 /\
       exists j, heap w' = write_block (blk p) (l1 ++ Some j :: (Some <$> vs) ++ l2) (heap w))
    (fun x' w' => x' = x /\ frame w w' 0 /\ thrown T MoveAssign).
Proof.
  induction vs as [|v vs IH] using rev_ind; intros w p u l1 l2 Hp Hop.
  - apply wp_ret. split_and!; [done | apply frame_refl |].
    exists u. symmetry. by apply write_block_id.
  - rewrite length_app, Nat.add_1_r. cbn [move_backward_n].
    rewrite fmap_app, <- app_assoc in Hp. cbn [fmap list_fmap app] in Hp.
    rewrite length_app in Hop. cbn [length] in Hop.
    set (p' := ptr_add p (-1)).
    assert (ptr_add (ptr_add p 1) (-1) = ptr_add p' 1) as ->
      by (unfold p', ptr_add; cbn [blk off]; f_equal; lia).
    assert (block_is w (blk p') ((l1 ++ (Some <$> vs)) ++ Some v :: Some u :: l2)) as Hp'
      by (by rewrite <- app_assoc).
    assert (off p' = Z.of_nat (length (l1 ++ (Some <$> vs)))) as Hop'
      by (unfold p'; solve_off).
    eapply wp_bind.
    { exact (move_assign_right_spec x w p' u v _ _ Hp' Hop'). }
    + intros [] x1 w1 (-> & Hf1 & Hh1).
      eapply wp_mono.
      { apply (IH w1 p' (moved_from T v) l1 (Some v :: l2)); [|unfold p'; solve_off].
        unfold block_is. rewrite Hh1, <- app_assoc.
        eapply block_in_write; [exact Hp | solve_off]. }
      * intros _ x2 w2 (-> & Hf2 & j & Hh2).
        split_and!; [done | eapply frame_trans; [exact Hf1 | exact Hf2 | lia] |].
        exists j. rewrite Hh2, Hh1, write_block_write.
        by rewrite fmap_app, <- app_assoc.
      * intros x2 w2 (-> & Hf2 & Hthr).
        split_and!; [done | eapply frame_trans; [exact Hf1 | exact Hf2 | lia] | done].
    + intros x1 w1 (-> & Hh1 & Hf1 & Hthr). done.
Qed.

End AlgorithmSpecs.

(** ** The representation invariant *)

Section Representation.
Context {V : Type}.

(** [m] owns a block whose slots are [l]; the block is absent when [m]
    holds [nullptr]. *)
Definition storage (w : world V) (m : RawMemory) (l : list (option V)) : Prop :=
  off (buffer_ m) = 0%Z /\ length l = capacity_ m /\ block_is w (blk (buffer_ m)) l.

(** [v] holds the elements [xs]: slots [[0, size_)] are alive with these
    values and slots [[size_, capacity)] are raw. *)
Definition owns (w : world V) (v : Vector) (xs : list V) : Prop :=
  size_ v = length xs /\
  storage w (data_ v)
    ((Some <$> xs) ++ replicate (capacity_ (data_ v) - length xs) None).

Lemma owns_size w v xs : owns w v xs -> size_ v = length xs.
Proof. by intros [? _]. Qed.

Lemma owns_le_capacity w v xs : owns w v xs -> length xs <= capacity_ (data_ v).
Proof. intros (_ & _ & Hl & _). solve_off. Qed.

Lemma replicate_split {A} (x : A) n k :
  k <= n -> replicate n x = replicate k x ++ replicate (n - k) x.
Proof. intros. rewrite <- replicate_add. f_equal. lia. Qed.

Lemma replicate_split_cons {A} (x : A) n k :
  k < n -> replicate n x = replicate k x ++ x :: replicate (n - S k) x.
Proof.
  intros. rewrite (replicate_split x n k) by lia. f_equal.
  replace (n - k) with (S (n - S k)) by lia. done.
Qed.

(** Two vectors share no block. *)
Definition separate (a b : Vector) : Prop :=
  blk (buffer_ (data_ a)) = blk (buffer_ (data_ b)) -> blk (buffer_ (data_ a)) = None.

Lemma owns_inj w v xs ys : owns w v xs -> owns w v ys -> xs = ys.
Proof.
  intros (Hs & _ & _ & Hb) (Hs' & _ & _ & Hb').
  pose proof (block_is_inj _ _ _ _ Hb Hb') as Heq.
  assert (length xs = length ys) as Hlen by congruence.
  rewrite Hlen in Heq. apply app_inv_tail in Heq.
  revert Heq. apply (inj (fmap Some)).
Qed.

Lemma owns_contents w v xs : owns w v xs -> contents w v = Some xs.
Proof.
  intros (Hs & Ho & Hl & Hb). unfold contents. apply mapM_Some.
  rewrite Hs. clear Hs Hl.
  apply Forall2_same_length_lookup. split; [by rewrite length_seq|].
  intros i k x Hk Hx. apply lookup_seq in Hk as [-> Hi]. simpl in *.
  unfold slot, begin, GetAddress, ptr_add. cbn [blk off].
  unfold block_is, block_in in Hb. destruct (blk (buffer_ (data_ v))) as [b|].
  - rewrite Ho. destruct (Z.ltb_spec (0 + Z.of_nat i) 0); [lia|].
    rewrite Hb. simpl. replace (Z.to_nat (0 + Z.of_nat i)) with i by lia.
    rewrite lookup_app_l by (rewrite length_fmap; lia).
    by rewrite list_lookup_fmap, Hx.
  - apply app_eq_nil in Hb as [Hb _].
    apply fmap_nil_inv in Hb. by subst xs.
Qed.

End Representation.

(** ** Specifications of [RawMemory] and of relocation *)

Section StorageSpecs.
Context {V : Type} (T : ElemType V).

(** [da] blocks allocated, [df] blocks released, [d] more objects alive. *)
Record delta (w w' : world V) (da df : nat) (d : Z) : Prop := Delta {
  delta_allocs : allocs w' = allocs w + da;
  delta_frees : frees w' = frees w + df;
  delta_objects : live_objects w' = (live_objects w + d)%Z
}.

(** The number of blocks a pointer's [blk] field designates. *)
Definition block_count (ob : option nat) : nat :=
  match ob with Some _ => 1 | None => 0 end.

Lemma RawMemory_ctor_spec {X} (x : X) (w : world V) n E :
  wp (RawMemory_ctor n) x w
    (fun m x' w' =>
       x' = x /\ capacity_ m = n /\ off (buffer_ m) = 0%Z /\
       (forall b, blk (buffer_ m) = Some b -> heap w !! b = None) /\
       heap w' = write_block (blk (buffer_ m)) (replicate n None) (heap w) /\
       delta w w' (if n =? 0 then 0 else 1) 0 0 /\
       clock w' = clock w /\
       (blk (buffer_ m) = None <-> n = 0)) E.
Proof.
  unfold RawMemory_ctor, Allocate, wp, bind. destruct n as [|n]; simpl.
  - split_and!; try done. split; simpl; lia.
  - split_and!; try done.
    + intros b [= <-]. apply not_elem_of_dom, is_fresh.
    + split; simpl; unfold live_objects; simpl; lia.
Qed.

Lemma RawMemory_dtor_spec {X} (x : X) (w : world V) m l E :
  storage w m l ->
  wp (RawMemory_dtor m) x w
    (fun _ x' w' =>
       x' = x /\ heap w' = drop_block (blk (buffer_ m)) (heap w) /\
       delta w w' 0 (block_count (blk (buffer_ m))) 0) E.
Proof.
  intros (Ho & _ & Hb).
  unfold RawMemory_dtor, Deallocate, operator_delete, wp.
  unfold block_is, block_in in Hb. rewrite Ho. simpl.
  destruct (blk (buffer_ m)) as [b|].
  - rewrite Hb. split_and!; try done.
    split; simpl; unfold live_objects; simpl; lia.
  - split_and!; try done. split; simpl; lia.
Qed.

Lemma wp_plus {X B} (f : ptr -> M V X B) x (w : world V) m offset Q E :
  offset <= capacity_ m ->
  wp (f (ptr_add (buffer_ m) (Z.of_nat offset))) x w Q E ->
  wp (bind (RawMemory_plus m offset) f) x w Q E.
Proof.
  intros Hle. unfold wp, bind, RawMemory_plus, assert.
  by destruct (Nat.leb_spec offset (capacity_ m)); [|lia].
Qed.

Lemma wp_plus_last {X} (x : X) (w : world V) m offset (Q : ptr -> X -> world V -> Prop) E :
  offset <= capacity_ m ->
  Q (ptr_add (buffer_ m) (Z.of_nat offset)) x w ->
  wp (RawMemory_plus m offset) x w Q E.
Proof.
  intros Hle. unfold wp, bind, RawMemory_plus, assert.
  by destruct (Nat.leb_spec offset (capacity_ m)); [|lia].
Qed.

Lemma wp_index {X B} (f : ptr -> M V X B) x (w : world V) v index Q E :
  index < size_ v -> index < capacity_ (data_ v) ->
  wp (f (ptr_add (buffer_ (data_ v)) (Z.of_nat index))) x w Q E ->
  wp (bind (Vector_index v index) f) x w Q E.
Proof.
  intros Hs Hc. unfold wp, bind, Vector_index, RawMemory_index, assert.
  destruct (Nat.ltb_spec index (size_ v)); [|lia].
  by destruct (Nat.ltb_spec index (capacity_ (data_ v))); [|lia].
Qed.

(** The relocation policy: move when the move constructor cannot throw or
    the type cannot be copied, copy otherwise. *)
Definition relocates_by_move : bool :=
  nothrow_move_constructible T || negb (copy_constructible T).

(** What a failed relocation leaves behind: under the copy policy the
    memory is as before; under the move policy some sources have been
    moved from. *)
Definition relocation_failed (w w' : world V) : Prop :=
  (relocates_by_move = false /\ heap w' = heap w /\ thrown T CopyCtor) \/
  (relocates_by_move = true /\ thrown T MoveCtor).

Lemma relocate_spec {X} (x : X) vs (w : world V) p q s1 s2 d1 d2 :
  block_is w (blk p) (s1 ++ (Some <$> vs) ++ s2) ->
  off p = Z.of_nat (length s1) ->
  block_is w (blk q) (d1 ++ replicate (length vs) None ++ d2) ->
  off q = Z.of_nat (length d1) ->
  blk p <> blk q ->
  wp (if nothrow_move_constructible T || negb (copy_constructible T)
      then uninitialized_move_n T p (length vs) q
      else uninitialized_copy_n T p (length vs) q) x w
    (fun _ x' w' =>
       x' = x /\ frame w w' (Z.of_nat (length vs)) /\
       exists ms, length ms = length vs /\
         (relocates_by_move = false -> ms = vs) /\
         heap w' = write_block (blk p) (s1 ++ (Some <$> ms) ++ s2)
                     (write_block (blk q) (d1 ++ (Some <$> vs) ++ d2) (heap w)))
    (fun x' w' =>
       x' = x /\ frame w w' 0 /\ relocation_failed w w' /\
       exists l', length l' = length (s1 ++ (Some <$> vs) ++ s2) /\
                  heap w' = write_block (blk p) l' (heap w)).
Proof.
  intros Hp Hop Hq Hoq Hpq. unfold relocation_failed, relocates_by_move.
  destruct (nothrow_move_constructible T || negb (copy_constructible T)).
  - eapply wp_mono;
      [by apply uninitialized_move_n_spec with (s1 := s1) (s2 := s2) (d1 := d1) (d2 := d2) | |].
    + intros _ x' w' (-> & Hh & Hf). split_and!; [done | done |].
      exists (moved_from T <$> vs). by rewrite length_fmap.
    + intros x' w' (-> & Hf & Hthr & Hl). split_and!; [done | done | by right | done].
  - eapply wp_mono;
      [by apply uninitialized_copy_n_spec with (s1 := s1) (s2 := s2) (d1 := d1) (d2 := d2) | |].
    + intros _ x' w' (-> & Hh & Hf). split_and!; [done | done |].
      exists vs. split_and!; [done | done |]. rewrite Hh. symmetry.
      apply write_block_same, block_in_write_ne; [congruence | exact Hp].
    + intros x' w' (-> & Hh & Hf & Hthr). split_and!; [done | done | by left |].
      eexists. split; [reflexivity|]. rewrite Hh. symmetry. by apply write_block_id.
Qed.

End StorageSpecs.

Ltac bookkeeping :=
  repeat match goal with
  | H : frame _ _ _ |- _ => destruct H
  | H : delta _ _ _ _ _ |- _ => destruct H
  end;
  first [lia | split; lia].

(** ** Specifications of the member functions of [Vector] *)

Section VectorSpecs.
Context {V : Type} (T : ElemType V).

Lemma RawMemory_Swap_eq (a b : RawMemory) : RawMemory_Swap a b = (b, a).
Proof. by destruct a, b. Qed.

(** A freshly constructed [RawMemory] shares no block with storage that
    already exists. *)
Lemma fresh_block_ne (w : world V) (m nd : RawMemory) l n :
  storage w m l ->
  (forall b, blk (buffer_ nd) = Some b -> heap w !! b = None) ->
  (blk (buffer_ nd) = None <-> n = 0) -> 0 < n ->
  blk (buffer_ m) <> blk (buffer_ nd).
Proof.
  intros (_ & _ & Hb) Hfresh Hnull Hn Heq.
  unfold block_is, block_in in Hb.
  destruct (blk (buffer_ nd)) as [b|] eqn:Hnd.
  - rewrite Heq in Hb. specialize (Hfresh b eq_refl). congruence.
  - destruct Hnull as [Hnull _]. specialize (Hnull eq_refl). lia.
Qed.

Lemma Reserve_spec (w : world V) v xs n :
  owns w v xs ->
  wp (Reserve T n) v w
    (fun _ v' w' =>
       owns w' v' xs /\
       (n <= capacity_ (data_ v) -> v' = v /\ w' = w) /\
       (capacity_ (data_ v) < n ->
          capacity_ (data_ v') = n /\
          delta w w' 1 (block_count (blk (buffer_ (data_ v)))) 0))
    (fun v' w' =>
       capacity_ (data_ v) < n /\ v' = v /\ delta w w' 1 1 0 /\
       relocation_failed T w w').
Proof.
  intros Hown. unfold Reserve, Capacity, GetAddress. apply wp_get.
  destruct (Nat.leb_spec n (capacity_ (data_ v))) as [Hle|Hlt].
  { apply wp_ret. split_and!; [done | done | lia]. }
  eapply wp_bind; [apply RawMemory_ctor_spec with (E := fun _ _ => False) | | done].
  intros nd x1 w1 (-> & Hcap & Hoff & Hfresh & Hh1 & Hd1 & _ & Hnull).
  pose proof (owns_le_capacity _ _ _ Hown) as Hlen.
  destruct Hown as (Hs & Hst). pose proof Hst as (Ho & Hl & Hb).
  assert (blk (buffer_ (data_ v)) <> blk (buffer_ nd)) as Hne
    by (eapply fresh_block_ne; [exact Hst | done | done | lia]).
  destruct (n =? 0) eqn:Hn0; [apply Nat.eqb_eq in Hn0; lia|].
  set (old := (Some <$> xs) ++ replicate (capacity_ (data_ v) - length xs) None) in *.
  assert (block_is w1 (blk (buffer_ (data_ v))) old) as Hb1.
  { unfold block_is. rewrite Hh1. apply block_in_write_ne; [congruence | exact Hb]. }
  assert (block_is w1 (blk (buffer_ nd))
            ([] ++ replicate (length xs) None ++ replicate (n - length xs) None)) as Hnd1.
  { unfold block_is. rewrite Hh1. simpl. rewrite <- replicate_split by lia.
    destruct (blk (buffer_ nd)) as [b|] eqn:Hbn; [apply lookup_insert_eq|].
    destruct Hnull as [Hnull _]. specialize (Hnull eq_refl). lia. }
  eapply wp_with_local with
    (Q1 := fun _ s w' =>
       s = (set_data nd v, data_ v) /\ frame w1 w' 0 /\
       block_is w' (blk (buffer_ (data_ v))) (replicate (capacity_ (data_ v)) None) /\
       heap w' = write_block (blk (buffer_ (data_ v))) (replicate (capacity_ (data_ v)) None)
                   (write_block (blk (buffer_ nd))
                      ((Some <$> xs) ++ replicate (n - length xs) None) (heap w1)))
    (E1 := fun s w' =>
       s = (v, nd) /\ frame w1 w' 0 /\ relocation_failed T w1 w' /\
       exists l', length l' = length old /\
                  heap w' = write_block (blk (buffer_ (data_ v))) l' (heap w1)).
  - rewrite Hs.
    eapply wp_bind.
    { apply relocate_spec with (s1 := []) (s2 := replicate (capacity_ (data_ v) - length xs) None)
        (d1 := []) (d2 := replicate (n - length xs) None); done. }
    + intros [] x2 w2 (-> & Hf2 & ms & Hms & _ & Hh2).
      eapply wp_bind.
      { rewrite <- Hms.
        apply destroy_n_spec with (E := fun _ _ => False) (l1 := [])
          (l2 := replicate (capacity_ (data_ v) - length xs) None); [|by rewrite Ho].
        unfold block_is. rewrite Hh2. simpl.
        eapply block_in_write; [apply block_in_write_ne; [congruence | exact Hb1]|].
        unfold old. solve_off. }
      * intros [] x3 w3 (-> & Hh3 & Hf3).
        rewrite RawMemory_Swap_eq. apply wp_put.
        simpl in Hh3. rewrite Hms, <- replicate_split in Hh3 by lia.
        split_and!; [done | | |].
        -- eapply frame_trans; [exact Hf2 | exact Hf3 | lia].
        -- unfold block_is. rewrite Hh3.
           eapply block_in_write.
           { rewrite Hh2. simpl.
             eapply block_in_write; [apply block_in_write_ne; [congruence | exact Hb1]|].
             unfold old. solve_off. }
           solve_off.
        -- rewrite Hh3, Hh2. simpl. by rewrite write_block_write.
      * done.
    + intros x2 w2 (-> & Hf2 & Hfail & Hl'). done.
  - intros [] x2 l w2 ([= -> ->] & Hf2 & Hb2 & Hh2).
    eapply wp_mono.
    { apply RawMemory_dtor_spec with (l := replicate (capacity_ (data_ v)) None)
        (E := fun _ _ => False).
      split_and!; [done | by rewrite length_replicate | done]. }
    + intros _ x3 w3 (-> & Hh3 & Hd3).
      assert (block_is w3 (blk (buffer_ nd))
                ((Some <$> xs) ++ replicate (n - length xs) None)) as Hb3.
      { unfold block_is. rewrite Hh3. apply block_in_drop_ne; [done|].
        rewrite Hh2. apply block_in_write_ne; [done|].
        eapply block_in_write; [exact Hnd1 | solve_off]. }
      split_and!.
      * split; [done|]. simpl. rewrite Hcap.
        split_and!; [done | solve_off | done].
      * lia.
      * intros _. simpl. split; [done|]. bookkeeping.
    + done.
  - intros x2 l w2 ([= -> ->] & Hf2 & Hfail & l' & Hl' & Hh2).
    eapply wp_mono.
    { apply RawMemory_dtor_spec with (l := replicate n None) (E := fun _ _ => False).
      split_and!; [done | by rewrite length_replicate |].
      unfold block_is. rewrite Hh2. apply block_in_write_ne; [done|].
      unfold block_is in Hnd1. simpl in Hnd1. by rewrite <- replicate_split in Hnd1 by lia. }
    + intros _ x3 w3 (-> & Hh3 & Hd3).
      assert (block_count (blk (buffer_ nd)) = 1) as Hbc.
      { destruct (blk (buffer_ nd)); [done|].
        destruct Hnull as [Hnull _]. specialize (Hnull eq_refl). lia. }
      rewrite Hbc in Hd3.
      split_and!; [done | done | bookkeeping |].
      destruct Hfail as [(Hpol & Hheap & Hthr)|(Hpol & Hthr)]; [left | by right].
      split_and!; [done | | done].
      rewrite Hh3, Hheap, Hh1. by apply drop_write_fresh.
    + done.
Qed.

(** *** Appending

    The statement shared by [PushBack] and [EmplaceBack]: everything up to
    the increment of [size_]. *)
Definition append_core (this : Vector) (i : init V) : M V Vector unit :=
  if size_ this <? Capacity (data_ this) then
    p <- RawMemory_plus (data_ this) (size_ this) ;;
    construct_at T p i
  else
    new_data <- RawMemory_ctor (if size_ this =? 0 then 1 else 2 * size_ this) ;;
    with_local new_data
      (p <- RawMemory_plus new_data (size_ this) ;;
       construct_at T p i ;;
       (if nothrow_move_constructible T || negb (copy_constructible T)
        then uninitialized_move_n T (GetAddress (data_ this)) (size_ this)
                                    (GetAddress new_data)
        else uninitialized_copy_n T (GetAddress (data_ this)) (size_ this)
                                    (GetAddress new_data)) ;;
       destroy_n (GetAddress (data_ this)) (size_ this) ;;
       let '(d, nd) := RawMemory_Swap (data_ this) new_data in
       put (set_data d this, nd))
      RawMemory_dtor.

Lemma PushBack_unfold i :
  PushBack T i = (this <- get ;; append_core this i ;; incr_size).
Proof. reflexivity. Qed.

Lemma EmplaceBack_unfold i :
  EmplaceBack T i =
  (this <- get ;; append_core this i ;; incr_size ;;
   this <- get ;; p <- RawMemory_plus (data_ this) (size_ this) ;; ret (ptr_add p (-1))).
Proof. reflexivity. Qed.

(** The capacity the growth sites ask for. *)
Definition grown (size : nat) : nat := if size =? 0 then 1 else 2 * size.

(** What a failed append leaves behind: either the constructor of the new
    element threw, and nothing has changed; or the vector was full and the
    relocation into the new block threw, after the new element had been
    constructed there. *)
Definition append_failed (v : Vector) (i : init V) (w w' : world V) : Prop :=
  (throws T (clock w) (init_op i) (init_value T i) = true /\
   heap w' = heap w /\ exists k, delta w w' k k 0) \/
  (capacity_ (data_ v) <= size_ v /\
   throws T (clock w) (init_op i) (init_value T i) = false /\
   relocation_failed T w w' /\ delta w w' 1 1 1).

Lemma append_core_spec (w : world V) v xs i :
  owns w v xs ->
  wp (append_core v i) v w
    (fun _ v' w' =>
       size_ v' = size_ v /\
       storage w' (data_ v')
         ((Some <$> (xs ++ [init_value T i])) ++
          replicate (capacity_ (data_ v') - S (length xs)) None) /\
       (size_ v < capacity_ (data_ v) -> data_ v' = data_ v /\ delta w w' 0 0 1) /\
       (capacity_ (data_ v) <= size_ v ->
          capacity_ (data_ v') = grown (size_ v) /\
          delta w w' 1 (block_count (blk (buffer_ (data_ v)))) 1))
    (fun v' w' => v' = v /\ append_failed v i w w').
Proof.
  intros Hown. unfold append_core, Capacity, GetAddress, append_failed.
  pose proof (owns_le_capacity _ _ _ Hown) as Hlen.
  destruct Hown as (Hs & Hst). pose proof Hst as (Ho & Hl & Hb).
  set (a := init_value T i).
  destruct (Nat.ltb_spec (size_ v) (capacity_ (data_ v))) as [Hlt|Hge].
  - (* the new element fits *)
    apply wp_plus; [lia|].
    rewrite (replicate_split_cons None _ 0) in Hb by lia. simpl in Hb.
    eapply wp_mono.
    { apply construct_at_spec with (l1 := Some <$> xs)
        (l2 := replicate (capacity_ (data_ v) - length xs - 1) None).
      - exact Hb.
      - solve_off. }
    + intros _ x1 w1 (-> & Hh1 & Hf1 & _). simpl in Hh1.
      split_and!; [done | | | lia].
      * split_and!; [done | solve_off |].
        unfold block_is. rewrite Hh1, fmap_app, <- app_assoc. simpl.
        replace (capacity_ (data_ v) - S (length xs))
          with (capacity_ (data_ v) - length xs - 1) by lia.
        eapply block_in_write; [exact Hb | solve_off].
      * intros _. split; [done|]. bookkeeping.
    + intros x1 w1 (-> & Hh1 & Hf1 & _ & Hthr).
      split; [done|]. left. split_and!; [done | done |]. exists 0. bookkeeping.
  - (* the vector is full *)
    assert (size_ v = capacity_ (data_ v)) as Hfull by lia.
    fold (grown (size_ v)).
    assert (size_ v < grown (size_ v)) as Hgrow
      by (unfold grown; destruct (Nat.eqb_spec (size_ v) 0); lia).
    set (n := grown (size_ v)) in *.
    eapply wp_bind; [apply RawMemory_ctor_spec with (E := fun _ _ => False) | | done].
    intros nd x1 w1 (-> & Hcap & Hoff & Hfresh & Hh1 & Hd1 & Hclock & Hnull).
    assert (blk (buffer_ (data_ v)) <> blk (buffer_ nd)) as Hne
      by (eapply fresh_block_ne; [exact Hst | done | done | lia]).
    destruct (n =? 0) eqn:Hn0; [apply Nat.eqb_eq in Hn0; lia|].
    replace (capacity_ (data_ v) - length xs) with 0 in * by lia.
    simpl in Hb, Hst, Hl. rewrite app_nil_r in Hb, Hst, Hl.
    assert (block_is w1 (blk (buffer_ (data_ v))) (Some <$> xs)) as Hb1.
    { unfold block_is. rewrite Hh1. apply block_in_write_ne; [congruence | exact Hb]. }
    assert (block_is w1 (blk (buffer_ nd))
              (replicate (length xs) None ++ None :: replicate (n - S (length xs)) None))
      as Hnd1.
    { unfold block_is. rewrite Hh1, <- replicate_split_cons by lia.
      destruct (blk (buffer_ nd)) as [b|] eqn:Hbn; [apply lookup_insert_eq|].
      destruct Hnull as [Hnull _]. specialize (Hnull eq_refl). lia. }
    assert (block_count (blk (buffer_ nd)) = 1) as Hbc.
    { destruct (blk (buffer_ nd)); [done|].
      destruct Hnull as [Hnull _]. specialize (Hnull eq_refl). lia. }
    set (grownl := (Some <$> xs) ++ Some a :: replicate (n - S (length xs)) None).
    eapply wp_with_local with
      (Q1 := fun _ s w' =>
         s = (set_data nd v, data_ v) /\ frame w1 w' 1 /\
         heap w' = write_block (blk (buffer_ (data_ v))) (replicate (length xs) None)
                     (write_block (blk (buffer_ nd)) grownl (heap w1)))
      (E1 := fun s w' =>
         s = (v, nd) /\
         exists lnd, length lnd = n /\ block_is w' (blk (buffer_ nd)) lnd /\
           ((throws T (clock w) (init_op i) a = true /\ frame w1 w' 0 /\
             heap w' = heap w1) \/
            (throws T (clock w) (init_op i) a = false /\ frame w1 w' 1 /\
             ((relocates_by_move T = false /\ thrown T CopyCtor /\
               heap w' = write_block (blk (buffer_ nd)) lnd (heap w1)) \/
              (relocates_by_move T = true /\ thrown T MoveCtor))))).
    + apply wp_plus; [lia|]. rewrite Hs.
      eapply wp_bind.
      { apply construct_at_spec with (l1 := replicate (length xs) None)
          (l2 := replicate (n - S (length xs)) None); [exact Hnd1 | solve_off]. }
      * intros [] x2 w2 (-> & Hh2 & Hf2 & Hok). simpl in Hh2. fold a in Hh2.
        rewrite Hclock in Hok. fold a in Hok.
        assert (block_is w2 (blk (buffer_ (data_ v)))
                  ([] ++ (Some <$> xs) ++ [])) as Hb2.
        { simpl. rewrite app_nil_r. unfold block_is. rewrite Hh2.
          apply block_in_write_ne; [congruence | exact Hb1]. }
        assert (block_is w2 (blk (buffer_ nd))
                  ([] ++ replicate (length xs) None ++
                   Some a :: replicate (n - S (length xs)) None)) as Hnd2.
        { unfold block_is. rewrite Hh2. simpl.
          eapply block_in_write; [exact Hnd1 | solve_off]. }
        eapply wp_bind.
        { apply relocate_spec with (s1 := []) (s2 := []) (d1 := [])
            (d2 := Some a :: replicate (n - S (length xs)) None); done. }
        -- intros [] x3 w3 (-> & Hf3 & ms & Hms & _ & Hh3). simpl in Hh3.
           rewrite app_nil_r in Hh3. fold grownl in Hh3.
           eapply wp_bind.
           { rewrite <- Hms.
             apply destroy_n_spec with (E := fun _ _ => False) (l1 := []) (l2 := []);
               [|by rewrite Ho].
             simpl. rewrite app_nil_r. unfold block_is. rewrite Hh3.
             eapply block_in_write.
             { apply block_in_write_ne; [congruence|].
               simpl in Hb2. rewrite app_nil_r in Hb2. exact Hb2. }
             solve_off. }
           ++ intros [] x4 w4 (-> & Hh4 & Hf4).
              rewrite RawMemory_Swap_eq. apply wp_put.
              simpl in Hh4. rewrite app_nil_r, Hms in Hh4.
              split_and!; [done | |].
              ** eapply frame_trans; [|exact Hf4|];
                   [eapply frame_trans; [exact Hf2 | exact Hf3 | reflexivity] | lia].
              ** by rewrite Hh4, Hh3, Hh2, !write_block_write.
           ++ done.
        -- intros x3 w3 (-> & Hf3 & Hfail & l' & Hl' & Hh3).
           split; [done|].
           exists (replicate (length xs) None ++ Some a :: replicate (n - S (length xs)) None).
           split_and!; [solve_off | |].
           ++ unfold block_is. rewrite Hh3.
              apply block_in_write_ne; [congruence | exact Hnd2].
           ++ right. split; [done|].
              split; [eapply frame_trans; [exact Hf2 | exact Hf3 | lia]|].
              destruct Hfail as [(Hpol & Hheap & Hthr)|(Hpol & Hthr)]; [left | by right].
              split_and!; [done | done |]. by rewrite Hheap, Hh2.
      * intros x2 w2 (-> & Hh2 & Hf2 & _ & Hthr).
        split; [done|].
        exists (replicate (length xs) None ++ None :: replicate (n - S (length xs)) None).
        split_and!; [solve_off | by eapply block_is_same_heap |].
        left. rewrite Hclock in Hthr. done.
    + intros [] x2 l w2 ([= -> ->] & Hf2 & Hh2).
      eapply wp_mono.
      { apply RawMemory_dtor_spec with (l := replicate (length xs) None)
          (E := fun _ _ => False).
        split_and!; [done | solve_off |].
        unfold block_is. rewrite Hh2.
        eapply block_in_write;
          [apply block_in_write_ne; [congruence | exact Hb1] | solve_off]. }
      * intros _ x3 w3 (-> & Hh3 & Hd3).
        split_and!; [done | | lia |].
        -- simpl. split_and!; [done | unfold grownl in *; solve_off |].
           unfold block_is. rewrite Hh3. apply block_in_drop_ne; [done|].
           rewrite Hh2. apply block_in_write_ne; [done|].
           rewrite fmap_app, <- app_assoc. simpl. rewrite Hcap.
           eapply block_in_write; [exact Hnd1 | solve_off].
        -- intros _. simpl. split; [done|]. bookkeeping.
      * done.
    + intros x2 l w2 ([= -> ->] & lnd & Hlnd & Hbnd & Hcase).
      eapply wp_mono.
      { apply RawMemory_dtor_spec with (l := lnd) (E := fun _ _ => False).
        split_and!; [done | lia | done]. }
      * intros _ x3 w3 (-> & Hh3 & Hd3). rewrite Hbc in Hd3.
        split; [done|].
        destruct Hcase as [(Hthr & Hf2 & Hheap)|(Hok & Hf2 & Hcase)].
        -- left. split_and!; [done | | exists 1; bookkeeping].
           rewrite Hh3, Hheap, Hh1. by apply drop_write_fresh.
        -- right. split_and!; [lia | done | | bookkeeping].
           destruct Hcase as [(Hpol & Hthr & Hheap)|(Hpol & Hthr)]; [left | by right].
           split_and!; [done | | done].
           rewrite Hh3, Hheap, Hh1, write_block_write. by apply drop_write_fresh.
      * done.
Qed.

Lemma PushBack_spec (w : world V) v xs i :
  owns w v xs ->
  wp (PushBack T i) v w
    (fun _ v' w' =>
       owns w' v' (xs ++ [init_value T i]) /\
       (size_ v < capacity_ (data_ v) -> data_ v' = data_ v /\ delta w w' 0 0 1) /\
       (capacity_ (data_ v) <= size_ v ->
          capacity_ (data_ v') = grown (size_ v) /\
          delta w w' 1 (block_count (blk (buffer_ (data_ v)))) 1))
    (fun v' w' => v' = v /\ append_failed v i w w').
Proof.
  intros Hown. rewrite PushBack_unfold. apply wp_get.
  eapply wp_bind; [by apply append_core_spec | | done].
  intros [] v1 w1 (Hs1 & Hst1 & Hfit & Hfull).
  unfold incr_size. apply wp_get, wp_put.
  pose proof (owns_size _ _ _ Hown) as Hs.
  split_and!; [|done|done].
  split; simpl; [solve_off|]. by rewrite length_app, Nat.add_1_r.
Qed.

Lemma EmplaceBack_spec (w : world V) v xs i :
  owns w v xs ->
  wp (EmplaceBack T i) v w
    (fun r v' w' =>
       owns w' v' (xs ++ [init_value T i]) /\
       r = ptr_add (begin v') (Z.of_nat (length xs)) /\
       (size_ v < capacity_ (data_ v) -> data_ v' = data_ v /\ delta w w' 0 0 1) /\
       (capacity_ (data_ v) <= size_ v ->
          capacity_ (data_ v') = grown (size_ v) /\
          delta w w' 1 (block_count (blk (buffer_ (data_ v)))) 1))
    (fun v' w' => v' = v /\ append_failed v i w w').
Proof.
  intros Hown. rewrite EmplaceBack_unfold. apply wp_get.
  eapply wp_bind; [by apply append_core_spec | | done].
  intros [] v1 w1 (Hs1 & Hst1 & Hfit & Hfull).
  pose proof (owns_size _ _ _ Hown) as Hs.
  assert (owns w1 (set_size (S (size_ v1)) v1) (xs ++ [init_value T i])) as Hown1.
  { split; simpl; [solve_off|]. by rewrite length_app, Nat.add_1_r. }
  pose proof (owns_le_capacity _ _ _ Hown1) as Hle. simpl in Hle.
  unfold incr_size.
  eapply wp_bind with (Q1 := fun _ v' w' => v' = set_size (S (size_ v1)) v1 /\ w' = w1)
                      (E1 := fun _ _ => False); [by apply wp_get, wp_put | | done].
  intros [] v2 w2 [-> ->]. apply wp_get. simpl.
  apply wp_plus; [solve_off|]. apply wp_ret.
  split_and!; [done | | done | done].
  unfold begin, GetAddress, ptr_add. simpl. f_equal. lia.
Qed.

(** *** Inserting in the middle

    The two branches of [Emplace] for a position before the end. *)
Definition emplace_in_place (this : Vector) (pos_ : nat) (args : init V) : M V Vector unit :=
  value <- construct_local T args ;;
  with_local value
    (last <- RawMemory_plus (data_ this) (size_ this) ;;
     uninitialized_move T (ptr_add last (-1)) last last ;;
     first <- RawMemory_plus (data_ this) pos_ ;;
     move_backward T first (ptr_add last (-1)) last ;;
     assign_value T MoveAssign first value ;;
     put (this, moved_from T value))
    destroy_local.

Definition emplace_realloc (this : Vector) (pos_ : nat) (args : init V) : M V Vector unit :=
  new_data <- RawMemory_ctor (if size_ this =? 0 then 1 else 2 * size_ this) ;;
  with_local new_data
    (p <- RawMemory_plus new_data pos_ ;;
     construct_at T p args ;;
     (if nothrow_move_constructible T || negb (copy_constructible T)
      then
        uninitialized_move_n T (GetAddress (data_ this)) pos_
                               (GetAddress new_data) ;;
        on_throw
          (uninitialized_move_n T
             (ptr_add (GetAddress (data_ this)) (Z.of_nat pos_))
             (size_ this - pos_)
             (ptr_add (ptr_add (GetAddress new_data) (Z.of_nat pos_)) 1))
          (destroy_n (GetAddress new_data) pos_)
      else
        uninitialized_copy_n T (GetAddress (data_ this)) pos_
                               (GetAddress new_data) ;;
        on_throw
          (uninitialized_copy_n T
             (ptr_add (GetAddress (data_ this)) (Z.of_nat pos_))
             (size_ this - pos_)
             (ptr_add (ptr_add (GetAddress new_data) (Z.of_nat pos_)) 1))
          (destroy_n (GetAddress new_data) pos_)) ;;
     destroy_n (GetAddress (data_ this)) (size_ this) ;;
     let '(d, nd) := RawMemory_Swap (data_ this) new_data in
     put (set_data d this, nd))
    RawMemory_dtor.

Lemma Emplace_unfold pos args :
  Emplace T pos args =
  (this <- get ;;
   pos_ <- distance (begin this) pos ;;
   e <- vend this ;;
   if bool_decide (pos = e) then
     EmplaceBack T args ;;
     this <- get ;;
     RawMemory_plus (data_ this) pos_
   else
     (if size_ this <? Capacity (data_ this)
      then emplace_in_place this pos_ args
      else emplace_realloc this pos_ args) ;;
     incr_size ;;
     this <- get ;;
     RawMemory_plus (data_ this) pos_).
Proof. reflexivity. Qed.

(** What a failed insertion in place leaves behind. *)
Definition in_place_failed (i : init V) (w w' : world V) : Prop :=
  (throws T (clock w) (init_op i) (init_value T i) = true /\
   heap w' = heap w /\ delta w w' 0 0 0) \/
  (thrown T MoveCtor /\ heap w' = heap w /\ delta w w' 0 0 0) \/
  (thrown T MoveAssign /\ delta w w' 0 0 1).

Lemma emplace_in_place_spec (w : world V) v xs1 ys z i :
  owns w v (xs1 ++ ys ++ [z]) ->
  size_ v < capacity_ (data_ v) ->
  wp (emplace_in_place v (length xs1) i) v w
    (fun _ v' w' =>
       v' = v /\ delta w w' 0 0 1 /\
       heap w' = write_block (blk (buffer_ (data_ v)))
                   ((Some <$> (xs1 ++ init_value T i :: ys ++ [z])) ++
                    replicate (capacity_ (data_ v) - S (size_ v)) None) (heap w))
    (fun v' w' => v' = v /\ in_place_failed i w w').
Proof.
  intros Hown Hlt. unfold emplace_in_place, in_place_failed.
  destruct Hown as (Hs & Ho & Hl & Hb).
  rewrite !length_app in Hs. cbn [length] in Hs.
  set (a := init_value T i).
  set (rest := replicate (capacity_ (data_ v) - S (size_ v)) None).
  assert (block_is w (blk (buffer_ (data_ v)))
            (((Some <$> xs1) ++ (Some <$> ys)) ++ Some z :: None :: rest)) as Hb0.
  { rewrite !fmap_app, <- !app_assoc in Hb. rewrite <- app_assoc.
    rewrite (replicate_split_cons None _ 0) in Hb by solve_off.
    cbn [fmap list_fmap app replicate] in Hb.
    unfold rest. rewrite Hs.
    replace (capacity_ (data_ v) - S (length xs1 + (length ys + 1)))
      with (capacity_ (data_ v) - length (xs1 ++ ys ++ [z]) - 1) by solve_off.
    exact Hb. }
  clear Hb Hl.
  eapply wp_bind; [apply construct_local_spec | |].
  2: { intros x1 w1 (-> & Hh1 & Hf1 & _ & Hthr). split; [done|].
       left. split_and!; [done | done | bookkeeping]. }
  intros value x1 w1 (-> & -> & Hh1 & Hf1 & _). fold a.
  set (last := ptr_add (buffer_ (data_ v)) (Z.of_nat (size_ v))).
  set (p' := ptr_add last (-1)).
  assert (last = ptr_add p' 1) as Hlast
    by (unfold p', last, ptr_add; cbn [blk off]; f_equal; lia).
  assert (off p' = Z.of_nat (length ((Some <$> xs1) ++ (Some <$> ys)))) as Hop'
    by (unfold p', last; solve_off).
  eapply wp_with_local with
    (Q1 := fun _ s w' =>
       s = (v, moved_from T a) /\ frame w1 w' 1 /\
       heap w' = write_block (blk (buffer_ (data_ v)))
                   ((Some <$> xs1) ++ Some a :: (Some <$> ys) ++ Some z :: rest) (heap w1))
    (E1 := fun s w' =>
       fst s = v /\
       ((thrown T MoveCtor /\ heap w' = heap w1 /\ frame w1 w' 0) \/
        (thrown T MoveAssign /\ frame w1 w' 1))).
  - apply wp_plus; [lia|]. fold last. fold p'.
    eapply wp_bind.
    { rewrite Hlast.
      apply uninitialized_move_last_spec with (v := z)
        (l1 := (Some <$> xs1) ++ (Some <$> ys)) (l2 := rest); [|exact Hop'].
      by eapply block_is_same_heap. }
    2: { intros x2 w2 (-> & Hh2 & Hf2 & Hthr). split; [done|]. left. done. }
    intros [] x2 w2 (-> & Hh2 & Hf2). cbn [blk ptr_add] in Hh2.
    apply wp_plus; [lia|].
    set (first := ptr_add (buffer_ (data_ v)) (Z.of_nat (length xs1))).
    assert (block_is w2 (blk p')
              ((Some <$> xs1) ++ (Some <$> ys) ++ Some (moved_from T z) :: Some z :: rest))
      as Hb2.
    { unfold block_is. rewrite Hh2, Hh1. cbn [blk ptr_add p' last].
      rewrite (app_assoc (Some <$> xs1)).
      eapply block_in_write; [exact Hb0 | solve_off]. }
    eapply wp_bind.
    { unfold move_backward.
      apply wp_distance with (n := length ys);
        [done | unfold first, p', last; solve_off |].
      rewrite Hlast.
      apply move_backward_n_spec with (u := moved_from T z) (l1 := Some <$> xs1)
        (l2 := Some z :: rest); [exact Hb2 | unfold p', last; solve_off]. }
    2: { intros x3 w3 (-> & Hf3 & Hthr). split; [done|]. right.
         split; [done|]. eapply frame_trans; [exact Hf2 | exact Hf3 | lia]. }
    intros [] x3 w3 (-> & Hf3 & j & Hh3). cbn [blk ptr_add p' last] in Hh3.
    eapply wp_bind.
    { apply assign_value_spec with (u := j) (v := a) (l1 := Some <$> xs1)
        (l2 := (Some <$> ys) ++ Some z :: rest); [|unfold first; solve_off].
      unfold block_is. rewrite Hh3. cbn [blk ptr_add first].
      eapply block_in_write; [exact Hb2 | solve_off]. }
    2: { intros x4 w4 (-> & Hh4 & Hf4 & Hthr). split; [done|]. right.
         split; [done|].
         eapply frame_trans; [|exact Hf4|];
           [eapply frame_trans; [exact Hf2 | exact Hf3 | reflexivity] | lia]. }
    intros [] x4 w4 (-> & Hh4 & Hf4). cbn [blk ptr_add first] in Hh4.
    apply wp_put. split_and!; [done | |].
    + eapply frame_trans; [|exact Hf4|];
        [eapply frame_trans; [exact Hf2 | exact Hf3 | reflexivity] | lia].
    + by rewrite Hh4, Hh3, Hh2, !write_block_write.
  - intros [] x2 l w2 ([= -> ->] & Hf2 & Hh2).
    eapply wp_mono; [apply destroy_local_spec with (E := fun _ _ => False) | | done].
    intros _ x3 w3 (-> & Hh3 & Hf3).
    split_and!; [done | bookkeeping |].
    rewrite Hh3, Hh2, Hh1. f_equal. by norm_lists.
  - intros x2 l w2 (Hx & Hcase). simpl in Hx. subst x2.
    eapply wp_mono; [apply destroy_local_spec with (E := fun _ _ => False) | | done].
    intros _ x3 w3 (-> & Hh3 & Hf3). split; [done|]. right.
    destruct Hcase as [(Hthr & Hheap & Hf2)|(Hthr & Hf2)]; [left | right].
    + split_and!; [done | by rewrite Hh3, Hheap | bookkeeping].
    + split; [done | bookkeeping].
Qed.

Lemma relocate_around_eq {X} (b : bool) (m1 m2 k1 k2 h : M V X unit) :
  (if b then m1 ;; on_throw k1 h else m2 ;; on_throw k2 h) =
  ((if b then m1 else m2) ;; on_throw (if b then k1 else k2) h).
Proof. by destruct b. Qed.

(** Relocation of the prefix and of the suffix around the new element,
    with the handler that destroys the relocated prefix when the suffix
    fails. *)
Lemma relocate_around_spec {X} (x : X) (w : world V) po pn xs1 xs2 a spare :
  block_is w (blk po) ((Some <$> xs1) ++ (Some <$> xs2)) ->
  off po = 0%Z ->
  block_is w (blk pn)
    (replicate (length xs1) None ++ Some a :: replicate (length xs2) None ++ spare) ->
  off pn = 0%Z ->
  blk po <> blk pn ->
  wp ((if nothrow_move_constructible T || negb (copy_constructible T)
       then uninitialized_move_n T po (length xs1) pn
       else uninitialized_copy_n T po (length xs1) pn) ;;
      on_throw
        (if nothrow_move_constructible T || negb (copy_constructible T)
         then uninitialized_move_n T (ptr_add po (Z.of_nat (length xs1))) (length xs2)
                (ptr_add (ptr_add pn (Z.of_nat (length xs1))) 1)
         else uninitialized_copy_n T (ptr_add po (Z.of_nat (length xs1))) (length xs2)
                (ptr_add (ptr_add pn (Z.of_nat (length xs1))) 1))
        (destroy_n pn (length xs1))) x w
    (fun _ x' w' =>
       x' = x /\ frame w w' (Z.of_nat (length xs1 + length xs2)) /\
       exists ms, length ms = length xs1 + length xs2 /\
         heap w' = write_block (blk po) (Some <$> ms)
                     (write_block (blk pn)
                        ((Some <$> xs1) ++ Some a :: (Some <$> xs2) ++ spare) (heap w)))
    (fun x' w' =>
       x' = x /\ frame w w' 0 /\ relocation_failed T w w' /\
       exists l', length l' = length xs1 + length xs2 /\
                  heap w' = write_block (blk po) l' (heap w)).
Proof.
  intros Hb Ho Hnd Hoff Hne.
  set (p := length xs1) in *.
  eapply wp_bind.
  { apply relocate_spec with (s1 := []) (s2 := Some <$> xs2) (d1 := [])
      (d2 := Some a :: replicate (length xs2) None ++ spare); done. }
  2: { intros x3 w3 (-> & Hf3 & Hfail & l' & Hl' & Hh3).
       split_and!; [done | done | done |]. exists l'. split; [solve_off | done]. }
  intros [] x3 w3 (-> & Hf3 & ms1 & Hms1 & Hcopy & Hh3). cbn [app] in Hh3.
  set (nd3 := (Some <$> xs1) ++ Some a :: replicate (length xs2) None ++ spare) in *.
  assert (block_is w3 (blk po) ((Some <$> ms1) ++ (Some <$> xs2) ++ [])) as Hb3.
  { rewrite app_nil_r. unfold block_is. rewrite Hh3.
    eapply block_in_write;
      [apply block_in_write_ne; [congruence | exact Hb] | solve_off]. }
  assert (block_is w3 (blk pn) nd3) as Hnd3.
  { unfold block_is. rewrite Hh3. apply block_in_write_ne; [congruence|].
    eapply block_in_write; [exact Hnd | unfold nd3; solve_off]. }
  eapply wp_on_throw.
  - apply relocate_spec with (s1 := Some <$> ms1) (s2 := [])
      (d1 := (Some <$> xs1) ++ [Some a]) (d2 := spare);
      [exact Hb3 | solve_off | | solve_off | done].
    unfold nd3 in Hnd3. by rewrite <- app_assoc.
  - intros [] x4 w4 (-> & Hf4 & ms2 & Hms2 & _ & Hh4).
    cbn [blk ptr_add] in Hh4. rewrite app_nil_r in Hh4.
    split_and!; [done | |].
    + eapply frame_trans; [exact Hf3 | exact Hf4 | fold p; lia].
    + exists (ms1 ++ ms2). split; [solve_off|].
      rewrite Hh4, Hh3. norm_writes.
      rewrite fmap_app. f_equal. f_equal. by rewrite <- app_assoc.
  - intros x4 w4 (-> & Hf4 & Hfail & l' & Hl' & Hh4).
    cbn [blk ptr_add] in Hh4.
    eapply wp_mono.
    { apply destroy_n_spec with (E := fun _ _ => False) (vs := xs1) (l1 := [])
        (l2 := Some a :: replicate (length xs2) None ++ spare); [|by rewrite Hoff].
      unfold block_is. rewrite Hh4.
      apply block_in_write_ne; [congruence | exact Hnd3]. }
    + intros _ x5 w5 (-> & Hh5 & Hf5). cbn [blk ptr_add app] in Hh5.
      instantiate (1 := fun x' w' =>
        x' = x /\ frame w w' 0 /\ relocation_failed T w w' /\
        exists l', length l' = p + length xs2 /\
                   heap w' = write_block (blk po) l' (heap w)).
      assert (heap w5 = write_block (blk po) l' (heap w)) as Hh.
      { rewrite Hh5, Hh4, Hh3. fold p.
        rewrite (write_block_comm (blk pn) (blk po)) by congruence.
        norm_writes. f_equal.
        by apply write_block_same. }
      split_and!; [done | | |].
      * unfold p in *. bookkeeping.
      * destruct Hfail as [(Hpol & Hheap & Hthr)|(Hpol & Hthr)]; [left | by right].
        split_and!; [done | | done].
        rewrite Hh. apply write_block_same.
        assert (block_in (heap w3) (blk po) l') as Hin.
        { rewrite <- Hheap, Hh4. eapply block_in_write; [exact Hb3 | solve_off]. }
        rewrite (Hcopy Hpol), app_nil_r in Hb3.
        by rewrite (block_is_inj _ _ _ _ Hin Hb3).
      * exists l'. split; [solve_off | done].
    + done.
  - done.
Qed.


Lemma emplace_realloc_spec (w : world V) v xs1 xs2 i :
  owns w v (xs1 ++ xs2) ->
  capacity_ (data_ v) <= size_ v ->
  wp (emplace_realloc v (length xs1) i) v w
    (fun _ v' w' =>
       size_ v' = size_ v /\ capacity_ (data_ v') = grown (size_ v) /\
       storage w' (data_ v')
         ((Some <$> (xs1 ++ init_value T i :: xs2)) ++
          replicate (grown (size_ v) - S (size_ v)) None) /\
       delta w w' 1 (block_count (blk (buffer_ (data_ v)))) 1)
    (fun v' w' => v' = v /\ append_failed v i w w').
Proof.
  intros Hown Hge. unfold emplace_realloc, Capacity, GetAddress, append_failed.
  pose proof (owns_le_capacity _ _ _ Hown) as Hlen.
  destruct Hown as (Hs & Hst). pose proof Hst as (Ho & Hl & Hb).
  rewrite length_app in Hs, Hlen.
  set (a := init_value T i).
  fold (grown (size_ v)).
  assert (size_ v < grown (size_ v)) as Hgrow
    by (unfold grown; destruct (Nat.eqb_spec (size_ v) 0); lia).
  set (n := grown (size_ v)) in *.
  eapply wp_bind; [apply RawMemory_ctor_spec with (E := fun _ _ => False) | | done].
  intros nd x1 w1 (-> & Hcap & Hoff & Hfresh & Hh1 & Hd1 & Hclock & Hnull).
  assert (blk (buffer_ (data_ v)) <> blk (buffer_ nd)) as Hne
    by (eapply fresh_block_ne; [exact Hst | done | done | lia]).
  destruct (n =? 0) eqn:Hn0; [apply Nat.eqb_eq in Hn0; lia|].
  replace (capacity_ (data_ v) - length (xs1 ++ xs2)) with 0 in *
    by (rewrite length_app; lia).
  cbn [replicate] in Hb, Hst, Hl. rewrite app_nil_r in Hb, Hst, Hl.
  rewrite fmap_app in Hb.
  assert (block_is w1 (blk (buffer_ (data_ v))) ((Some <$> xs1) ++ (Some <$> xs2))) as Hb1.
  { unfold block_is. rewrite Hh1. apply block_in_write_ne; [congruence | exact Hb]. }
  set (spare := replicate (n - S (length xs1) - length xs2) (@None V)).
  assert (length spare = n - S (length xs1) - length xs2) as Hspare
    by (unfold spare; by rewrite length_replicate).
  assert (replicate n None =
          replicate (length xs1) None ++ None :: replicate (length xs2) None ++ spare)
    as Hraw.
  { unfold spare. rewrite (replicate_split_cons None n (length xs1)) by lia.
    by rewrite (replicate_split None (n - S (length xs1)) (length xs2)) by lia. }
  assert (block_is w1 (blk (buffer_ nd))
            (replicate (length xs1) None ++ None :: replicate (length xs2) None ++ spare))
    as Hnd1.
  { unfold block_is. rewrite Hh1, <- Hraw.
    destruct (blk (buffer_ nd)) as [b|] eqn:Hbn; [apply lookup_insert_eq|].
    destruct Hnull as [Hnull _]. specialize (Hnull eq_refl). lia. }
  assert (block_count (blk (buffer_ nd)) = 1) as Hbc.
  { destruct (blk (buffer_ nd)); [done|].
    destruct Hnull as [Hnull _]. specialize (Hnull eq_refl). lia. }
  set (grownl := (Some <$> xs1) ++ Some a :: (Some <$> xs2) ++ spare).
  eapply wp_with_local with
    (Q1 := fun _ s w' =>
       s = (set_data nd v, data_ v) /\ frame w1 w' 1 /\
       heap w' = write_block (blk (buffer_ (data_ v))) (replicate (size_ v) None)
                   (write_block (blk (buffer_ nd)) grownl (heap w1)))
    (E1 := fun s w' =>
       s = (v, nd) /\
       exists lnd, length lnd = n /\ block_is w' (blk (buffer_ nd)) lnd /\
         ((throws T (clock w) (init_op i) a = true /\ frame w1 w' 0 /\
           heap w' = heap w1) \/
          (throws T (clock w) (init_op i) a = false /\ frame w1 w' 1 /\
           ((relocates_by_move T = false /\ thrown T CopyCtor /\
             heap w' = write_block (blk (buffer_ nd)) lnd (heap w1)) \/
            (relocates_by_move T = true /\ thrown T MoveCtor))))).
  - apply wp_plus; [lia|].
    eapply wp_bind.
    { apply construct_at_spec with (l1 := replicate (length xs1) None)
        (l2 := replicate (length xs2) None ++ spare); [exact Hnd1 | solve_off]. }
    2: { intros x2 w2 (-> & Hh2 & Hf2 & _ & Hthr).
         split; [done|]. eexists. split_and!; [|by eapply block_is_same_heap|].
         - solve_off.
         - left. rewrite Hclock in Hthr. done. }
    intros [] x2 w2 (-> & Hh2 & Hf2 & Hok). cbn [blk ptr_add] in Hh2. fold a in Hh2.
    rewrite Hclock in Hok. fold a in Hok.
    set (nd2 := replicate (length xs1) None ++
                Some a :: replicate (length xs2) None ++ spare) in *.
    assert (length nd2 = n) as Hnd2len by (unfold nd2; solve_off).
    assert (block_is w2 (blk (buffer_ (data_ v)))
              ((Some <$> xs1) ++ (Some <$> xs2))) as Hb2.
    { unfold block_is. rewrite Hh2.
      apply block_in_write_ne; [congruence | exact Hb1]. }
    assert (block_is w2 (blk (buffer_ nd)) nd2) as Hnd2.
    { unfold block_is. rewrite Hh2.
      eapply block_in_write; [exact Hnd1 | solve_off]. }
    rewrite relocate_around_eq.
    replace (size_ v - length xs1) with (length xs2) by lia.
    eapply wp_bind.
    { apply relocate_around_spec with (a := a) (spare := spare); done. }
    2: { intros x3 w3 (-> & Hf3 & Hfail & l' & Hl' & Hh3).
         split; [done|]. exists nd2.
         split_and!; [done | |].
         - unfold block_is. rewrite Hh3.
           apply block_in_write_ne; [congruence | exact Hnd2].
         - right. split; [done|].
           split; [eapply frame_trans; [exact Hf2 | exact Hf3 | lia]|].
           destruct Hfail as [(Hpol & Hheap & Hthr)|(Hpol & Hthr)]; [left | by right].
           split_and!; [done | done |]. by rewrite Hheap, Hh2. }
    intros [] x3 w3 (-> & Hf3 & ms & Hms & Hh3).
    eapply wp_bind.
    { replace (size_ v) with (length ms) by lia.
      apply destroy_n_spec with (E := fun _ _ => False) (l1 := []) (l2 := []);
        [|by rewrite Ho].
      cbn [app]. rewrite app_nil_r. unfold block_is. rewrite Hh3.
      eapply block_in_write;
        [apply block_in_write_ne; [congruence | exact Hb2] | solve_off]. }
    2: done.
    intros [] x4 w4 (-> & Hh4 & Hf4).
    rewrite RawMemory_Swap_eq. apply wp_put.
    cbn [app blk ptr_add] in Hh4. rewrite app_nil_r in Hh4.
    split_and!; [done | bookkeeping |].
    rewrite Hh4, Hh3, Hh2. norm_writes.
    f_equal. f_equal. lia.
  - intros [] x2 l w2 ([= -> ->] & Hf2 & Hh2).
    eapply wp_mono.
    { apply RawMemory_dtor_spec with (l := replicate (size_ v) None)
        (E := fun _ _ => False).
      split_and!; [done | solve_off |].
      unfold block_is. rewrite Hh2.
      eapply block_in_write;
        [apply block_in_write_ne; [congruence | exact Hb1] | solve_off]. }
    + intros _ x3 w3 (-> & Hh3 & Hd3).
      split_and!; [done | done | | bookkeeping].
      simpl. split_and!; [done | solve_off |].
      unfold block_is. rewrite Hh3. apply block_in_drop_ne; [done|].
      rewrite Hh2. apply block_in_write_ne; [done|].
      replace (n - S (size_ v)) with (n - S (length xs1) - length xs2) by lia.
      fold spare. norm_lists.
      eapply block_in_write; [exact Hnd1 | solve_off].
    + done.
  - intros x2 l w2 ([= -> ->] & lnd & Hlnd & Hbnd & Hcase).
    eapply wp_mono.
    { apply RawMemory_dtor_spec with (l := lnd) (E := fun _ _ => False).
      split_and!; [done | lia | done]. }
    + intros _ x3 w3 (-> & Hh3 & Hd3). rewrite Hbc in Hd3.
      split; [done|].
      destruct Hcase as [(Hthr & Hf2 & Hheap)|(Hok & Hf2 & Hcase)].
      * left. split_and!; [done | | exists 1; bookkeeping].
        rewrite Hh3, Hheap, Hh1. by apply drop_write_fresh.
      * right. split_and!; [lia | done | | bookkeeping].
        destruct Hcase as [(Hpol & Hthr & Hheap)|(Hpol & Hthr)]; [left | by right].
        split_and!; [done | | done].
        rewrite Hh3, Hheap, Hh1, write_block_write. by apply drop_write_fresh.
    + done.
Qed.

Lemma nonempty_snoc {A} (l : list A) :
  l <> [] -> exists ys z, l = ys ++ [z].
Proof.
  destruct l as [|x l] using rev_ind; [done|]. intros _. by exists l, x.
Qed.

(** What a failed [Emplace] at index [p] leaves behind. *)
Definition emplace_failed (v : Vector) (p : nat) (i : init V) (w w' : world V) : Prop :=
  append_failed v i w w' \/
  (size_ v < capacity_ (data_ v) /\ p < size_ v /\ in_place_failed i w w').

Lemma Emplace_spec (w : world V) v xs p i :
  owns w v xs -> p <= length xs ->
  wp (Emplace T (ptr_add (begin v) (Z.of_nat p)) i) v w
    (fun r v' w' =>
       owns w' v' (take p xs ++ init_value T i :: drop p xs) /\
       r = ptr_add (begin v') (Z.of_nat p) /\
       (size_ v < capacity_ (data_ v) -> data_ v' = data_ v /\ delta w w' 0 0 1) /\
       (capacity_ (data_ v) <= size_ v ->
          capacity_ (data_ v') = grown (size_ v) /\
          delta w w' 1 (block_count (blk (buffer_ (data_ v)))) 1))
    (fun v' w' => v' = v /\ emplace_failed v p i w w').
Proof.
  intros Hown Hp. rewrite Emplace_unfold. apply wp_get.
  pose proof (owns_le_capacity _ _ _ Hown) as Hlen.
  pose proof (owns_size _ _ _ Hown) as Hs.
  set (a := init_value T i).
  apply wp_distance with (n := p); [done | simpl; lia |].
  unfold vend. apply wp_plus; [lia|].
  destruct (decide (p = length xs)) as [->|Hne].
  - (* at the end *)
    rewrite bool_decide_eq_true_2 by (unfold begin, GetAddress; by rewrite Hs).
    eapply wp_bind; [by apply EmplaceBack_spec | |].
    + intros r v1 w1 (Hown1 & -> & Hfit & Hfull). apply wp_get.
      pose proof (owns_le_capacity _ _ _ Hown1) as Hlen1.
      apply wp_plus_last; [solve_off|].
      rewrite take_ge, drop_ge by lia. done.
    + intros v' w' [-> Hf]. split; [done|]. by left.
  - (* before the end *)
    assert (p < length xs) as Hlt by lia.
    rewrite bool_decide_eq_false_2
      by (unfold begin, GetAddress, ptr_add; intros [= Heq]; lia).
    unfold Capacity.
    eapply wp_bind with
      (Q1 := fun _ v1 w1 =>
         size_ v1 = size_ v /\
         storage w1 (data_ v1)
           ((Some <$> (take p xs ++ a :: drop p xs)) ++
            replicate (capacity_ (data_ v1) - S (length xs)) None) /\
         (size_ v < capacity_ (data_ v) -> data_ v1 = data_ v /\ delta w w1 0 0 1) /\
         (capacity_ (data_ v) <= size_ v ->
            capacity_ (data_ v1) = grown (size_ v) /\
            delta w w1 1 (block_count (blk (buffer_ (data_ v)))) 1))
      (E1 := fun v' w' => v' = v /\ emplace_failed v p i w w').
    + assert (length (take p xs) = p) as Htake by (rewrite length_take; lia).
      destruct (Nat.ltb_spec (size_ v) (capacity_ (data_ v))) as [Hfit|Hfull].
      * destruct (nonempty_snoc (drop p xs)) as (ys & z & Hdrop).
        { intros Hnil. apply (f_equal length) in Hnil.
          rewrite length_drop in Hnil. simpl in Hnil. lia. }
        assert (xs = take p xs ++ ys ++ [z]) as Hxs
          by (by rewrite <- Hdrop, take_drop).
        assert (length xs - p = length ys + 1) as Hys
          by (by rewrite <- length_drop, Hdrop, length_app).
        rewrite <- Htake at 1.
        eapply wp_mono.
        { apply emplace_in_place_spec with (ys := ys) (z := z); [|done].
          by rewrite <- Hxs. }
        -- intros _ v1 w1 (-> & Hd & Hh).
           split_and!; [done | | done | lia].
           destruct Hown as (_ & Ho & Hl & Hb).
           split_and!; [done | rewrite Hdrop; solve_off |].
           unfold block_is. rewrite Hh, Hdrop, <- Hs.
           eapply block_in_write; [exact Hb | solve_off].
        -- intros v1 w1 (-> & Hfail). split; [done|]. right. split_and!; [done|lia|done].
      * rewrite <- Htake at 1.
        eapply wp_mono.
        { apply emplace_realloc_spec with (xs2 := drop p xs); [|done].
          by rewrite take_drop. }
        -- intros _ v1 w1 (Hs1 & Hcap1 & Hst1 & Hd).
           split_and!; [done | | lia | done].
           by rewrite Hcap1, <- Hs.
        -- intros v1 w1 (-> & Hfail). split; [done|]. by left.
    + intros [] v1 w1 (Hs1 & Hst1 & Hfit & Hfull).
      assert (owns w1 (set_size (S (size_ v1)) v1) (take p xs ++ a :: drop p xs))
        as Hown1.
      { assert (length (take p xs ++ a :: drop p xs) = S (length xs)) as Hlen'
          by (rewrite length_app, length_take, length_cons, length_drop; lia).
        split; simpl; [lia | by rewrite Hlen']. }
      pose proof (owns_le_capacity _ _ _ Hown1) as Hle. simpl in Hle.
      unfold incr_size.
      eapply wp_bind with
        (Q1 := fun _ v' w' => v' = set_size (S (size_ v1)) v1 /\ w' = w1)
        (E1 := fun _ _ => False); [by apply wp_get, wp_put | | done].
      intros [] v2 w2 [-> ->]. apply wp_get. simpl.
      by apply wp_plus_last; [solve_off|].
    + done.
Qed.

(** *** Removing *)

Lemma Erase_spec (w : world V) v xs p :
  owns w v xs -> p < length xs ->
  wp (Erase T (ptr_add (begin v) (Z.of_nat p))) v w
    (fun r v' w' =>
       owns w' v' (take p xs ++ drop (S p) xs) /\
       r = ptr_add (begin v') (Z.of_nat p) /\
       data_ v' = data_ v /\ delta w w' 0 0 (-1))
    (fun v' w' => v' = v /\ delta w w' 0 0 0 /\ thrown T MoveAssign).
Proof.
  intros Hown Hp. unfold Erase. apply wp_get.
  pose proof (owns_le_capacity _ _ _ Hown) as Hlen.
  destruct Hown as (Hs & Ho & Hl & Hb).
  destruct (lookup_lt_is_Some_2 xs p Hp) as [u Hu].
  pose proof (take_drop_middle xs p u Hu) as Hxs.
  set (xs1 := take p xs) in *. set (vs := drop (S p) xs) in *.
  assert (length xs1 = p) as Hxs1 by (unfold xs1; rewrite length_take; lia).
  assert (length xs = p + S (length vs)) as Hxsl
    by (rewrite <- Hxs, length_app, length_cons; lia).
  set (rest := replicate (capacity_ (data_ v) - length xs) (@None V)) in *.
  assert (block_is w (blk (buffer_ (data_ v)))
            ((Some <$> xs1) ++ Some u :: (Some <$> vs) ++ rest)) as Hb0.
  { rewrite <- Hxs in Hb at 1. revert Hb. by norm_lists. }
  apply wp_distance with (n := p); [done | simpl; lia |].
  apply wp_plus; [lia|]. apply wp_plus; [lia|].
  set (first := ptr_add (buffer_ (data_ v)) (Z.of_nat p)).
  set (last := ptr_add (buffer_ (data_ v)) (Z.of_nat (size_ v))).
  eapply wp_bind.
  { unfold std_move.
    apply wp_distance with (n := length vs);
      [done | unfold first, last; solve_off |].
    apply move_n_left_spec with (u := u) (l1 := Some <$> xs1) (l2 := rest);
      [exact Hb0 | unfold first; solve_off]. }
  2: { intros v1 w1 (-> & Hf1 & Hthr). split_and!; [done | bookkeeping | done]. }
  intros [] v1 w1 (-> & Hf1 & j & Hh1). cbn [blk ptr_add first] in Hh1.
  eapply wp_bind.
  { apply destroy_at_spec with (E := fun _ _ => False) (v := j)
      (l1 := (Some <$> xs1) ++ (Some <$> vs)) (l2 := rest);
      [|unfold last; solve_off].
    unfold block_is. rewrite Hh1. cbn [blk ptr_add last]. rewrite <- app_assoc.
    eapply block_in_write; [exact Hb0 | solve_off]. }
  2: done.
  intros [] v2 w2 (-> & Hh2 & Hf2). cbn [blk ptr_add last] in Hh2.
  unfold decr_size.
  eapply wp_bind with
    (Q1 := fun _ v' w' => v' = set_size (size_ v - 1) v /\ w' = w2)
    (E1 := fun _ _ => False).
  { apply wp_get. destruct (Nat.eqb_spec (size_ v) 0); [lia|]. by apply wp_put. }
  2: done.
  intros [] v3 w3 [-> ->]. apply wp_get. cbn [set_size data_].
  apply wp_plus_last; [lia|].
  assert (length (xs1 ++ vs) = length xs - 1) as Hlen' by solve_off.
  split_and!; [| done | done | bookkeeping].
  split; [simpl; lia|]. cbn [set_size data_]. rewrite Hlen'.
  split_and!; [done | unfold rest; solve_off |].
  unfold block_is. rewrite Hh2, Hh1. norm_writes.
  replace (capacity_ (data_ v) - (length xs - 1))
    with (S (capacity_ (data_ v) - length xs)) by lia.
  cbn [replicate]. fold rest. norm_lists.
  eapply block_in_write; [exact Hb0 | solve_off].
Qed.

Lemma PopBack_spec (w : world V) v xs z E :
  owns w v (xs ++ [z]) ->
  wp PopBack v w
    (fun _ v' w' => owns w' v' xs /\ data_ v' = data_ v /\ delta w w' 0 0 (-1)) E.
Proof.
  intros Hown. unfold PopBack, decr_size.
  pose proof (owns_le_capacity _ _ _ Hown) as Hlen.
  destruct Hown as (Hs & Ho & Hl & Hb).
  rewrite length_app in Hs, Hlen, Hb. cbn [length] in Hs, Hlen, Hb.
  eapply wp_bind with
    (Q1 := fun _ v' w' => v' = set_size (size_ v - 1) v /\ w' = w)
    (E1 := fun _ _ => False).
  { apply wp_get. destruct (Nat.eqb_spec (size_ v) 0); [lia|]. by apply wp_put. }
  2: done.
  intros [] v1 w1 [-> ->]. apply wp_get. cbn [set_size data_ size_].
  apply wp_plus; [lia|].
  set (rest := replicate (capacity_ (data_ v) - (length xs + 1)) (@None V)) in *.
  eapply wp_mono.
  { apply destroy_at_spec with (E := fun _ _ => False) (v := z)
      (l1 := Some <$> xs) (l2 := rest); [|solve_off].
    revert Hb. by norm_lists. }
  2: done.
  intros _ v2 w2 (-> & Hh2 & Hf2). cbn [blk ptr_add] in Hh2.
  split_and!; [| done | bookkeeping].
  split; [simpl; lia|]. cbn [set_size data_].
  split_and!; [done | solve_off |].
  unfold block_is. rewrite Hh2.
  replace (capacity_ (data_ v) - length xs)
    with (S (capacity_ (data_ v) - (length xs + 1))) by lia.
  cbn [replicate]. fold rest.
  eapply block_in_write; [exact Hb | unfold rest; solve_off].
Qed.

Lemma Resize_shrink_spec (w : world V) v xs n E :
  owns w v xs -> n <= length xs ->
  wp (Resize T n) v w
    (fun _ v' w' =>
       owns w' v' (take n xs) /\ data_ v' = data_ v /\
       delta w w' 0 0 (- Z.of_nat (length xs - n))) E.
Proof.
  intros Hown Hn. unfold Resize. apply wp_get.
  pose proof (owns_le_capacity _ _ _ Hown) as Hlen.
  pose proof (owns_size _ _ _ Hown) as Hs.
  destruct (Nat.ltb_spec n (size_ v)) as [Hlt|Hge].
  - destruct Hown as (_ & Ho & Hl & Hb).
    set (rest := replicate (capacity_ (data_ v) - length xs) (@None V)) in *.
    eapply wp_bind with
      (Q1 := fun _ v' w' =>
         v' = v /\ frame w w' (- Z.of_nat (length xs - n)) /\
         heap w' = write_block (blk (buffer_ (data_ v)))
                     ((Some <$> take n xs) ++ replicate (length xs - n) None ++ rest)
                     (heap w))
      (E1 := fun _ _ => False).
    { apply wp_plus; [lia|]. eapply wp_mono.
      { replace (size_ v - n) with (length (drop n xs)) by (rewrite length_drop; lia).
        apply destroy_n_spec with (E := fun _ _ => False) (l1 := Some <$> take n xs)
          (l2 := rest); [|solve_off].
        rewrite <- (take_drop n xs) in Hb at 1. revert Hb. by norm_lists. }
      - intros _ v1 w1 (-> & Hh1 & Hf1). rewrite length_drop in Hh1, Hf1. done.
      - done. }
    2: done.
    intros [] v1 w1 (-> & Hf1 & Hh1). apply wp_get, wp_put.
    split_and!; [| done | bookkeeping].
    split; [simpl; rewrite length_take; lia|]. cbn [set_size data_].
    split_and!; [done | unfold rest; solve_off |].
    unfold block_is. rewrite Hh1, length_take.
    replace (n `min` length xs) with n by lia.
    replace (capacity_ (data_ v) - n)
      with ((length xs - n) + (capacity_ (data_ v) - length xs)) by lia.
    rewrite replicate_add. fold rest.
    eapply block_in_write; [exact Hb | unfold rest; solve_off].
  - assert (n = length xs) as -> by lia.
    eapply wp_bind with (Q1 := fun _ v' w' => v' = v /\ w' = w)
                        (E1 := fun _ _ => False).
    { eapply wp_bind; [by apply Reserve_spec | |].
      - intros [] v1 w1 (_ & Hsame & _). destruct (Hsame Hlen) as [-> ->].
        apply wp_get. apply wp_plus; [lia|].
        rewrite Hs, Nat.sub_diag. cbn [uninitialized_value_construct_n].
        by apply wp_ret.
      - intros v1 w1 (Hlt & _). lia. }
    2: done.
    intros [] v1 w1 [-> ->]. apply wp_get, wp_put.
    rewrite take_ge, Nat.sub_diag by lia.
    split_and!; [| done | split; simpl; lia].
    destruct Hown as (_ & Hst). by split.
Qed.

(** *** Copying *)

Lemma Vector_copy_ctor_spec {X} (x : X) (w : world V) other ys :
  owns w other ys ->
  wp (Vector_copy_ctor T other) x w
    (fun r x' w' =>
       x' = x /\ owns w' r ys /\ capacity_ (data_ r) = length ys /\
       (forall b, blk (buffer_ (data_ r)) = Some b -> heap w !! b = None) /\
       heap w' = write_block (blk (buffer_ (data_ r))) (Some <$> ys) (heap w) /\
       delta w w' (if length ys =? 0 then 0 else 1) 0 (Z.of_nat (length ys)))
    (fun x' w' =>
       x' = x /\ heap w' = heap w /\ (exists k, delta w w' k k 0) /\
       thrown T CopyCtor).
Proof.
  intros Hown. unfold Vector_copy_ctor, GetAddress.
  pose proof (owns_le_capacity _ _ _ Hown) as Hlen.
  destruct Hown as (Hs & Hst). pose proof Hst as (Ho & Hl & Hb).
  eapply wp_bind; [apply RawMemory_ctor_spec with (E := fun _ _ => False) | | done].
  intros nd x1 w1 (-> & Hcap & Hoff & Hfresh & Hh1 & Hd1 & _ & Hnull).
  rewrite Hs in *.
  assert (ys <> [] -> blk (buffer_ (data_ other)) <> blk (buffer_ nd)) as Hne.
  { intros Hys. eapply fresh_block_ne; [exact Hst | done | done |].
    destruct ys; [done | simpl; lia]. }
  assert (block_is w1 (blk (buffer_ nd)) (replicate (length ys) None)) as Hnd1.
  { unfold block_is. rewrite Hh1.
    destruct (blk (buffer_ nd)) as [b|] eqn:Hbn; [apply lookup_insert_eq|].
    destruct Hnull as [Hnull _]. by rewrite (Hnull eq_refl). }
  assert (block_is w1 (blk (buffer_ (data_ other)))
            ((Some <$> ys) ++ replicate (capacity_ (data_ other) - length ys) None))
    as Hb1.
  { unfold block_is. rewrite Hh1.
    destruct (decide (ys = [])) as [->|Hys].
    - destruct Hnull as [_ Hnull]. by rewrite (Hnull eq_refl).
    - apply block_in_write_ne; [by apply not_eq_sym, Hne | exact Hb]. }
  eapply wp_bind.
  { eapply wp_on_throw.
    - apply uninitialized_copy_n_spec with (s1 := [])
        (s2 := replicate (capacity_ (data_ other) - length ys) None)
        (d1 := []) (d2 := []); [exact Hb1 | done | | done |].
      + cbn [app]. by rewrite app_nil_r.
      + intros Heq. destruct (decide (ys = [])) as [|Hys]; [done|].
        by destruct (Hne Hys).
    - intros r x2 w2 H2. exact H2.
    - intros x2 w2 (-> & Hh2 & Hf2 & Hthr).
      eapply wp_mono.
      { apply RawMemory_dtor_spec with (l := replicate (length ys) None)
          (E := fun _ _ => False).
        split_and!; [done | solve_off | by eapply block_is_same_heap]. }
      + intros _ x3 w3 (-> & Hh3 & Hd3).
        instantiate (1 := fun x' w' =>
          x' = x /\ heap w' = heap w /\ (exists k, delta w w' k k 0) /\
          thrown T CopyCtor).
        split_and!; [done | | | done].
        * rewrite Hh3, Hh2, Hh1. by apply drop_write_fresh.
        * exists (if length ys =? 0 then 0 else 1).
          assert (block_count (blk (buffer_ nd)) = if length ys =? 0 then 0 else 1)
            as Hbc.
          { destruct (blk (buffer_ nd)) eqn:Hbn, (Nat.eqb_spec (length ys) 0);
              try done.
            - destruct Hnull as [_ Hnull]. by specialize (Hnull e).
            - destruct Hnull as [Hnull _]. by specialize (Hnull eq_refl). }
          rewrite Hbc in Hd3. bookkeeping.
      + done.
    - intros x2 w2 H2. exact H2. }
  2: { intros x2 w2 H2. exact H2. }
  intros [] x2 w2 (-> & Hh2 & Hf2). cbn [app blk] in Hh2. rewrite app_nil_r in Hh2.
  apply wp_ret.
  split_and!; [done | | done | done | | bookkeeping].
  - split; [done|]. cbn [data_]. rewrite Hcap, Nat.sub_diag. cbn [replicate].
    rewrite app_nil_r.
    split_and!; [done | solve_off |].
    unfold block_is. rewrite Hh2.
    eapply block_in_write; [exact Hnd1 | solve_off].
  - cbn [data_]. by rewrite Hh2, Hh1, write_block_write.
Qed.

Lemma Vector_dtor_spec {X} (x : X) (w : world V) v xs E :
  owns w v xs ->
  wp (Vector_dtor v) x w
    (fun _ x' w' =>
       x' = x /\ heap w' = drop_block (blk (buffer_ (data_ v))) (heap w) /\
       delta w w' 0 (block_count (blk (buffer_ (data_ v)))) (- Z.of_nat (length xs))) E.
Proof.
  intros (Hs & Ho & Hl & Hb). unfold Vector_dtor, GetAddress. rewrite Hs.
  set (rest := replicate (capacity_ (data_ v) - length xs) (@None V)) in *.
  eapply wp_bind.
  { by apply destroy_n_spec with (E := fun _ _ => False) (l1 := []) (l2 := rest). }
  2: done.
  intros [] x1 w1 (-> & Hh1 & Hf1). cbn [app] in Hh1.
  eapply wp_mono.
  { apply RawMemory_dtor_spec with (l := replicate (length xs) None ++ rest)
      (E := fun _ _ => False).
    split_and!; [done | unfold rest in *; solve_off |].
    unfold block_is. rewrite Hh1.
    eapply block_in_write; [exact Hb | solve_off]. }
  - intros _ x2 w2 (-> & Hh2 & Hd2).
    split_and!; [done | by rewrite Hh2, Hh1, drop_write | bookkeeping].
  - done.
Qed.

Lemma copy_assign_at_spec {X} (x : X) (w : world V) dst src u v s1 s2 d1 d2 :
  block_is w (blk src) (s1 ++ Some v :: s2) -> off src = Z.of_nat (length s1) ->
  block_is w (blk dst) (d1 ++ Some u :: d2) -> off dst = Z.of_nat (length d1) ->
  wp (copy_assign_at T dst src) x w
    (fun _ x' w' =>
       x' = x /\ frame w w' 0 /\
       heap w' = write_block (blk dst) (d1 ++ Some v :: d2) (heap w))
    (fun x' w' => x' = x /\ heap w' = heap w /\ frame w w' 0 /\ thrown T CopyAssign).
Proof.
  intros Hs Hos Hd Hod. unfold copy_assign_at.
  eapply wp_load; [exact Hs | exact Hos |].
  eapply wp_mono; [by apply assign_value_spec with (u := u) (l1 := d1) (l2 := d2) | |].
  - intros _ x1 w1 (-> & Hh1 & Hf1). done.
  - done.
Qed.

Lemma assign_prefix_spec {X} (x : X) this rhs bs :
  forall (w : world V) done_ cs rdone l2 r2,
  length cs = length bs -> length rdone = length done_ ->
  block_is w (blk (buffer_ (data_ this))) ((Some <$> done_) ++ (Some <$> cs) ++ l2) ->
  off (buffer_ (data_ this)) = 0%Z ->
  block_is w (blk (buffer_ (data_ rhs))) ((Some <$> rdone) ++ (Some <$> bs) ++ r2) ->
  off (buffer_ (data_ rhs)) = 0%Z ->
  separate this rhs ->
  length done_ + length bs <= size_ this ->
  length done_ + length bs <= capacity_ (data_ this) ->
  length done_ + length bs <= size_ rhs ->
  length done_ + length bs <= capacity_ (data_ rhs) ->
  wp (assign_prefix T this rhs (length done_) (length bs)) x w
    (fun _ x' w' =>
       x' = x /\ frame w w' 0 /\
       heap w' = write_block (blk (buffer_ (data_ this)))
                   ((Some <$> done_) ++ (Some <$> bs) ++ l2) (heap w))
    (fun x' w' => x' = x /\ frame w w' 0 /\ thrown T CopyAssign).
Proof.
  induction bs as [|b bs IH];
    intros w done_ cs rdone l2 r2 Hcs Hrd Hb Ho Hr Hor Hsep Hs1 Hc1 Hs2 Hc2.
  - destruct cs; [|done]. apply wp_ret.
    split_and!; [done | apply frame_refl |]. symmetry. by apply write_block_id.
  - destruct cs as [|c cs]; [done|]. cbn [length] in *.
    cbn [assign_prefix].
    apply wp_index; [lia | lia |]. apply wp_index; [lia | lia |].
    assert (blk (buffer_ (data_ this)) <> blk (buffer_ (data_ rhs))) as Hne.
    { intros Heq. specialize (Hsep Heq). unfold block_is in Hb.
      rewrite Hsep in Hb. simpl in Hb. by destruct done_. }
    eapply wp_bind.
    { apply copy_assign_at_spec with (u := c) (v := b) (s1 := Some <$> rdone)
        (s2 := (Some <$> bs) ++ r2) (d1 := Some <$> done_) (d2 := (Some <$> cs) ++ l2);
        [exact Hr | solve_off | exact Hb | solve_off]. }
    2: { intros x1 w1 (-> & Hh1 & Hf1 & Hthr). done. }
    intros [] x1 w1 (-> & Hf1 & Hh1). cbn [blk ptr_add] in Hh1.
    eapply wp_mono.
    { replace (S (length done_)) with (length (done_ ++ [b])) by solve_off.
      apply (IH w1 (done_ ++ [b]) cs (rdone ++ [b]) l2 r2);
        [lia | solve_off | | done | | done | done | solve_off | solve_off | solve_off
         | solve_off ].
      - unfold block_is. rewrite Hh1. norm_lists.
        eapply block_in_write; [exact Hb | solve_off].
      - unfold block_is. rewrite Hh1. norm_lists.
        apply block_in_write_ne; [done | exact Hr]. }
    + intros _ x2 w2 (-> & Hf2 & Hh2).
      split_and!; [done | bookkeeping |].
      rewrite Hh2, Hh1, write_block_write. f_equal. by norm_lists.
    + intros x2 w2 (-> & Hf2 & Hthr). split_and!; [done | bookkeeping | done].
Qed.

Lemma owns_other_block (w w' : world V) v xs :
  owns w v xs ->
  (forall l, block_is w (blk (buffer_ (data_ v))) l ->
             block_is w' (blk (buffer_ (data_ v))) l) ->
  owns w' v xs.
Proof.
  intros (Hs & Ho & Hl & Hb) Hsame. split; [done|].
  split_and!; [done | done | by apply Hsame].
Qed.

Lemma Vector_eta (v : Vector) : {| data_ := data_ v; size_ := size_ v |} = v.
Proof. by destruct v. Qed.

(** What a failed copy assignment leaves behind: the reallocating branch
    leaves the memory as it was; the branch that reuses the storage may
    leave some elements assigned. *)
Definition copy_assign_failed (this : Vector) (n : nat) (w w' : world V) : Prop :=
  (capacity_ (data_ this) < n /\ heap w' = heap w /\
   (exists k, delta w w' k k 0) /\ thrown T CopyCtor) \/
  (n <= capacity_ (data_ this) /\ delta w w' 0 0 0 /\
   (thrown T CopyAssign \/ thrown T CopyCtor)).

Lemma Vector_copy_assign_spec (w : world V) this rhs xs ys :
  owns w this xs -> owns w rhs ys -> separate this rhs ->
  wp (Vector_copy_assign T) (Two this rhs) w
    (fun _ x' w' =>
       exists this', x' = Two this' rhs /\ owns w' this' ys /\ owns w' rhs ys /\
         (length ys <= capacity_ (data_ this) ->
            data_ this' = data_ this /\
            delta w w' 0 0 (Z.of_nat (length ys) - Z.of_nat (length xs))) /\
         (capacity_ (data_ this) < length ys ->
            capacity_ (data_ this') = length ys /\
            delta w w' 1 (block_count (blk (buffer_ (data_ this))))
              (Z.of_nat (length ys) - Z.of_nat (length xs))))
    (fun x' w' => x' = Two this rhs /\ copy_assign_failed this (length ys) w w').
Proof.
  intros Hthis Hrhs Hsep. unfold Vector_copy_assign, copy_assign_failed.
  apply wp_get. cbn [distinct this_of other_of]. unfold Capacity, GetAddress.
  pose proof (owns_le_capacity _ _ _ Hthis) as Hlx.
  pose proof (owns_le_capacity _ _ _ Hrhs) as Hly.
  pose proof (owns_size _ _ _ Hthis) as Hsx.
  pose proof (owns_size _ _ _ Hrhs) as Hsy.
  rewrite Hsy.
  destruct (Nat.ltb_spec (capacity_ (data_ this)) (length ys)) as [Hlt|Hge].
  - (* a temporary copy, swapped into place *)
    eapply wp_bind; [by apply Vector_copy_ctor_spec | |].
    2: { intros x1 w1 (-> & Hh1 & Hk & Hthr). split; [done|]. left. done. }
    intros rc x1 w1 (-> & Hrc & Hcap & Hfresh & Hh1 & Hd1).
    destruct (length ys =? 0) eqn:Hy0; [apply Nat.eqb_eq in Hy0; lia|].
    assert (forall v zs, owns w v zs -> owns w1 v zs) as Hkeep.
    { intros v zs Hv. eapply owns_other_block; [exact Hv|].
      intros l Hl. unfold block_is in *. rewrite Hh1.
      destruct (blk (buffer_ (data_ rc))) as [b|] eqn:Hbrc; [|done].
      apply block_in_write_ne; [|done].
      intros Heq. rewrite <- Heq in Hl. simpl in Hl.
      specialize (Hfresh b eq_refl). congruence. }
    assert (blk (buffer_ (data_ this)) <> blk (buffer_ (data_ rc))) as Hne.
    { intros Heq. destruct Hthis as (_ & _ & _ & Hb). unfold block_is in Hb.
      rewrite Heq in Hb.
      destruct Hrc as (_ & _ & Hlrc & Hbrc). unfold block_is in Hbrc.
      destruct (blk (buffer_ (data_ rc))) as [b|] eqn:Hbb.
      - specialize (Hfresh b eq_refl). simpl in Hb. congruence.
      - simpl in Hbrc. rewrite Hbrc in Hlrc. simpl in Hlrc. lia. }
    eapply wp_with_local with
      (Q1 := fun _ s w' => s = (Two rc rhs, this) /\ w' = w1)
      (E1 := fun _ _ => False).
    + unfold wp, zoom, Vector_Swap, bind, get, put. cbn.
      by destruct rc as [[] ?], this as [[] ?].
    + intros [] x2 l w2 ([= -> ->] & ->).
      eapply wp_mono; [apply Vector_dtor_spec with (E := fun _ _ => False) (xs := xs);
                       by apply Hkeep | | done].
      intros _ x3 w3 (-> & Hh3 & Hd3).
      assert (forall v zs, blk (buffer_ (data_ v)) <> blk (buffer_ (data_ this)) \/
                           blk (buffer_ (data_ this)) = None ->
                           owns w1 v zs -> owns w3 v zs) as Hkeep3.
      { intros v zs Hv Hown. eapply owns_other_block; [exact Hown|].
        intros l Hl. unfold block_is. rewrite Hh3.
        destruct Hv as [Hv|Hv]; [by apply block_in_drop_ne | by rewrite Hv]. }
      exists rc. split_and!; [done | | | lia |].
      * apply Hkeep3; [left; congruence | done].
      * apply Hkeep3; [|by apply Hkeep].
        destruct (decide (blk (buffer_ (data_ rhs)) = blk (buffer_ (data_ this))))
          as [Heq|Hneq]; [right | by left].
        by apply Hsep.
      * intros _. split; [done|]. bookkeeping.
    + done.
  - (* the storage is reused *)
    destruct Hthis as (_ & Ho & Hl & Hb). destruct Hrhs as (_ & Hor & Hlr & Hbr).
    set (rest := replicate (capacity_ (data_ this) - length xs) (@None V)) in *.
    set (rrest := replicate (capacity_ (data_ rhs) - length ys) (@None V)) in *.
    set (m := length ys `min` size_ this).
    assert (m = length ys `min` size_ this) as Hmdef by done.
    assert (m = length (take m ys)) as Hmy by (rewrite length_take; lia).
    assert (m = length (take m xs)) as Hmx by (rewrite length_take; lia).
    eapply wp_bind.
    { replace (assign_prefix T this rhs 0 m)
        with (assign_prefix (X := operands Vector) T this rhs (length (@nil V))
                (length (take m ys))) by (by rewrite <- Hmy).
      apply assign_prefix_spec with (done_ := []) (rdone := []) (cs := take m xs)
        (l2 := (Some <$> drop m xs) ++ rest) (r2 := (Some <$> drop m ys) ++ rrest);
        try done; try (cbn [length]; lia).
      - cbn [fmap list_fmap app]. rewrite app_assoc, <- fmap_app, take_drop. exact Hb.
      - cbn [fmap list_fmap app]. rewrite app_assoc, <- fmap_app, take_drop. exact Hbr. }
    2: { intros x1 w1 (-> & Hf1 & Hthr). split; [done|]. right.
         split_and!; [done | bookkeeping | by left]. }
    intros [] x1 w1 (-> & Hf1 & Hh1). cbn [fmap list_fmap app] in Hh1.
    assert (block_is w1 (blk (buffer_ (data_ this)))
              ((Some <$> take m ys) ++ (Some <$> drop m xs) ++ rest)) as Hb1.
    { unfold block_is. rewrite Hh1.
      eapply block_in_write; [exact Hb | solve_off]. }
    assert (forall l, block_is w (blk (buffer_ (data_ rhs))) l ->
                      block_is w1 (blk (buffer_ (data_ rhs))) l) as Hkeep.
    { intros l Hlb. unfold block_is. rewrite Hh1.
      destruct (decide (blk (buffer_ (data_ this)) = blk (buffer_ (data_ rhs))))
        as [Heq|Hneq]; [|by apply block_in_write_ne].
      rewrite (Hsep Heq). done. }
    eapply wp_bind with
      (Q1 := fun _ x' w' =>
         x' = Two this rhs /\
         frame w1 w' (Z.of_nat (length ys) - Z.of_nat (length xs)) /\
         heap w' = write_block (blk (buffer_ (data_ this)))
                     ((Some <$> ys) ++ replicate (capacity_ (data_ this) - length ys) None)
                     (heap w1))
      (E1 := fun x' w' => x' = Two this rhs /\ frame w1 w' 0 /\ thrown T CopyCtor).
    { destruct (Nat.ltb_spec (length ys) (size_ this)) as [Hshrink|Hgrow].
      - assert (m = length ys) as Hm by (unfold m; lia).
        rewrite Hm, take_ge in * by lia.
        eapply wp_mono.
        { replace (size_ this - length ys) with (length (drop (length ys) xs))
            by (rewrite length_drop; lia).
          apply destroy_n_spec with (E := fun _ _ => False) (l1 := Some <$> ys)
            (l2 := rest); [exact Hb1 | solve_off]. }
        + intros _ x2 w2 (-> & Hh2 & Hf2). cbn [blk ptr_add] in Hh2.
          rewrite length_drop in Hh2, Hf2.
          split_and!; [done | bookkeeping |].
          rewrite Hh2. f_equal. f_equal. unfold rest.
          rewrite <- replicate_add. f_equal. lia.
        + done.
      - assert (m = length xs) as Hm by (unfold m; lia).
        rewrite Hm in *. rewrite (drop_ge xs) in * by lia. rewrite Hsx.
        cbn [fmap list_fmap app] in *.
        eapply wp_mono.
        { replace (length ys - length xs) with (length (drop (length xs) ys))
            by (rewrite length_drop; lia).
          apply uninitialized_copy_n_spec with (s1 := Some <$> take (length xs) ys)
            (s2 := rrest) (d1 := Some <$> take (length xs) ys)
            (d2 := replicate (capacity_ (data_ this) - length ys) None).
          - apply Hkeep. rewrite app_assoc, <- fmap_app, take_drop. exact Hbr.
          - solve_off.
          - rewrite length_drop, <- replicate_add.
            replace (length ys - length xs + (capacity_ (data_ this) - length ys))
              with (capacity_ (data_ this) - length xs) by lia.
            exact Hb1.
          - solve_off.
          - cbn [blk ptr_add]. intros Heq. specialize (Hsep (eq_sym Heq)).
            unfold block_is in Hb. rewrite Hsep in Hb. simpl in Hb.
            rewrite Hb in Hl. simpl in Hl.
            apply nil_length_inv. rewrite length_drop. lia. }
        + intros _ x2 w2 (-> & Hh2 & Hf2). cbn [blk ptr_add] in Hh2.
          rewrite length_drop in Hf2.
          split_and!; [done | bookkeeping |].
          rewrite Hh2. f_equal.
          by rewrite app_assoc, <- fmap_app, take_drop.
        + intros x2 w2 (-> & Hh2 & Hf2 & Hthr). done. }
    2: { intros x2 w2 (-> & Hf2 & Hthr). split; [done|]. right.
         split_and!; [done | bookkeeping | by right]. }
    intros [] x2 w2 (-> & Hf2 & Hh2). apply wp_put.
    exists (set_size (length ys) this). cbn [set_this].
    split_and!; [done | | | | lia].
    + split; [done|]. cbn [set_size data_].
      split_and!; [done | solve_off |].
      unfold block_is. rewrite Hh2.
      eapply block_in_write; [exact Hb1 | unfold rest; solve_off].
    + split; [done|]. split_and!; [done | done |].
      unfold block_is. rewrite Hh2.
      destruct (decide (blk (buffer_ (data_ this)) = blk (buffer_ (data_ rhs))))
        as [Heq|Hneq]; [|by apply block_in_write_ne, Hkeep].
      rewrite (Hsep Heq). by apply Hkeep.
    + intros _. split; [done|]. bookkeeping.
Qed.

End VectorSpecs.

(** * The claims *)

Section Claims.
Context {V : Type} (T : ElemType V).

(** No element operation of [T] throws. *)
Definition nothrow : Prop := forall n op v, throws T n op v = false.

Lemma nothrow_thrown op : nothrow -> thrown T op -> False.
Proof. intros Hno (n & v & Hthr). by rewrite Hno in Hthr. Qed.

Lemma relocation_failed_thrown (w w' : world V) :
  relocation_failed T w w' -> exists op, thrown T op.
Proof. intros [(_ & _ & H)|(_ & H)]; eauto. Qed.

Lemma append_failed_thrown v i (w w' : world V) :
  append_failed T v i w w' -> exists op, thrown T op.
Proof.
  intros [(H & _)|(_ & _ & H & _)]; [|by eapply relocation_failed_thrown].
  exists (init_op i). by eexists _, _.
Qed.

Lemma in_place_failed_thrown i (w w' : world V) :
  in_place_failed T i w w' -> exists op, thrown T op.
Proof.
  intros [(H & _)|[(H & _)|(H & _)]]; eauto.
  exists (init_op i). by eexists _, _.
Qed.

Lemma emplace_failed_thrown v p i (w w' : world V) :
  emplace_failed T v p i w w' -> exists op, thrown T op.
Proof.
  intros [H|(_ & _ & H)];
    [by eapply append_failed_thrown | by eapply in_place_failed_thrown].
Qed.

(** A function whose failures all stem from a throwing element operation
    returns normally when no element operation throws. *)
Lemma wp_total {X A} (m : M V X A) x w Q (E : X -> world V -> Prop) :
  wp m x w Q E -> (forall x' w', E x' w' -> exists op, thrown T op) ->
  nothrow -> exists a x' w', m x w = Ok a x' w' /\ Q a x' w'.
Proof.
  unfold wp. intros Hwp HE Hno. destruct (m x w) as [a x' w'|x' w'|]; [eauto | | done].
  destruct (HE _ _ Hwp) as [op Hop]. by destruct (nothrow_thrown op).
Qed.

Lemma owns_read_at {X} (x : X) (w : world V) v xs i a :
  owns w v xs -> xs !! i = Some a -> read_at v i x w = Ok a x w.
Proof.
  intros Hown Hi. pose proof (owns_le_capacity _ _ _ Hown) as Hlen.
  destruct Hown as (Hs & Ho & Hl & Hb).
  pose proof (lookup_lt_Some _ _ _ Hi) as Hlt.
  unfold read_at, Vector_index, RawMemory_index, bind, assert.
  destruct (Nat.ltb_spec i (size_ v)); [|lia].
  destruct (Nat.ltb_spec i (capacity_ (data_ v))); [|lia]. simpl.
  rewrite <- (take_drop_middle xs i a Hi) in Hb at 1.
  apply load_spec with (l1 := Some <$> take i xs)
    (l2 := (Some <$> drop (S i) xs) ++ replicate (capacity_ (data_ v) - length xs) None).
  - revert Hb. by norm_lists.
  - cbn [off ptr_add]. rewrite Ho, length_fmap, length_take. lia.
Qed.

(** ** Appending in sequence *)

Lemma Append_spec (w : world V) v xs by_move a :
  owns w v xs ->
  wp (Append T by_move a) v w
    (fun _ v' w' =>
       owns w' v' (xs ++ [a]) /\
       (size_ v < capacity_ (data_ v) -> data_ v' = data_ v /\ delta w w' 0 0 1) /\
       (capacity_ (data_ v) <= size_ v ->
          capacity_ (data_ v') = grown (size_ v) /\
          delta w w' 1 (block_count (blk (buffer_ (data_ v)))) 1))
    (fun v' w' => exists op, thrown T op).
Proof.
  intros Hown. unfold Append, PushBack_move, PushBack_copy.
  destruct by_move;
    (eapply wp_mono; [by apply PushBack_spec | done |
                      intros v' w' [_ H]; by eapply append_failed_thrown]).
Qed.

Lemma Append_all_spec calls : forall (w : world V) v xs,
  owns w v xs ->
  wp (Append_all T calls) v w
    (fun _ v' w' => owns w' v' (xs ++ calls.*2))
    (fun v' w' => exists op, thrown T op).
Proof.
  induction calls as [|[by_move a] calls IH]; intros w v xs Hown.
  - apply wp_ret. by rewrite app_nil_r.
  - cbn [Append_all]. eapply wp_bind; [by apply Append_spec | | done].
    intros [] v1 w1 (Hown1 & _).
    eapply wp_mono; [by apply IH | | done].
    intros [] v2 w2 Hown2. cbn [fmap list_fmap snd]. by rewrite cons_middle, app_assoc.
Qed.

(** While the elements fit, appending neither allocates nor releases a
    block, and the storage stays where it is. *)
Lemma Append_all_fit_spec calls : forall (w : world V) v xs,
  owns w v xs -> length xs + length calls <= capacity_ (data_ v) ->
  wp (Append_all T calls) v w
    (fun _ v' w' =>
       owns w' v' (xs ++ calls.*2) /\ data_ v' = data_ v /\
       allocs w' = allocs w /\ frees w' = frees w)
    (fun v' w' => exists op, thrown T op).
Proof.
  induction calls as [|[by_move a] calls IH]; intros w v xs Hown Hfit.
  - apply wp_ret. by rewrite app_nil_r.
  - cbn [Append_all length] in *.
    pose proof (owns_size _ _ _ Hown) as Hs.
    eapply wp_bind; [by apply Append_spec | | done].
    intros [] v1 w1 (Hown1 & Hin & _).
    destruct Hin as [Hd1 Hdelta]; [lia|].
    eapply wp_mono; [apply (IH w1 v1 (xs ++ [a]) Hown1) | | done].
    + rewrite Hd1, length_app. simpl. lia.
    + intros [] v2 w2 (Hown2 & Hd2 & Ha & Hf).
      split_and!; [| congruence | bookkeeping | bookkeeping].
      cbn [fmap list_fmap snd]. by rewrite cons_middle, app_assoc.
Qed.

(** ** C1: exception safety of growth *)

(** The guarantee a growth operation gives when it throws: the vector
    object and every block of memory are as before the call, every block
    allocated by the call has been released, and at most the new element
    is still alive; it has been destroyed too when the vector was not full
    or when it was the new element's own constructor that threw. *)
Definition growth_rolled_back (v : Vector) (xs : list V) (i : init V)
    (w : world V) (v' : Vector) (w' : world V) : Prop :=
  v' = v /\ owns w' v' xs /\ heap w' = heap w /\
  live_blocks w' = live_blocks w /\
  (live_objects w <= live_objects w' <= live_objects w + 1)%Z /\
  (size_ v < capacity_ (data_ v) \/
   throws T (clock w) (init_op i) (init_value T i) = true ->
   live_objects w' = live_objects w).

(** The guarantee of [Reserve], which constructs no new element. *)
Definition reserve_rolled_back (v : Vector) (xs : list V)
    (w : world V) (v' : Vector) (w' : world V) : Prop :=
  v' = v /\ owns w' v' xs /\ heap w' = heap w /\
  live_blocks w' = live_blocks w /\ live_objects w' = live_objects w.

Lemma delta_live_blocks (w w' : world V) k d :
  delta w w' k k d -> live_blocks w' = live_blocks w.
Proof. intros []. unfold live_blocks. lia. Qed.

Lemma owns_same_heap (w w' : world V) v xs :
  owns w v xs -> heap w' = heap w -> owns w' v xs.
Proof.
  intros Hown Hh. eapply owns_other_block; [exact Hown|].
  intros l Hl. by eapply block_is_same_heap.
Qed.

Lemma growth_rolled_back_intro (w w' : world V) v xs i k d :
  owns w v xs -> heap w' = heap w -> delta w w' k k d -> (0 <= d <= 1)%Z ->
  (size_ v < capacity_ (data_ v) \/
   throws T (clock w) (init_op i) (init_value T i) = true -> d = 0%Z) ->
  growth_rolled_back v xs i w v w'.
Proof.
  intros Hown Hh Hd Hrange Hzero. unfold growth_rolled_back.
  split; [done|]. split; [by eapply owns_same_heap|]. split; [done|].
  split; [by eapply delta_live_blocks|]. destruct Hd.
  split; [lia|]. intros Hcase. specialize (Hzero Hcase). lia.
Qed.

Section SafeRelocation.
(** Relocation cannot damage its source: a type whose elements are
    relocated by moving has a move constructor that does not throw.  (A
    type that can be copied and has no [noexcept] move constructor is
    relocated by copying, whatever its constructors do.) *)
Hypothesis relocation_safe :
  relocates_by_move T = true -> forall n v, throws T n MoveCtor v = false.

Lemma relocation_failed_safe (w w' : world V) :
  relocation_failed T w w' -> heap w' = heap w.
Proof using relocation_safe.
  intros [(_ & Hh & _)|(Hpol & n & v & Hthr)]; [done|].
  by rewrite (relocation_safe Hpol) in Hthr.
Qed.

Lemma append_failed_rolled_back (w w' : world V) v xs i :
  owns w v xs -> append_failed T v i w w' -> growth_rolled_back v xs i w v w'.
Proof using relocation_safe.
  intros Hown [(Hthr & Hh & k & Hd)|(Hfull & Hok & Hrel & Hd)].
  - by eapply growth_rolled_back_intro; [done | done | exact Hd | lia |].
  - pose proof (relocation_failed_safe _ _ Hrel) as Hh.
    eapply growth_rolled_back_intro; [done | done | exact Hd | lia |].
    pose proof (owns_size _ _ _ Hown). intros [Hfit|Hthr]; [lia | congruence].
Qed.

(** Inserting before the end of a vector with spare capacity is the one
    growth path that assigns: there the exception is a constructor's when
    move assignment does not throw. *)
Definition constructors_only (v : Vector) (p : nat) : Prop :=
  p < size_ v -> size_ v < capacity_ (data_ v) ->
  forall n u, throws T n MoveAssign u = false.

Lemma emplace_failed_rolled_back (w w' : world V) v xs p i :
  constructors_only v p ->
  owns w v xs -> emplace_failed T v p i w w' -> growth_rolled_back v xs i w v w'.
Proof using relocation_safe.
  intros Hctor Hown [Happ|(Hfit & Hp & Hin)]; [by apply append_failed_rolled_back|].
  destruct Hin as [(Hthr & Hh & Hd)|[(Hthr & Hh & Hd)|((n & u & Hthr) & _)]].
  - by eapply growth_rolled_back_intro; [done | done | exact Hd | lia |].
  - by eapply growth_rolled_back_intro; [done | done | exact Hd | lia |].
  - by rewrite (Hctor Hp Hfit) in Hthr.
Qed.

(** C1 (as amended). For a vector holding [xs] and an element type whose
    relocation cannot damage its source, a growth operation that throws
    from an element constructor leaves the vector object, its element
    values, its length and the whole memory as they were before the call,
    and every block it allocated has been released.  [Reserve] leaves no
    object behind; [PushBack], [EmplaceBack], [Emplace] and [Insert]
    destroy every relocated copy, and the new element as well when the
    vector was not full or when the new element's own constructor is the
    one that threw.  [Emplace] and [Insert] before the end of a vector
    with spare capacity also assign; for that path the exception is a
    constructor's when move assignment does not throw
    ([constructors_only]). *)
Theorem growth_strong_guarantee (w : world V) (v : Vector) (xs : list V) :
  owns w v xs ->
  (forall n v' w',
     Reserve T n v w = Throw v' w' -> reserve_rolled_back v xs w v' w') /\
  (forall i v' w',
     PushBack T i v w = Throw v' w' -> growth_rolled_back v xs i w v' w') /\
  (forall i v' w',
     EmplaceBack T i v w = Throw v' w' -> growth_rolled_back v xs i w v' w') /\
  (forall p i v' w', p <= length xs -> constructors_only v p ->
     Emplace T (ptr_add (begin v) (Z.of_nat p)) i v w = Throw v' w' ->
     growth_rolled_back v xs i w v' w') /\
  (forall p a v' w', p <= length xs -> constructors_only v p ->
     Insert_copy T (ptr_add (begin v) (Z.of_nat p)) a v w = Throw v' w' ->
     growth_rolled_back v xs (CopyOf a) w v' w') /\
  (forall p a v' w', p <= length xs -> constructors_only v p ->
     Insert_move T (ptr_add (begin v) (Z.of_nat p)) a v w = Throw v' w' ->
     growth_rolled_back v xs (MoveOf a) w v' w').
Proof using relocation_safe.
  intros Hown.
  assert (forall p i v' w', p <= length xs -> constructors_only v p ->
            Emplace T (ptr_add (begin v) (Z.of_nat p)) i v w = Throw v' w' ->
            growth_rolled_back v xs i w v' w') as Hemplace.
  { intros p i v' w' Hp Hctor Hrun.
    destruct (wp_Throw _ _ _ _ _ _ _ (Emplace_spec T w v xs p i Hown Hp) Hrun)
      as [-> Hfail].
    by eapply emplace_failed_rolled_back. }
  split_and!.
  - intros n v' w' Hrun.
    destruct (wp_Throw _ _ _ _ _ _ _ (Reserve_spec T w v xs n Hown) Hrun)
      as (_ & -> & Hd & Hfail).
    pose proof (relocation_failed_safe _ _ Hfail) as Hh.
    unfold reserve_rolled_back.
    split_and!; [done | by eapply owns_same_heap | done
                 | by eapply delta_live_blocks | destruct Hd; lia].
  - intros i v' w' Hrun.
    destruct (wp_Throw _ _ _ _ _ _ _ (PushBack_spec T w v xs i Hown) Hrun)
      as [-> Hfail].
    by apply append_failed_rolled_back.
  - intros i v' w' Hrun.
    destruct (wp_Throw _ _ _ _ _ _ _ (EmplaceBack_spec T w v xs i Hown) Hrun)
      as [-> Hfail].
    by apply append_failed_rolled_back.
  - exact Hemplace.
  - intros p a. apply Hemplace.
  - intros p a. apply Hemplace.
Qed.

End SafeRelocation.

(** ** C2: move assignment *)

(** C2 (the code departs from it). Move assignment into a vector that owns
    a block [b] holding [xs] returns with the memory exactly as it was:
    nothing has been destroyed and nothing released.  Block [b] is still
    allocated with its objects alive, and neither vector refers to it any
    more, so no later destructor can release it. *)
Theorem move_assign_leaks_target (w : world V) (this rhs : Vector) (xs : list V) b :
  owns w this xs ->
  blk (buffer_ (data_ this)) = Some b ->
  blk (buffer_ (data_ rhs)) <> Some b ->
  exists this' rhs',
    Vector_move_assign (Two this rhs) w = Ok tt (Two this' rhs') w /\
    data_ this' = data_ rhs /\ size_ this' = size_ rhs /\
    rhs' = Vector_default /\
    blk (buffer_ (data_ this')) <> Some b /\
    blk (buffer_ (data_ rhs')) <> Some b /\
    heap w !! b =
      Some ((Some <$> xs) ++ replicate (capacity_ (data_ this) - length xs) None).
Proof.
  intros (_ & _ & _ & Hb) Hthis Hrhs.
  unfold block_is in Hb. rewrite Hthis in Hb. simpl in Hb.
  destruct this as [[tb tc] ts], rhs as [[rb rc] rs]. simpl in *.
  eexists _, _. split.
  { unfold Vector_move_assign, RawMemory_move_assign, bind, get, put. cbn.
    reflexivity. }
  simpl. by split_and!.
Qed.

(** ** C3: what appending returns *)

(** C3 (as amended). [EmplaceBack] returns a reference to the newly
    constructed element: the address of the element at index
    [length - 1] after the call, where the new value is stored.
    [PushBack], by copy or by move, stores the new element at index
    [length - 1] as well, but is declared [void] and returns nothing.
    Both return normally when no element operation throws. *)
Theorem EmplaceBack_returns_last (w : world V) (v : Vector) (xs : list V) (i : init V) :
  owns w v xs ->
  (forall r v' w',
     call_EmplaceBack T i v w = Ok r v' w' ->
     exists p, r = Ref p /\ size_ v' = S (size_ v) /\
               Vector_index v' (size_ v' - 1) v' w' = Ok p v' w' /\
               load p v' w' = Ok (init_value T i) v' w') /\
  (forall r v' w',
     call_PushBack T i v w = Ok r v' w' ->
     r = Void /\ size_ v' = S (size_ v) /\
     read_at v' (size_ v' - 1) v' w' = Ok (init_value T i) v' w') /\
  (nothrow ->
     (exists r v' w', call_EmplaceBack T i v w = Ok r v' w') /\
     (exists r v' w', call_PushBack T i v w = Ok r v' w')).
Proof.
  intros Hown. pose proof (owns_size _ _ _ Hown) as Hs.
  pose proof (EmplaceBack_spec T w v xs i Hown) as Hemp.
  pose proof (PushBack_spec T w v xs i Hown) as Hpush.
  split_and!.
  - intros r v' w' Hrun. unfold call_EmplaceBack, bind in Hrun.
    destruct (EmplaceBack T i v w) as [p v1 w1|v1 w1|] eqn:Hrun1; [|done|done].
    injection Hrun as <- <- <-.
    destruct (wp_Ok _ _ _ _ _ _ _ _ Hemp Hrun1) as (Hown1 & -> & _).
    pose proof (owns_size _ _ _ Hown1) as Hs1.
    pose proof (owns_le_capacity _ _ _ Hown1) as Hc1.
    rewrite length_app in Hs1, Hc1. cbn [length] in Hs1, Hc1.
    exists (ptr_add (begin v1) (Z.of_nat (length xs))).
    split_and!; [done | lia | |].
    + unfold Vector_index, RawMemory_index, bind, assert.
      destruct (Nat.ltb_spec (size_ v1 - 1) (size_ v1)); [|lia].
      destruct (Nat.ltb_spec (size_ v1 - 1) (capacity_ (data_ v1))); [|lia].
      simpl. unfold ret, begin, GetAddress. do 3 f_equal. lia.
    + destruct Hown1 as (_ & Ho & _ & Hb).
      apply load_spec with (l1 := Some <$> xs)
        (l2 := replicate (capacity_ (data_ v1) - length (xs ++ [init_value T i])) None).
      * revert Hb. by norm_lists.
      * unfold begin, GetAddress. solve_off.
  - intros r v' w' Hrun. unfold call_PushBack, bind in Hrun.
    destruct (PushBack T i v w) as [u v1 w1|v1 w1|] eqn:Hrun1; [|done|done].
    injection Hrun as <- <- <-.
    destruct (wp_Ok _ _ _ _ _ _ _ _ Hpush Hrun1) as (Hown1 & _).
    pose proof (owns_size _ _ _ Hown1) as Hs1.
    rewrite length_app in Hs1. cbn [length] in Hs1.
    split_and!; [done | lia |].
    eapply owns_read_at; [exact Hown1|].
    replace (size_ v1 - 1) with (length xs) by lia.
    by apply list_lookup_middle.
  - intros Hno. split.
    + destruct (wp_total _ _ _ _ _ Hemp) as (p & v' & w' & Hrun & _); [|done|].
      { intros v' w' [_ H]. by eapply append_failed_thrown. }
      exists (Ref p), v', w'. unfold call_EmplaceBack, bind. by rewrite Hrun.
    + destruct (wp_total _ _ _ _ _ Hpush) as (u & v' & w' & Hrun & _); [|done|].
      { intros v' w' [_ H]. by eapply append_failed_thrown. }
      exists Void, v', w'. unfold call_PushBack, bind. by rewrite Hrun.
Qed.

(** ** C4: copy assignment from a longer vector *)

(** C4. When the source holds more elements than the target has capacity
    for and copy assignment throws, the target is the object it was, with
    the same length, capacity and element values; the memory is as
    before, and every block and element the assignment created has been
    released. *)
Theorem copy_assign_strong_guarantee (w : world V) (this rhs : Vector)
    (xs ys : list V) :
  owns w this xs -> owns w rhs ys -> separate this rhs ->
  capacity_ (data_ this) < length ys ->
  forall x' w',
    Vector_copy_assign T (Two this rhs) w = Throw x' w' ->
    x' = Two this rhs /\ owns w' this xs /\ owns w' rhs ys /\
    size_ (this_of x') = size_ this /\
    capacity_ (data_ (this_of x')) = capacity_ (data_ this) /\
    contents w' (this_of x') = Some xs /\
    heap w' = heap w /\
    live_blocks w' = live_blocks w /\ live_objects w' = live_objects w.
Proof.
  intros Hthis Hrhs Hsep Hlt x' w' Hrun.
  destruct (wp_Throw _ _ _ _ _ _ _
              (Vector_copy_assign_spec T w this rhs xs ys Hthis Hrhs Hsep) Hrun)
    as (-> & Hfail).
  destruct Hfail as [(_ & Hh & (k & Hd) & _)|(Hge & _)]; [|lia].
  pose proof (owns_same_heap _ _ _ _ Hthis Hh) as Hthis'.
  split_and!; try done.
  - by eapply owns_same_heap.
  - by apply owns_contents.
  - by eapply delta_live_blocks.
  - destruct Hd. lia.
Qed.

(** ** C5: a sequence of Appends *)

(** C5. After any sequence of Appends (by copy or by move) to an empty
    vector, the length is the number of calls and the element at index
    [i] is the value passed in call [i + 1]; the sequence returns
    normally when no element operation throws. *)
Theorem Append_all_in_order (w : world V) (v : Vector) (calls : list (bool * V)) :
  owns w v [] ->
  (forall u v' w',
     Append_all T calls v w = Ok u v' w' ->
     size_ v' = length calls /\
     contents w' v' = Some (calls.*2) /\
     forall i a, calls.*2 !! i = Some a -> read_at v' i v' w' = Ok a v' w') /\
  (nothrow -> exists u v' w', Append_all T calls v w = Ok u v' w').
Proof.
  intros Hown. pose proof (Append_all_spec calls w v [] Hown) as Hspec.
  split.
  - intros u v' w' Hrun. pose proof (wp_Ok _ _ _ _ _ _ _ _ Hspec Hrun) as Hown'.
    cbn [app] in Hown'. split_and!.
    + by rewrite (owns_size _ _ _ Hown'), length_fmap.
    + by apply owns_contents.
    + intros i a Hi. by eapply owns_read_at.
  - intros Hno. destruct (wp_total _ _ _ _ _ Hspec) as (u & v' & w' & Hrun & _); eauto.
Qed.

(** ** C6: Reserve *)

(** When the byte count does not wrap around, the block has room for
    exactly the [n] objects asked for; when it wraps, for fewer. *)
Lemma allocation_fits_room (n : nat) :
  allocation_fits T n -> allocation_room T n = Z.of_nat n.
Proof.
  unfold allocation_fits, allocation_room, allocation_bytes. intros Hfit.
  rewrite Z.mod_small by lia. by apply Z.div_mul.
Qed.



(** ** C7: Insert followed by Erase *)

Lemma insert_erase_list {A} (xs : list A) p a :
  p <= length xs ->
  take p (take p xs ++ a :: drop p xs) ++ drop (S p) (take p xs ++ a :: drop p xs) = xs.
Proof.
  intros Hp.
  assert (length (take p xs) = p) as Hlen by (rewrite length_take; lia).
  rewrite take_app_length' by done.
  rewrite (cons_middle a), app_assoc, drop_app_length'
    by (rewrite length_app, Hlen; simpl; lia).
  apply take_drop.
Qed.

(** C7. Inserting a value (by copy or by move) at a position [p] in
    [[0, length]] and then erasing at position [p] restores the original
    element sequence and length; both calls return normally when no
    element operation throws. *)
Theorem Insert_then_Erase (w : world V) (v : Vector) (xs : list V) (p : nat)
    (a : V) (by_move : bool) :
  owns w v xs -> p <= length xs ->
  (forall it v1 w1 it' v2 w2,
     Insert T by_move (ptr_add (begin v) (Z.of_nat p)) a v w = Ok it v1 w1 ->
     Erase T (ptr_add (begin v1) (Z.of_nat p)) v1 w1 = Ok it' v2 w2 ->
     it = ptr_add (begin v1) (Z.of_nat p) /\
     contents w2 v2 = Some xs /\ size_ v2 = size_ v) /\
  (nothrow ->
   exists it v1 w1 it' v2 w2,
     Insert T by_move (ptr_add (begin v) (Z.of_nat p)) a v w = Ok it v1 w1 /\
     Erase T it v1 w1 = Ok it' v2 w2).
Proof.
  intros Hown Hp.
  set (i := if by_move then MoveOf a else CopyOf a).
  assert (Insert T by_move (ptr_add (begin v) (Z.of_nat p)) a =
          Emplace T (ptr_add (begin v) (Z.of_nat p)) i) as Hins
    by (unfold Insert, Insert_move, Insert_copy, i; by destruct by_move).
  assert (init_value T i = a) as Hval by (unfold i; by destruct by_move).
  rewrite Hins.
  pose proof (Emplace_spec T w v xs p i Hown Hp) as Hspec. rewrite Hval in Hspec.
  assert (p < length (take p xs ++ a :: drop p xs)) as Hp'
    by (rewrite length_app, length_take, length_cons, length_drop; lia).
  split.
  - intros it v1 w1 it' v2 w2 Hrun1 Hrun2.
    destruct (wp_Ok _ _ _ _ _ _ _ _ Hspec Hrun1) as (Hown1 & -> & _).
    pose proof (Erase_spec T w1 v1 _ p Hown1 Hp') as Hspec2.
    destruct (wp_Ok _ _ _ _ _ _ _ _ Hspec2 Hrun2) as (Hown2 & _).
    rewrite insert_erase_list in Hown2 by done.
    split_and!; [done | by apply owns_contents |].
    by rewrite (owns_size _ _ _ Hown2), (owns_size _ _ _ Hown).
  - intros Hno.
    destruct (wp_total _ _ _ _ _ Hspec) as (it & v1 & w1 & Hrun1 & Hown1 & -> & _);
      [|done|].
    { intros v' w' [_ H]. by eapply emplace_failed_thrown. }
    pose proof (Erase_spec T w1 v1 _ p Hown1 Hp') as Hspec2.
    destruct (wp_total _ _ _ _ _ Hspec2) as (it' & v2 & w2 & Hrun2 & _); [|done|].
    { intros v' w' (_ & _ & H). eauto. }
    by exists (ptr_add (begin v1) (Z.of_nat p)), v1, w1, it', v2, w2.
Qed.

(** ** C8: Appends after Reserve *)

(** C8 (as amended). After [Reserve(n)], with a byte count that does not
    wrap around when [Reserve] has to allocate, Appends that keep the
    length within [n] allocate nothing, release nothing and leave the
    storage where it is; the capacity stays what [Reserve] left, which is
    [n] when [n] exceeded the previous capacity (the room of the block
    [Reserve] asked for) and the previous capacity otherwise.  With [Reserve], the whole sequence allocates exactly one
    block when [n] exceeded the previous capacity, and none otherwise. *)
Theorem Reserve_then_Appends (w : world V) (v : Vector) (xs : list V) (n : nat)
    (calls : list (bool * V)) :
  owns w v xs -> length xs + length calls <= n ->
  (capacity_ (data_ v) < n -> allocation_fits T n) ->
  forall u v1 w1,
    Reserve T n v w = Ok u v1 w1 ->
    (forall u' v2 w2,
       Append_all T calls v1 w1 = Ok u' v2 w2 ->
       allocs w2 = allocs w1 /\ frees w2 = frees w1 /\ data_ v2 = data_ v1 /\
       capacity_ (data_ v2) = Nat.max n (capacity_ (data_ v)) /\
       allocs w2 = allocs w + (if capacity_ (data_ v) <? n then 1 else 0) /\
       size_ v2 = length xs + length calls /\
       (capacity_ (data_ v) < n ->
          allocation_room T n = Z.of_nat (capacity_ (data_ v2)))) /\
    (nothrow -> exists u' v2 w2, Append_all T calls v1 w1 = Ok u' v2 w2).
Proof.
  intros Hown Hfit Hfits u v1 w1 Hrun.
  destruct (wp_Ok _ _ _ _ _ _ _ _ (Reserve_spec T w v xs n Hown) Hrun)
    as (Hown1 & Hsame & Hgrow).
  pose proof (owns_le_capacity _ _ _ Hown) as Hle.
  assert (capacity_ (data_ v1) = Nat.max n (capacity_ (data_ v)) /\
          allocs w1 = allocs w + (if capacity_ (data_ v) <? n then 1 else 0))
    as [Hcap Hallocs].
  { destruct (Nat.ltb_spec (capacity_ (data_ v)) n) as [Hlt|Hge].
    - destruct (Hgrow Hlt) as [Hc Hd]. destruct Hd. lia.
    - destruct (Hsame Hge) as [-> ->]. lia. }
  assert (length xs + length calls <= capacity_ (data_ v1)) as Hfit1 by lia.
  pose proof (Append_all_fit_spec calls w1 v1 xs Hown1 Hfit1) as Hspec.
  split.
  - intros u' v2 w2 Hrun2.
    destruct (wp_Ok _ _ _ _ _ _ _ _ Hspec Hrun2) as (Hown2 & Hd & Ha & Hf).
    split_and!; [done | done | done | by rewrite Hd | lia | |].
    + by rewrite (owns_size _ _ _ Hown2), length_app, length_fmap.
    + intros Hlt. rewrite Hd, Hcap, Nat.max_l by lia.
      by apply allocation_fits_room, Hfits.
  - intros Hno.
    destruct (wp_total _ _ _ _ _ Hspec) as (u' & v2 & w2 & Hrun2 & _); eauto.
Qed.

(** ** C9: the growth policy *)

(** C9. On a vector whose length equals its capacity, [PushBack],
    [EmplaceBack] and [Emplace] before the end leave the capacity at 1
    when the old length was 0 and at twice the old length otherwise; they
    return normally when no element operation throws. *)
Theorem full_vector_growth (w : world V) (v : Vector) (xs : list V) :
  owns w v xs -> size_ v = capacity_ (data_ v) ->
  (forall i u v' w',
     PushBack T i v w = Ok u v' w' ->
     capacity_ (data_ v') = if size_ v =? 0 then 1 else 2 * size_ v) /\
  (forall i r v' w',
     EmplaceBack T i v w = Ok r v' w' ->
     capacity_ (data_ v') = if size_ v =? 0 then 1 else 2 * size_ v) /\
  (forall p i r v' w', p < length xs ->
     Emplace T (ptr_add (begin v) (Z.of_nat p)) i v w = Ok r v' w' ->
     capacity_ (data_ v') = if size_ v =? 0 then 1 else 2 * size_ v) /\
  (nothrow ->
   (forall i, exists u v' w', PushBack T i v w = Ok u v' w') /\
   (forall i, exists r v' w', EmplaceBack T i v w = Ok r v' w') /\
   (forall p i, p < length xs ->
      exists r v' w', Emplace T (ptr_add (begin v) (Z.of_nat p)) i v w = Ok r v' w')).
Proof.
  intros Hown Hfull.
  assert (capacity_ (data_ v) <= size_ v) as Hge by lia.
  split_and!.
  - intros i u v' w' Hrun.
    destruct (wp_Ok _ _ _ _ _ _ _ _ (PushBack_spec T w v xs i Hown) Hrun)
      as (_ & _ & Hgrow).
    by destruct (Hgrow Hge).
  - intros i r v' w' Hrun.
    destruct (wp_Ok _ _ _ _ _ _ _ _ (EmplaceBack_spec T w v xs i Hown) Hrun)
      as (_ & _ & _ & Hgrow).
    by destruct (Hgrow Hge).
  - intros p i r v' w' Hp Hrun.
    destruct (wp_Ok _ _ _ _ _ _ _ _
                (Emplace_spec T w v xs p i Hown (Nat.lt_le_incl _ _ Hp)) Hrun)
      as (_ & _ & _ & Hgrow).
    by destruct (Hgrow Hge).
  - intros Hno. split_and!.
    + intros i.
      destruct (wp_total _ _ _ _ _ (PushBack_spec T w v xs i Hown))
        as (u & v' & w' & Hrun & _); eauto.
      intros v' w' [_ H]. by eapply append_failed_thrown.
    + intros i.
      destruct (wp_total _ _ _ _ _ (EmplaceBack_spec T w v xs i Hown))
        as (u & v' & w' & Hrun & _); eauto.
      intros v' w' [_ H]. by eapply append_failed_thrown.
    + intros p i Hp.
      destruct (wp_total _ _ _ _ _
                  (Emplace_spec T w v xs p i Hown (Nat.lt_le_incl _ _ Hp)))
        as (u & v' & w' & Hrun & _); eauto.
      intros v' w' [_ H]. by eapply emplace_failed_thrown.
Qed.

(** ** C10: shrinking keeps the storage *)

(** The call is free of undefined behaviour and, whether it returns or
    throws, leaves [data_] (the address of the block and the capacity) as
    it was and allocates and releases nothing. *)
Definition storage_kept {X A} (v : Vector) (w : world V) (this_after : X -> Vector)
    (r : result V X A) : Prop :=
  match r with
  | Ok _ x' w' | Throw x' w' =>
      data_ (this_after x') = data_ v /\ allocs w' = allocs w /\ frees w' = frees w
  | Fault => False
  end.

Lemma wp_storage_kept {X A} (m : M V X A) x (w : world V) Q E v this_after :
  wp m x w Q E ->
  (forall a x' w', Q a x' w' ->
     data_ (this_after x') = data_ v /\ allocs w' = allocs w /\ frees w' = frees w) ->
  (forall x' w', E x' w' ->
     data_ (this_after x') = data_ v /\ allocs w' = allocs w /\ frees w' = frees w) ->
  storage_kept v w this_after (m x w).
Proof.
  unfold wp, storage_kept. intros Hwp HQ HE.
  destruct (m x w); [by eapply HQ | by eapply HE | done].
Qed.

(** C10. [PopBack] on a non-empty vector, [Erase] at a valid position,
    [Resize] to a size not larger than the length, and copy assignment
    from a source that fits in the capacity (or from the vector itself)
    never reallocate: the capacity and the address of the storage block
    are unchanged, and no block is allocated or released. *)
Theorem shrinking_keeps_storage (w : world V) (v : Vector) (xs : list V) :
  owns w v xs ->
  (xs <> [] -> storage_kept v w id (PopBack v w)) /\
  (forall p, p < length xs ->
     storage_kept v w id (Erase T (ptr_add (begin v) (Z.of_nat p)) v w)) /\
  (forall n, n <= length xs -> storage_kept v w id (Resize T n v w)) /\
  (forall rhs ys, owns w rhs ys -> separate v rhs ->
     length ys <= capacity_ (data_ v) ->
     storage_kept v w this_of (Vector_copy_assign T (Two v rhs) w)) /\
  storage_kept v w this_of (Vector_copy_assign T (Same v) w).
Proof.
  intros Hown. split_and!.
  - intros Hne. destruct (nonempty_snoc xs Hne) as (ys & z & ->).
    eapply wp_storage_kept;
      [by apply PopBack_spec with (E := fun _ _ => False) (xs := ys) (z := z) | | done].
    intros a v' w' (_ & Hd & Hdelta). destruct Hdelta. simpl. split_and!; [done|lia|lia].
  - intros p Hp. eapply wp_storage_kept; [by apply Erase_spec | |].
    + intros a v' w' (_ & _ & Hd & Hdelta). destruct Hdelta.
      simpl. split_and!; [done|lia|lia].
    + intros v' w' (-> & Hdelta & _). destruct Hdelta. simpl. split_and!; [done|lia|lia].
  - intros n Hn. eapply wp_storage_kept;
      [by apply Resize_shrink_spec with (E := fun _ _ => False) | | done].
    intros a v' w' (_ & Hd & Hdelta). destruct Hdelta. simpl. split_and!; [done|lia|lia].
  - intros rhs ys Hrhs Hsep Hfit. eapply wp_storage_kept;
      [by apply Vector_copy_assign_spec | |].
    + intros a x' w' (this' & -> & _ & _ & Hin & _).
      destruct (Hin Hfit) as [Hd Hdelta]. destruct Hdelta.
      simpl. split_and!; [done|lia|lia].
    + intros x' w' (-> & Hfail).
      destruct Hfail as [(Hlt & _)|(_ & Hdelta & _)]; [lia|].
      destruct Hdelta. simpl. split_and!; [done|lia|lia].
  - simpl. done.
Qed.

End Claims.

(** * Concrete runs *)

Ltac concrete_owns :=
  unfold owns, storage, block_is, block_in;
  split_and!; vm_compute; reflexivity.

(** A full vector [[13]] of [Legacy] elements. *)
Definition legacy_full : Vector * world nat :=
  state_after (EmplaceBack Legacy (FromArgs 13)).

Lemma growth_strong_guarantee_witness :
  owns legacy_full.2 legacy_full.1 [13] /\
  exists v' w',
    PushBack Legacy (CopyOf 5) legacy_full.1 legacy_full.2 = Throw v' w' /\
    growth_rolled_back Legacy legacy_full.1 [13] (CopyOf 5) legacy_full.2 v' w'.
Proof.
  assert (owns legacy_full.2 legacy_full.1 [13]) as Hown by concrete_owns.
  split; [exact Hown|].
  eexists _, _. split; [vm_compute; reflexivity|].
  assert (relocates_by_move Legacy = true ->
          forall n v, throws Legacy n MoveCtor v = false) as Hsafe
    by (intros H; discriminate H).
  destruct (growth_strong_guarantee Legacy Hsafe _ _ _ Hown) as (_ & Hpush & _).
  apply Hpush. vm_compute. reflexivity.
Defined.

(** A full vector [[1; 13]] of [MoveOnly] elements. *)
Definition move_only_full : Vector * world nat :=
  state_after (EmplaceBack MoveOnly (FromArgs 1) ;; EmplaceBack MoveOnly (FromArgs 13)).

(** C1 as stated fails for a move-only type whose move constructor
    throws: [Reserve(4)] on [[1; 13]] moves the first element, throws on
    the second, and leaves [[0; 13]]. *)
Lemma growth_strong_guarantee_counterexample :
  owns move_only_full.2 move_only_full.1 [1; 13] /\
  exists v' w',
    Reserve MoveOnly 4 move_only_full.1 move_only_full.2 = Throw v' w' /\
    contents w' v' = Some [0; 13] /\
    contents w' v' <> contents move_only_full.2 move_only_full.1.
Proof.
  split; [concrete_owns|].
  eexists _, _. split; [vm_compute; reflexivity|].
  split; [vm_compute; reflexivity|]. vm_compute. discriminate.
Qed.

(** The relocating branch of [PushBack] does not destroy the new element
    when the relocation throws: on the full vector [[13]] of [Legacy]
    elements, [PushBack(5)] throws while copying 13 and leaves one object
    more alive than before, in no block. *)
Lemma PushBack_failed_relocation_leaks_new_element :
  exists v' w',
    PushBack Legacy (CopyOf 5) legacy_full.1 legacy_full.2 = Throw v' w' /\
    v' = legacy_full.1 /\ heap w' = heap legacy_full.2 /\
    live_blocks w' = live_blocks legacy_full.2 /\
    live_objects legacy_full.2 = 1%Z /\ live_objects w' = 2%Z.
Proof.
  eexists _, _. split; [vm_compute; reflexivity|].
  split_and!; vm_compute; reflexivity.
Qed.

(** Two vectors in one memory: the target [[1; 2]] and the source [[3]]. *)
Definition assign_target : Vector * world nat :=
  state_after (PushBack Int (CopyOf 1) ;; PushBack Int (CopyOf 2)).
Definition assign_source : Vector * world nat :=
  run_on (PushBack Int (CopyOf 3)) Vector_default assign_target.2.

(** The two vectors after the move assignment, and the memory after both
    have then been destroyed. *)
Definition after_move_assign : operands Vector * world nat :=
  match Vector_move_assign (Two assign_target.1 assign_source.1) assign_source.2 with
  | Ok _ x w | Throw x w => (x, w)
  | Fault => (Two assign_target.1 assign_source.1, assign_source.2)
  end.
Definition after_destruction : world nat :=
  (run_on (Vector_dtor (this_of after_move_assign.1) ;;
           Vector_dtor (other_of after_move_assign.1))
          Vector_default after_move_assign.2).2.

Lemma move_assign_leaks_target_witness :
  (owns assign_source.2 assign_target.1 [1; 2] /\
   blk (buffer_ (data_ assign_target.1)) = Some 1 /\
   blk (buffer_ (data_ assign_source.1)) <> Some 1) /\
  (exists this' rhs',
     Vector_move_assign (Two assign_target.1 assign_source.1) assign_source.2 =
       Ok tt (Two this' rhs') assign_source.2 /\
     blk (buffer_ (data_ this')) <> Some 1 /\ blk (buffer_ (data_ rhs')) <> Some 1 /\
     heap assign_source.2 !! 1 = Some [Some 1; Some 2]) /\
  (live_blocks after_destruction = 1%Z /\ live_objects after_destruction = 2%Z /\
   heap after_destruction !! 1 = Some [Some 1; Some 2]).
Proof.
  assert (owns assign_source.2 assign_target.1 [1; 2]) as Hown by concrete_owns.
  assert (blk (buffer_ (data_ assign_target.1)) = Some 1) as Hb
    by (vm_compute; reflexivity).
  assert (blk (buffer_ (data_ assign_source.1)) <> Some 1) as Hne
    by (vm_compute; discriminate).
  split; [by split_and!|]. split.
  - destruct (move_assign_leaks_target _ _ assign_source.1 _ _ Hown Hb Hne)
      as (this' & rhs' & Hrun & _ & _ & _ & H1 & H2 & H3).
    exists this', rhs'. split_and!; [exact Hrun | exact H1 | exact H2 | exact H3].
  - split_and!; vm_compute; reflexivity.
Defined.

(** C3 as stated fails for [PushBack]: the call expression has no value. *)
Lemma PushBack_returns_no_reference :
  exists v' w',
    call_PushBack Int (CopyOf 7) Vector_default empty_world = Ok Void v' w' /\
    forall p, Void <> Ref p.
Proof. eexists _, _. split; [vm_compute; reflexivity | discriminate]. Qed.

Lemma EmplaceBack_returns_last_witness :
  owns (V := nat) empty_world Vector_default [] /\
  (exists p v' w',
     call_EmplaceBack Int (FromArgs 7) Vector_default empty_world = Ok (Ref p) v' w' /\
     size_ v' = 1 /\
     Vector_index v' (size_ v' - 1) v' w' = Ok p v' w' /\
     load p v' w' = Ok 7 v' w') /\
  (exists v' w',
     call_PushBack Int (FromArgs 7) Vector_default empty_world = Ok Void v' w' /\
     size_ v' = 1 /\
     read_at v' (size_ v' - 1) v' w' = Ok 7 v' w').
Proof.
  assert (owns (V := nat) empty_world Vector_default []) as Hown by concrete_owns.
  split; [exact Hown|].
  destruct (EmplaceBack_returns_last Int empty_world Vector_default [] (FromArgs 7) Hown)
    as (Hemp & Hpush & Hret).
  destruct Hret as [(r & v' & w' & Hrun) (r2 & v2 & w2 & Hrun2)];
    [intros n op v; reflexivity|].
  split.
  - destruct (Hemp r v' w' Hrun) as (p & -> & Hs & Hidx & Hload).
    exists p, v', w'. split_and!; [exact Hrun | exact Hs | exact Hidx | exact Hload].
  - destruct (Hpush r2 v2 w2 Hrun2) as (-> & Hs & Hread).
    exists v2, w2. split_and!; [exact Hrun2 | exact Hs | exact Hread].
Defined.

(** A target [[7]] and a longer source [[1; 13]] of [Legacy] elements, in
    one memory. *)
Definition legacy_target : Vector * world nat :=
  state_after (EmplaceBack Legacy (FromArgs 7)).
Definition legacy_source : Vector * world nat :=
  run_on (EmplaceBack Legacy (FromArgs 1) ;; EmplaceBack Legacy (FromArgs 13))
         Vector_default legacy_target.2.

Lemma copy_assign_strong_guarantee_witness :
  (owns legacy_source.2 legacy_target.1 [7] /\
   owns legacy_source.2 legacy_source.1 [1; 13] /\
   separate legacy_target.1 legacy_source.1 /\
   capacity_ (data_ legacy_target.1) < length [1; 13]) /\
  exists x' w',
    Vector_copy_assign Legacy (Two legacy_target.1 legacy_source.1) legacy_source.2
      = Throw x' w' /\
    x' = Two legacy_target.1 legacy_source.1 /\
    contents w' (this_of x') = Some [7] /\
    heap w' = heap legacy_source.2 /\
    live_blocks w' = live_blocks legacy_source.2 /\
    live_objects w' = live_objects legacy_source.2.
Proof.
  assert (owns legacy_source.2 legacy_target.1 [7]) as Hthis by concrete_owns.
  assert (owns legacy_source.2 legacy_source.1 [1; 13]) as Hrhs by concrete_owns.
  assert (separate legacy_target.1 legacy_source.1) as Hsep
    by (unfold separate; vm_compute; discriminate).
  assert (capacity_ (data_ legacy_target.1) < length [1; 13]) as Hlt
    by (vm_compute; lia).
  split; [by split_and!|].
  eexists _, _. split; [vm_compute; reflexivity|].
  destruct (copy_assign_strong_guarantee Legacy _ _ _ _ _ Hthis Hrhs Hsep Hlt
              _ _ ltac:(vm_compute; reflexivity))
    as (Hx & _ & _ & _ & _ & Hc & Hh & Hb & Ho).
  split_and!; [exact Hx | exact Hc | exact Hh | exact Hb | exact Ho].
Defined.

Lemma Append_all_in_order_witness :
  owns (V := nat) empty_world Vector_default [] /\
  exists v' w',
    Append_all Int [(false, 1); (true, 2); (false, 3)] Vector_default empty_world
      = Ok tt v' w' /\
    size_ v' = 3 /\ contents w' v' = Some [1; 2; 3] /\
    read_at v' 0 v' w' = Ok 1 v' w' /\
    read_at v' 1 v' w' = Ok 2 v' w' /\
    read_at v' 2 v' w' = Ok 3 v' w'.
Proof.
  assert (owns (V := nat) empty_world Vector_default []) as Hown by concrete_owns.
  split; [exact Hown|].
  eexists _, _. split; [vm_compute; reflexivity|].
  destruct (Append_all_in_order Int empty_world Vector_default
              [(false, 1); (true, 2); (false, 3)] Hown) as (Hok & _).
  destruct (Hok _ _ _ ltac:(vm_compute; reflexivity)) as (Hs & Hc & Hat).
  split_and!; [exact Hs | exact Hc | | |]; by apply Hat.
Defined.

(** The vector [[1; 2; 3]] of capacity 4 that three Appends build. *)
Definition three_ints : Vector * world nat :=
  state_after (Append_all Int [(false, 1); (false, 2); (false, 3)]).


(** The request C6 fails on: [Reserve(2^62 + 2)] on a vector of three
    4-byte elements.  The byte count wraps around to 8, so the block has
    room for two objects; the three elements do not fit in it. *)
Lemma Reserve_request_wraps :
  ~ allocation_fits Int (Z.to_nat (2 ^ 62 + 2)) /\
  allocation_bytes Int (Z.to_nat (2 ^ 62 + 2)) = 8%Z /\
  allocation_room Int (Z.to_nat (2 ^ 62 + 2)) = 2%Z /\
  (allocation_room Int (Z.to_nat (2 ^ 62 + 2)) < Z.of_nat (length [1; 2; 3]))%Z.
Proof.
  unfold allocation_fits, allocation_room, allocation_bytes.
  rewrite Z2Nat.id by lia. cbn [sizeof_ Int length].
  assert (((2 ^ 62 + 2) * 4) mod (SIZE_MAX + 1) = 8)%Z as -> by reflexivity.
  split_and!; [unfold SIZE_MAX; lia | done | done | done].
Qed.

Lemma Insert_then_Erase_witness :
  (owns three_ints.2 three_ints.1 [1; 2; 3] /\ 1 <= length [1; 2; 3]) /\
  exists it v1 w1 it' v2 w2,
    Insert Int false (ptr_add (begin three_ints.1) 1) 9 three_ints.1 three_ints.2
      = Ok it v1 w1 /\
    contents w1 v1 = Some [1; 9; 2; 3] /\
    Erase Int (ptr_add (begin v1) 1) v1 w1 = Ok it' v2 w2 /\
    contents w2 v2 = Some [1; 2; 3] /\ size_ v2 = 3.
Proof.
  assert (owns three_ints.2 three_ints.1 [1; 2; 3]) as Hown by concrete_owns.
  assert (1 <= length [1; 2; 3]) as Hp by (simpl; lia).
  split; [by split|].
  destruct (Insert_then_Erase Int _ _ _ 1 9 false Hown Hp) as (Hround & _).
  eexists _, _, _, _, _, _.
  split; [vm_compute; reflexivity|].
  split; [vm_compute; reflexivity|].
  split; [vm_compute; reflexivity|].
  destruct (Hround _ _ _ _ _ _ ltac:(vm_compute; reflexivity)
              ltac:(vm_compute; reflexivity)) as (_ & Hc & Hs).
  split; [exact Hc | exact Hs].
Defined.

(** An empty vector of capacity 8. *)
Definition roomy : Vector * world nat := state_after (Reserve Int 8).

(** C8 as stated fails when the capacity already exceeds [n]:
    [Reserve(2)] on an empty vector of capacity 8 followed by one Append
    leaves the capacity at 8, not at 2. *)
Lemma Reserve_then_Appends_counterexample :
  owns roomy.2 roomy.1 [] /\
  exists v2 w2,
    (Reserve Int 2 ;; Append_all Int [(false, 7)]) roomy.1 roomy.2 = Ok tt v2 w2 /\
    size_ v2 <= 2 /\ capacity_ (data_ v2) = 8 /\ capacity_ (data_ v2) <> 2.
Proof.
  split; [concrete_owns|].
  eexists _, _. split; [vm_compute; reflexivity|].
  split_and!; vm_compute; [lia | reflexivity | discriminate].
Qed.

(** [Reserve(10)] on an empty vector followed by ten Appends allocates
    exactly one block in total. *)
Lemma Reserve_then_Appends_witness :
  (owns (V := nat) empty_world Vector_default [] /\
   length (@nil nat) + length (replicate 10 (false, 5)) <= 10 /\
   allocation_fits Int 10) /\
  exists v1 w1 v2 w2,
    Reserve Int 10 Vector_default empty_world = Ok tt v1 w1 /\
    Append_all Int (replicate 10 (false, 5)) v1 w1 = Ok tt v2 w2 /\
    allocs w2 = 1 /\ capacity_ (data_ v2) = 10 /\ size_ v2 = 10 /\
    data_ v2 = data_ v1.
Proof.
  assert (owns (V := nat) empty_world Vector_default []) as Hown by concrete_owns.
  assert (length (@nil nat) + length (replicate 10 (false, 5)) <= 10) as Hfit
    by (vm_compute; lia).
  split; [split; [exact Hown | split; [exact Hfit | vm_compute; discriminate]]|].
  eexists _, _, _, _.
  split; [vm_compute; reflexivity|].
  split; [vm_compute; reflexivity|].
  assert (capacity_ (data_ (@Vector_default)) < 10 -> allocation_fits Int 10) as Halloc
    by (intros _; vm_compute; discriminate).
  destruct (Reserve_then_Appends Int _ _ _ 10 (replicate 10 (false, 5)) Hown Hfit Halloc
              _ _ _ ltac:(vm_compute; reflexivity)) as (Hok & _).
  destruct (Hok _ _ _ ltac:(vm_compute; reflexivity))
    as (_ & _ & Hd & Hcap & Hallocs & Hs & _).
  split_and!; [exact Hallocs | exact Hcap | exact Hs | exact Hd].
Defined.

(** The full vector [[1; 2]] that two Appends build. *)
Definition two_ints : Vector * world nat :=
  state_after (Append_all Int [(false, 1); (false, 2)]).

Lemma full_vector_growth_witness :
  (owns two_ints.2 two_ints.1 [1; 2] /\
   size_ two_ints.1 = capacity_ (data_ two_ints.1)) /\
  (exists v' w',
     PushBack Int (CopyOf 3) two_ints.1 two_ints.2 = Ok tt v' w' /\
     capacity_ (data_ v') = 4) /\
  (exists r v' w',
     Emplace Int (ptr_add (begin two_ints.1) 1) (FromArgs 9) two_ints.1 two_ints.2
       = Ok r v' w' /\
     capacity_ (data_ v') = 4) /\
  (exists r v' w',
     EmplaceBack (V := nat) Int (FromArgs 9) Vector_default empty_world = Ok r v' w' /\
     capacity_ (data_ v') = 1).
Proof.
  assert (owns two_ints.2 two_ints.1 [1; 2]) as Hown by concrete_owns.
  assert (size_ two_ints.1 = capacity_ (data_ two_ints.1)) as Hfull
    by (vm_compute; reflexivity).
  split; [by split|].
  destruct (full_vector_growth Int _ _ _ Hown Hfull) as (Hpush & _ & Hemp & _).
  assert (owns (V := nat) empty_world Vector_default []) as Hown0 by concrete_owns.
  destruct (full_vector_growth Int _ _ _ Hown0 eq_refl) as (_ & Hback & _).
  split_and!.
  - eexists _, _. split; [vm_compute; reflexivity|].
    etrans; [eapply (Hpush (CopyOf 3) tt); vm_compute; reflexivity|].
    vm_compute. reflexivity.
  - eexists _, _, _. split; [vm_compute; reflexivity|].
    etrans; [eapply (Hemp 1 (FromArgs 9)); [simpl; lia | vm_compute; reflexivity]|].
    vm_compute. reflexivity.
  - eexists _, _, _. split; [vm_compute; reflexivity|].
    etrans; [eapply (Hback (FromArgs 9)); vm_compute; reflexivity|].
    vm_compute. reflexivity.
Defined.

Lemma shrinking_keeps_storage_witness :
  owns three_ints.2 three_ints.1 [1; 2; 3] /\
  storage_kept three_ints.1 three_ints.2 id (PopBack three_ints.1 three_ints.2) /\
  storage_kept three_ints.1 three_ints.2 id
    (Erase Int (ptr_add (begin three_ints.1) 0) three_ints.1 three_ints.2) /\
  storage_kept three_ints.1 three_ints.2 id (Resize Int 1 three_ints.1 three_ints.2) /\
  storage_kept three_ints.1 three_ints.2 this_of
    (Vector_copy_assign Int (Two three_ints.1 Vector_default) three_ints.2).
Proof.
  assert (owns three_ints.2 three_ints.1 [1; 2; 3]) as Hown by concrete_owns.
  split; [exact Hown|].
  destruct (shrinking_keeps_storage Int _ _ _ Hown)
    as (Hpop & Herase & Hresize & Hcopy & _).
  refine (conj _ (conj _ (conj _ _))).
  - apply Hpop. discriminate.
  - apply (Herase 0). simpl. lia.
  - apply (Hresize 1). simpl. lia.
  - apply (Hcopy Vector_default []); [concrete_owns | | vm_compute; lia].
    unfold separate. vm_compute. discriminate.
Defined.

(** * Further properties of the member functions *)

(** ** Construction and destruction *)

Section Construction.
Context {V : Type} (T : ElemType V).

Lemma uninitialized_value_construct_n_spec {X} (x : X) n :
  forall (w : world V) p d1 d2,
  block_is w (blk p) (d1 ++ replicate n None ++ d2) ->
  off p = Z.of_nat (length d1) ->
  wp (uninitialized_value_construct_n T p n) x w
    (fun _ x' w' =>
       x' = x /\
       heap w' = write_block (blk p)
                   (d1 ++ (Some <$> replicate n (default_value T)) ++ d2) (heap w) /\
       frame w w' (Z.of_nat n))
    (fun x' w' => x' = x /\ heap w' = heap w /\ frame w w' 0 /\ thrown T DefaultCtor).
Proof.
  induction n as [|n IH]; intros w p d1 d2 Hp Hop.
  - apply wp_ret. split_and!; [done | | apply frame_refl].
    symmetry. by apply write_block_id.
  - cbn [uninitialized_value_construct_n replicate app] in *.
    eapply wp_bind.
    { by apply construct_at_spec with (l1 := d1) (l2 := replicate n None ++ d2). }
    + intros [] x1 w1 (-> & Hh1 & Hf1 & _). cbn [init_value] in Hh1.
      assert (block_is w1 (blk p)
                (d1 ++ Some (default_value T) :: replicate n None ++ d2)) as Hp1
        by (eapply block_is_write; [exact Hh1 | exact Hp | solve_off]).
      eapply wp_on_throw.
      * apply (IH w1 (ptr_add p 1) (d1 ++ [Some (default_value T)]) d2).
        -- by rewrite <- app_assoc.
        -- solve_off.
      * intros _ x2 w2 (-> & Hh2 & Hf2). split_and!; [done | |].
        -- cbn [ptr_add blk] in Hh2. rewrite Hh2, Hh1, write_block_write.
           rewrite <- app_assoc. by rewrite fmap_cons.
        -- eapply frame_trans; [exact Hf1 | exact Hf2 | lia].
      * intros x2 w2 (-> & Hh2 & Hf2 & Hthr).
        eapply wp_mono.
        { apply destroy_at_spec with (v := default_value T) (l1 := d1)
            (l2 := replicate n None ++ d2); [|done].
          by eapply block_is_same_heap. }
        -- intros _ x3 w3 (-> & Hh3 & Hf3).
           instantiate (1 := fun x' w' =>
             x' = x /\ heap w' = heap w /\ frame w w' 0 /\ thrown T DefaultCtor).
           split_and!; [done | | | done].
           ++ rewrite Hh3, Hh2, Hh1, write_block_write. by apply write_block_id.
           ++ eapply frame_trans; [|exact Hf3|];
                [eapply frame_trans; [exact Hf1 | exact Hf2 | reflexivity] | lia].
        -- done.
      * done.
    + intros x1 w1 (-> & Hh1 & Hf1 & Hthr & _). done.
Qed.

(** A block just obtained by [RawMemory(n)] holds [n] raw slots. *)
Lemma fresh_block_is (w w1 : world V) (nd : RawMemory) n :
  heap w1 = write_block (blk (buffer_ nd)) (replicate n None) (heap w) ->
  (blk (buffer_ nd) = None <-> n = 0) ->
  block_is w1 (blk (buffer_ nd)) (replicate n None).
Proof.
  intros Hh1 Hnull. unfold block_is. rewrite Hh1.
  destruct (blk (buffer_ nd)) as [b|] eqn:Hbn; [apply lookup_insert_eq|].
  destruct Hnull as [Hnull _]. by rewrite (Hnull eq_refl).
Qed.

Lemma fresh_block_count (nd : RawMemory) n :
  (blk (buffer_ nd) = None <-> n = 0) ->
  block_count (blk (buffer_ nd)) = if n =? 0 then 0 else 1.
Proof.
  intros [H1 H2]. destruct (blk (buffer_ nd)) eqn:Hbn, (Nat.eqb_spec n 0); try done.
  - by specialize (H2 e).
  - by specialize (H1 eq_refl).
Qed.

Lemma Vector_ctor_spec {X} (x : X) (w : world V) n :
  wp (Vector_ctor T n) x w
    (fun r x' w' =>
       x' = x /\ owns w' r (replicate n (default_value T)) /\
       capacity_ (data_ r) = n /\
       (forall b, blk (buffer_ (data_ r)) = Some b -> heap w !! b = None) /\
       heap w' = write_block (blk (buffer_ (data_ r)))
                   (Some <$> replicate n (default_value T)) (heap w) /\
       delta w w' (if n =? 0 then 0 else 1) 0 (Z.of_nat n))
    (fun x' w' =>
       x' = x /\ heap w' = heap w /\ (exists k, delta w w' k k 0) /\
       thrown T DefaultCtor).
Proof.
  unfold Vector_ctor, GetAddress.
  eapply wp_bind; [apply RawMemory_ctor_spec with (E := fun _ _ => False) | | done].
  intros nd x1 w1 (-> & Hcap & Hoff & Hfresh & Hh1 & Hd1 & _ & Hnull).
  pose proof (fresh_block_is _ _ _ _ Hh1 Hnull) as Hnd1.
  eapply wp_bind.
  { eapply wp_on_throw.
    - apply uninitialized_value_construct_n_spec with (d1 := []) (d2 := []);
        [|done]. cbn [app]. by rewrite app_nil_r.
    - intros r x2 w2 H2. exact H2.
    - intros x2 w2 (-> & Hh2 & Hf2 & Hthr).
      eapply wp_mono.
      { apply RawMemory_dtor_spec with (l := replicate n None)
          (E := fun _ _ => False).
        split_and!; [done | solve_off | by eapply block_is_same_heap]. }
      + intros _ x3 w3 (-> & Hh3 & Hd3).
        instantiate (1 := fun x' w' =>
          x' = x /\ heap w' = heap w /\ (exists k, delta w w' k k 0) /\
          thrown T DefaultCtor).
        split_and!; [done | | | done].
        * rewrite Hh3, Hh2, Hh1. by apply drop_write_fresh.
        * exists (if n =? 0 then 0 else 1).
          rewrite (fresh_block_count _ _ Hnull) in Hd3. bookkeeping.
      + done.
    - intros x2 w2 H2. exact H2. }
  2: { intros x2 w2 H2. exact H2. }
  intros [] x2 w2 (-> & Hh2 & Hf2). cbn [app blk] in Hh2. rewrite app_nil_r in Hh2.
  apply wp_ret.
  split_and!; [done | | done | done | | bookkeeping].
  - split; [cbn [size_]; by rewrite length_replicate|]. cbn [data_].
    rewrite length_replicate, Hcap, Nat.sub_diag. cbn [replicate].
    rewrite app_nil_r.
    split_and!; [done | solve_off |].
    unfold block_is. rewrite Hh2.
    eapply block_in_write; [exact Hnd1 | solve_off].
  - cbn [data_]. by rewrite Hh2, Hh1, write_block_write.
Qed.

End Construction.

Section Lifetime.
Context {V : Type} (T : ElemType V).

Lemma delta_live_objects (w w' : world V) da df d :
  delta w w' da df d -> live_objects w' = (live_objects w + d)%Z.
Proof. by intros []. Qed.

(** X1. [RawMemory(n)], for a byte count [n * sizeof(T)] that does not
    wrap around, obtains one block of [n] raw slots, none for [n = 0];
    [operator+] accepts the one-past-the-end offset [n], [operator[]]
    rejects the index [n], and [~RawMemory()] gives the block back, which
    leaves the memory as it was before the constructor ran. *)
Theorem RawMemory_lifetime {X} (x : X) (w : world V) (n : nat) :
  allocation_fits T n ->
  exists m w',
    RawMemory_ctor n x w = Ok m x w' /\
    capacity_ m = n /\ allocation_room T n = Z.of_nat (capacity_ m) /\
    storage w' m (replicate n None) /\
    (n = 0 -> m = RawMemory_default /\ w' = w) /\
    (0 < n ->
       exists b, buffer_ m = Ptr (Some b) 0 /\ heap w !! b = None /\
                 allocs w' = S (allocs w) /\ frees w' = frees w) /\
    RawMemory_plus m n x w' = Ok (ptr_add (buffer_ m) (Z.of_nat n)) x w' /\
    RawMemory_index m n x w' = Fault /\
    exists w'',
      RawMemory_dtor m x w' = Ok tt x w'' /\
      heap w'' = heap w /\ live_blocks w'' = live_blocks w /\
      live_objects w'' = live_objects w.
Proof.
  intros Hfits.
  destruct (wp_returns _ _ _ _ (RawMemory_ctor_spec x w n (fun _ _ => False)))
    as (m & x1 & w1 & Hrun & -> & Hcap & Hoff & Hfresh & Hh1 & Hd1 & _ & Hnull).
  pose proof (fresh_block_is _ _ _ _ Hh1 Hnull) as Hb1.
  assert (storage w1 m (replicate n None)) as Hst
    by (split_and!; [done | solve_off | done]).
  exists m, w1. split_and!; [done | done | | done | | | | |].
  - rewrite Hcap. by apply allocation_fits_room.
  - intros ->. revert Hrun. unfold RawMemory_ctor, Allocate, bind, ret. simpl.
    by intros [= <- <-].
  - intros Hn. revert Hrun. unfold RawMemory_ctor, Allocate, bind, ret, operator_new.
    destruct (Nat.eqb_spec n 0) as [|_]; [lia|]. simpl.
    intros [= <- <-]. eexists. split_and!; [done | | done | done].
    apply not_elem_of_dom, is_fresh.
  - unfold RawMemory_plus, assert, bind, ret. rewrite Hcap.
    by destruct (Nat.leb_spec n n); [|lia].
  - unfold RawMemory_index, assert, bind, ret, fault. rewrite Hcap.
    by destruct (Nat.ltb_spec n n); [lia|].
  - destruct (wp_returns _ _ _ _
                (RawMemory_dtor_spec x w1 m _ (fun _ _ => False) Hst))
      as ([] & x2 & w2 & Hrun2 & -> & Hh2 & Hd2).
    exists w2. split_and!; [done | | |].
    + rewrite Hh2, Hh1. by apply drop_write_fresh.
    + rewrite (fresh_block_count _ _ Hnull) in Hd2.
      unfold live_blocks. destruct Hd1, Hd2. lia.
    + bookkeeping.
Qed.

(** X2. [Vector(size)], for a byte count [size * sizeof(T)] that does not
    wrap around, builds [size] value-initialised elements in a block of
    exactly [size] slots.  When a default constructor throws, the elements
    already built are destroyed and the block is released: the memory is
    as it was. *)
Theorem Vector_ctor_value_initialises {X} (x : X) (w : world V) (n : nat) :
  allocation_fits T n ->
  (forall r x' w',
     Vector_ctor T n x w = Ok r x' w' ->
     owns w' r (replicate n (default_value T)) /\
     size_ r = n /\ capacity_ (data_ r) = n /\
     allocation_room T n = Z.of_nat (capacity_ (data_ r)) /\
     allocs w' = allocs w + (if n =? 0 then 0 else 1) /\ frees w' = frees w /\
     live_objects w' = (live_objects w + Z.of_nat n)%Z) /\
  (forall x' w',
     Vector_ctor T n x w = Throw x' w' ->
     heap w' = heap w /\ live_blocks w' = live_blocks w /\
     live_objects w' = live_objects w) /\
  Vector_ctor T n x w <> Fault /\
  (nothrow T -> exists r x' w', Vector_ctor T n x w = Ok r x' w').
Proof.
  intros Hfits. pose proof (Vector_ctor_spec T x w n) as Hspec.
  split_and!.
  - intros r x' w' Hrun.
    destruct (wp_Ok _ _ _ _ _ _ _ _ Hspec Hrun) as (_ & Hown & Hcap & _ & _ & Hd).
    split_and!; [done | | done | | bookkeeping | bookkeeping | bookkeeping].
    + rewrite (owns_size _ _ _ Hown). apply length_replicate.
    + rewrite Hcap. by apply allocation_fits_room.
  - intros x' w' Hrun.
    destruct (wp_Throw _ _ _ _ _ _ _ Hspec Hrun) as (_ & Hh & (k & Hd) & _).
    split_and!; [done | by eapply delta_live_blocks | ].
    rewrite (delta_live_objects _ _ _ _ _ Hd). lia.
  - by eapply wp_not_Fault.
  - intros Hno.
    destruct (wp_total T _ _ _ _ _ Hspec) as (r & x' & w' & Hrun & _); [|done|eauto].
    intros x' w' (_ & _ & _ & Hthr). eauto.
Qed.

(** X3. [Vector(const Vector&)] builds an independent copy in a fresh block of
    exactly as many slots as the source has elements, and leaves the source
    as it is.  When a copy constructor throws, the memory is as it was. *)
Theorem Vector_copy_ctor_copies {X} (x : X) (w : world V) (other : Vector)
    (ys : list V) :
  owns w other ys ->
  (forall r x' w',
     Vector_copy_ctor T other x w = Ok r x' w' ->
     owns w' r ys /\ owns w' other ys /\ separate r other /\
     size_ r = length ys /\ capacity_ (data_ r) = length ys /\
     allocs w' = allocs w + (if length ys =? 0 then 0 else 1) /\
     frees w' = frees w /\
     live_objects w' = (live_objects w + Z.of_nat (length ys))%Z) /\
  (forall x' w',
     Vector_copy_ctor T other x w = Throw x' w' ->
     heap w' = heap w /\ live_blocks w' = live_blocks w /\
     live_objects w' = live_objects w) /\
  Vector_copy_ctor T other x w <> Fault /\
  (nothrow T -> exists r x' w', Vector_copy_ctor T other x w = Ok r x' w').
Proof.
  intros Hown. pose proof (Vector_copy_ctor_spec T x w other ys Hown) as Hspec.
  split_and!.
  - intros r x' w' Hrun.
    destruct (wp_Ok _ _ _ _ _ _ _ _ Hspec Hrun)
      as (_ & Hr & Hcap & Hfresh & Hh & Hd).
    assert (separate r other) as Hsep.
    { intros Heq. destruct (blk (buffer_ (data_ r))) as [b|] eqn:Hb; [|done].
      specialize (Hfresh b eq_refl).
      destruct Hown as (_ & _ & _ & Hbo). unfold block_is, block_in in Hbo.
      rewrite <- Heq in Hbo. congruence. }
    split_and!; [done | | done | exact (owns_size _ _ _ Hr) | done
                 | bookkeeping | bookkeeping | bookkeeping].
    eapply owns_other_block; [exact Hown|]. intros l Hl.
    destruct (decide (blk (buffer_ (data_ r)) = blk (buffer_ (data_ other))))
      as [Heq|Hne].
    + specialize (Hsep Heq). rewrite Hsep in Hh. simpl in Hh.
      by eapply block_is_same_heap.
    + by eapply block_is_write_ne.
  - intros x' w' Hrun.
    destruct (wp_Throw _ _ _ _ _ _ _ Hspec Hrun) as (_ & Hh & (k & Hd) & _).
    split_and!; [done | by eapply delta_live_blocks | ].
    rewrite (delta_live_objects _ _ _ _ _ Hd). lia.
  - by eapply wp_not_Fault.
  - intros Hno.
    destruct (wp_total T _ _ _ _ _ Hspec) as (r & x' & w' & Hrun & _); [|done|eauto].
    intros x' w' (_ & _ & _ & Hthr). eauto.
Qed.

Lemma bind_Ok_inv {X A B} (m : M V X A) (f : A -> M V X B) x (w : world V) b x' w' :
  bind m f x w = Ok b x' w' ->
  exists a x1 w1, m x w = Ok a x1 w1 /\ f a x1 w1 = Ok b x' w'.
Proof. unfold bind. destruct (m x w) as [a x1 w1| |]; [eauto | done | done]. Qed.

(** The copy holds a block exactly when the source has elements. *)
Lemma Vector_copy_ctor_block {X} (x : X) (w : world V) other r x' w' :
  Vector_copy_ctor T other x w = Ok r x' w' ->
  block_count (blk (buffer_ (data_ r))) = if size_ other =? 0 then 0 else 1.
Proof.
  unfold Vector_copy_ctor. intros Hrun.
  apply bind_Ok_inv in Hrun as (nd & x1 & w1 & Hctor & Hrun).
  apply bind_Ok_inv in Hrun as (u & x2 & w2 & _ & [= <- _ _]). cbn [data_].
  pose proof (wp_Ok _ _ _ _ _ _ _ _
                (RawMemory_ctor_spec x w (size_ other) (fun _ _ => False)) Hctor)
    as (_ & _ & _ & _ & _ & _ & _ & Hnull).
  by apply fresh_block_count.
Qed.

Lemma Vector_dtor_returns {X} (x : X) (w : world V) (v : Vector) (xs : list V) :
  owns w v xs ->
  exists w',
    Vector_dtor v x w = Ok tt x w' /\
    heap w' = drop_block (blk (buffer_ (data_ v))) (heap w) /\
    allocs w' = allocs w /\
    frees w' = frees w + block_count (blk (buffer_ (data_ v))) /\
    live_objects w' = (live_objects w - Z.of_nat (length xs))%Z.
Proof.
  intros Hown.
  destruct (wp_returns _ _ _ _ (Vector_dtor_spec x w v xs (fun _ _ => False) Hown))
    as ([] & x' & w' & Hrun & -> & Hh & Hd).
  exists w'. split_and!; [done | done | bookkeeping | bookkeeping | bookkeeping].
Qed.

(** The address of element [i] of a vector, and the value stored there. *)
Lemma owns_element {X} (x : X) (w : world V) (v : Vector) (xs : list V) i a :
  owns w v xs -> xs !! i = Some a ->
  Vector_index v i x w = Ok (ptr_add (begin v) (Z.of_nat i)) x w /\
  load (ptr_add (begin v) (Z.of_nat i)) x w = Ok a x w.
Proof.
  intros Hown Hi. pose proof (owns_le_capacity _ _ _ Hown) as Hlen.
  pose proof (owns_size _ _ _ Hown) as Hs.
  pose proof (lookup_lt_Some _ _ _ Hi) as Hlt.
  assert (Vector_index v i x w = Ok (ptr_add (begin v) (Z.of_nat i)) x w) as Hidx.
  { unfold Vector_index, RawMemory_index, bind, assert, ret.
    destruct (Nat.ltb_spec i (size_ v)); [|lia].
    by destruct (Nat.ltb_spec i (capacity_ (data_ v))); [|lia]. }
  split; [done|].
  pose proof (owns_read_at x w v xs i a Hown Hi) as Hread.
  unfold read_at, bind in Hread. by rewrite Hidx in Hread.
Qed.

(** X4. [~Vector()] never fails on a vector in a valid state: it destroys
    every element once and releases the block once. *)
Theorem Vector_dtor_releases {X} (x : X) (w : world V) (v : Vector) (xs : list V) :
  owns w v xs ->
  exists w',
    Vector_dtor v x w = Ok tt x w' /\
    heap w' = drop_block (blk (buffer_ (data_ v))) (heap w) /\
    allocs w' = allocs w /\
    frees w' = frees w + block_count (blk (buffer_ (data_ v))) /\
    live_objects w' = (live_objects w - Z.of_nat (length xs))%Z.
Proof.
  intros Hown.
  pose proof (Vector_dtor_spec x w v xs (fun _ _ => False) Hown) as Hspec.
  unfold wp in Hspec.
  destruct (Vector_dtor v x w) as [[] x' w'|x' w'|] eqn:Hrun; [|done|done].
  destruct Hspec as (-> & Hh & Hd).
  exists w'. split_and!; [done | done | bookkeeping | bookkeeping | bookkeeping].
Qed.

(** A temporary copy, [{ Vector tmp(other); }]: whether the copy
    constructor returns or throws, the memory afterwards is exactly the
    memory before, and nothing is left allocated or alive. *)
Definition temporary_copy {X} (other : Vector) : M V X unit :=
  tmp <- Vector_copy_ctor T other ;; Vector_dtor tmp.

(** X5. The memory after a temporary copy has been built and destroyed,
    or after its construction has thrown, is the memory before. *)
Theorem temporary_copy_restores_memory {X} (x : X) (w : world V) (other : Vector)
    (ys : list V) :
  owns w other ys ->
  match temporary_copy other x w with
  | Ok _ x' w' | Throw x' w' =>
      x' = x /\ heap w' = heap w /\ live_blocks w' = live_blocks w /\
      live_objects w' = live_objects w
  | Fault => False
  end.
Proof.
  intros Hown. pose proof (Vector_copy_ctor_spec T x w other ys Hown) as Hspec.
  unfold temporary_copy, bind.
  destruct (Vector_copy_ctor T other x w) as [r x1 w1|x1 w1|] eqn:Hrun.
  - destruct (wp_Ok _ _ _ _ _ _ _ _ Hspec Hrun)
      as (-> & Hr & Hcap & Hfresh & Hh1 & Hd1).
    pose proof (Vector_copy_ctor_block _ _ _ _ _ _ Hrun) as Hbc.
    rewrite (owns_size _ _ _ Hown) in Hbc.
    destruct (wp_returns _ _ _ _
                (Vector_dtor_spec x w1 r ys (fun _ _ => False) Hr))
      as ([] & x2 & w2 & Hrun2 & -> & Hh2 & Hd2).
    rewrite Hrun2. split_and!; [done | | |].
    + rewrite Hh2, Hh1. by apply drop_write_fresh.
    + rewrite Hbc in Hd2. unfold live_blocks. destruct Hd1, Hd2. lia.
    + bookkeeping.
  - destruct (wp_Throw _ _ _ _ _ _ _ Hspec Hrun) as (-> & Hh & (k & Hd) & _).
    split_and!; [done | done | by eapply delta_live_blocks |].
    rewrite (delta_live_objects _ _ _ _ _ Hd). lia.
  - by eapply wp_not_Fault.
Qed.

End Lifetime.

(** ** Transfer of ownership *)

Section Ownership.
Context {V : Type}.

Lemma owns_default (w : world V) : owns w Vector_default [].
Proof. by split_and!. Qed.

(** X6. [Vector(Vector&&)] hands the block and the elements over to the new
    vector without touching the memory, and leaves the source a valid empty
    vector: destroying both afterwards releases the block exactly once. *)
Theorem Vector_move_ctor_transfers {X} (x : X) (w : world V) (other : Vector)
    (xs : list V) :
  owns w other xs ->
  owns w (Vector_move_ctor other).1 xs /\
  data_ (Vector_move_ctor other).1 = data_ other /\
  (Vector_move_ctor other).2 = Vector_default /\
  exists w1 w2,
    Vector_dtor (Vector_move_ctor other).2 x w = Ok tt x w1 /\
    Vector_dtor (Vector_move_ctor other).1 x w1 = Ok tt x w2 /\
    allocs w2 = allocs w /\
    frees w2 = frees w + block_count (blk (buffer_ (data_ other))) /\
    live_objects w2 = (live_objects w - Z.of_nat (length xs))%Z.
Proof.
  intros Hown. destruct other as [[b c] s].
  unfold Vector_move_ctor, RawMemory_move_ctor. cbn [fst snd data_ buffer_ capacity_ size_].
  split_and!; [done | done | done |].
  destruct (Vector_dtor_returns x w Vector_default [] (owns_default w))
    as (w1 & Hrun1 & Hh1 & Ha1 & Hf1 & Ho1).
  assert (w1 = w) as -> by (revert Hrun1; by intros [= <-]).
  destruct (Vector_dtor_returns x w _ xs Hown) as (w2 & Hrun2 & Hh2 & Ha2 & Hf2 & Ho2).
  exists w, w2. by split_and!.
Qed.

(** X7. [Swap] exchanges the storage and the sizes of two vectors, so that
    each ends up holding the other's elements; it touches no element and no
    block.  Swapping twice, or swapping a vector with itself, changes
    nothing. *)
Theorem Vector_Swap_exchanges (w : world V) (a b : Vector) (xs ys : list V) :
  owns w a xs -> owns w b ys ->
  (exists a' b',
     Vector_Swap (Two a b) w = Ok tt (Two a' b') w /\
     owns w a' ys /\ owns w b' xs /\ data_ a' = data_ b /\ data_ b' = data_ a) /\
  (Vector_Swap ;; Vector_Swap) (Two a b) w = Ok tt (Two a b) w /\
  Vector_Swap (Same a) w = Ok tt (Same a) w.
Proof.
  intros Ha Hb. destruct a as [[ab ac] asz], b as [[bb bc] bsz].
  split_and!; [|done|done].
  eexists _, _. split; [reflexivity|]. by split_and!.
Qed.

(** X8. Move assignment into a vector that holds no block hands the source's
    block and elements over and leaves the source empty; destroying both
    afterwards releases the block exactly once.  Move assignment of a
    vector to itself leaves it as it is. *)
Theorem Vector_move_assign_transfers {X} (x : X) (w : world V) (this rhs : Vector)
    (ys : list V) :
  owns w this [] -> blk (buffer_ (data_ this)) = None ->
  owns w rhs ys ->
  (exists this',
     Vector_move_assign (Two this rhs) w = Ok tt (Two this' Vector_default) w /\
     owns w this' ys /\ data_ this' = data_ rhs /\
     exists w1 w2,
       Vector_dtor Vector_default x w = Ok tt x w1 /\
       Vector_dtor this' x w1 = Ok tt x w2 /\
       allocs w2 = allocs w /\
       frees w2 = frees w + block_count (blk (buffer_ (data_ this)))
                          + block_count (blk (buffer_ (data_ rhs))) /\
       live_objects w2 = (live_objects w - Z.of_nat (length ys))%Z) /\
  Vector_move_assign (Same rhs) w = Ok tt (Same rhs) w.
Proof.
  intros Hthis Hnull Hrhs. destruct this as [[tb tc] ts], rhs as [[rb rc] rs].
  split; [|done].
  eexists. split.
  { unfold Vector_move_assign, RawMemory_move_assign, bind, get, put. cbn.
    reflexivity. }
  split_and!; [done | done |].
  destruct (Vector_dtor_returns x w Vector_default [] (owns_default w))
    as (w1 & Hrun1 & Hh1 & Ha1 & Hf1 & Ho1).
  assert (w1 = w) as -> by (revert Hrun1; by intros [= <-]).
  destruct (Vector_dtor_returns x w _ ys Hrhs) as (w2 & Hrun2 & Hh2 & Ha2 & Hf2 & Ho2).
  exists w, w2. cbn [data_ buffer_] in *. rewrite Hnull.
  split_and!; [done | done | done | simpl; lia | done].
Qed.

End Ownership.

(** ** Element access and removal *)

Section Access.
Context {V : Type} (T : ElemType V).

(** X9. [v[i]] designates element [i], at address [begin() + i], for every
    [i] below the size, and fails its assertion for every other index;
    [end()] is [begin() + Size()]. *)
Theorem Vector_index_in_bounds {X} (x : X) (w : world V) (v : Vector) (xs : list V) :
  owns w v xs ->
  (forall i a, xs !! i = Some a ->
     Vector_index v i x w = Ok (ptr_add (begin v) (Z.of_nat i)) x w /\
     read_at v i x w = Ok a x w) /\
  (forall i, length xs <= i -> Vector_index v i x w = Fault) /\
  vend v x w = Ok (ptr_add (begin v) (Z.of_nat (Size v))) x w /\
  distance (begin v) (ptr_add (begin v) (Z.of_nat (Size v))) x w = Ok (length xs) x w.
Proof.
  intros Hown. pose proof (owns_le_capacity _ _ _ Hown) as Hlen.
  pose proof (owns_size _ _ _ Hown) as Hs.
  split_and!.
  - intros i a Hi. split; [by eapply owns_element | by eapply owns_read_at].
  - intros i Hi. unfold Vector_index, bind, assert, fault.
    by destruct (Nat.ltb_spec i (size_ v)); [lia|].
  - unfold vend, Size, RawMemory_plus, bind, assert, ret.
    by destruct (Nat.leb_spec (size_ v) (capacity_ (data_ v))); [|lia].
  - unfold distance, Size, ret. rewrite bool_decide_eq_true_2 by done.
    cbn [ptr_add off]. destruct (Z.leb_spec (off (begin v)) (off (begin v) + Z.of_nat (size_ v))); [|lia].
    simpl. f_equal. lia.
Qed.

(** X10. [PopBack] destroys the last element and nothing else, and cannot
    throw; on an empty vector it is undefined. *)
Theorem PopBack_removes_last (w : world V) (v : Vector) (xs : list V) :
  owns w v xs ->
  (forall ys z, xs = ys ++ [z] ->
     exists v' w',
       PopBack v w = Ok tt v' w' /\ owns w' v' ys /\
       size_ v' = size_ v - 1 /\ data_ v' = data_ v /\
       allocs w' = allocs w /\ frees w' = frees w /\
       live_objects w' = (live_objects w - 1)%Z) /\
  (xs = [] -> PopBack v w = Fault).
Proof.
  intros Hown. split.
  - intros ys z ->.
    destruct (wp_returns _ _ _ _ (PopBack_spec w v ys z (fun _ _ => False) Hown))
      as ([] & v' & w' & Hrun & Hown' & Hd & Hdelta).
    exists v', w'.
    split_and!; [done | done | | done | bookkeeping | bookkeeping | bookkeeping].
    rewrite (owns_size _ _ _ Hown), (owns_size _ _ _ Hown'), length_app. simpl. lia.
  - intros ->. unfold PopBack, decr_size, bind, get.
    by rewrite (owns_size _ _ _ Hown).
Qed.

(** X11. [Erase(begin() + p)] for [p] below the size removes element [p],
    moves the later elements one place to the left, destroys exactly one
    object and returns the position of the element that followed the
    erased one.  It keeps the storage.  When a move assignment throws, the
    size and the number of live objects are unchanged.  Erasing at
    [end()] or beyond is undefined. *)
Theorem Erase_removes (w : world V) (v : Vector) (xs : list V) (p : nat) :
  owns w v xs ->
  (p < length xs ->
     (forall r v' w',
        Erase T (ptr_add (begin v) (Z.of_nat p)) v w = Ok r v' w' ->
        owns w' v' (take p xs ++ drop (S p) xs) /\
        size_ v' = size_ v - 1 /\ data_ v' = data_ v /\
        r = ptr_add (begin v') (Z.of_nat p) /\
        (forall a, xs !! S p = Some a -> load r v' w' = Ok a v' w') /\
        allocs w' = allocs w /\ frees w' = frees w /\
        live_objects w' = (live_objects w - 1)%Z) /\
     (forall v' w',
        Erase T (ptr_add (begin v) (Z.of_nat p)) v w = Throw v' w' ->
        v' = v /\ allocs w' = allocs w /\ frees w' = frees w /\
        live_objects w' = live_objects w) /\
     (nothrow T ->
      exists r v' w', Erase T (ptr_add (begin v) (Z.of_nat p)) v w = Ok r v' w')) /\
  (length xs <= p -> Erase T (ptr_add (begin v) (Z.of_nat p)) v w = Fault).
Proof.
  intros Hown. pose proof (owns_le_capacity _ _ _ Hown) as Hlen.
  pose proof (owns_size _ _ _ Hown) as Hs. split.
  - intros Hp. pose proof (Erase_spec T w v xs p Hown Hp) as Hspec. split_and!.
    + intros r v' w' Hrun.
      destruct (wp_Ok _ _ _ _ _ _ _ _ Hspec Hrun) as (Hown' & -> & Hd & Hdelta).
      pose proof (owns_size _ _ _ Hown') as Hs'.
      assert (length (take p xs ++ drop (S p) xs) = length xs - 1) as Hl'
        by (rewrite length_app, length_take, length_drop; lia).
      split_and!; [done | lia | done | done | | bookkeeping | bookkeeping | bookkeeping].
      intros a Ha.
      assert ((take p xs ++ drop (S p) xs) !! p = Some a) as Hpa.
      { rewrite lookup_app_r by (rewrite length_take; lia).
        rewrite length_take, lookup_drop.
        replace (S p + (p - p `min` length xs)) with (S p) by lia. done. }
      by destruct (owns_element v' w' v' _ p a Hown' Hpa) as [_ Hload].
    + intros v' w' Hrun.
      destruct (wp_Throw _ _ _ _ _ _ _ Hspec Hrun) as (-> & Hdelta & _).
      split_and!; [done | bookkeeping | bookkeeping | bookkeeping].
    + intros Hno.
      destruct (wp_total T _ _ _ _ _ Hspec) as (r & v' & w' & Hrun & _);
        [|done|eauto].
      intros v' w' (_ & _ & Hthr). eauto.
  - intros Hp. unfold Erase, bind, get, distance, RawMemory_plus, assert, ret, fault.
    rewrite bool_decide_eq_true_2 by done. cbn [ptr_add off blk].
    destruct (Z.leb_spec (off (begin v)) (off (begin v) + Z.of_nat p)); [|lia].
    cbn [andb].
    replace (Z.to_nat (off (begin v) + Z.of_nat p - off (begin v))) with p by lia.
    destruct (Nat.leb_spec p (capacity_ (data_ v))); [|done].
    destruct (Nat.leb_spec (size_ v) (capacity_ (data_ v))); [|lia].
    unfold std_move, distance, bind, fault. cbn [ptr_add off blk].
    rewrite bool_decide_eq_true_2 by done.
    destruct (Z.leb_spec (off (buffer_ (data_ v)) + Z.of_nat p + 1)
                         (off (buffer_ (data_ v)) + Z.of_nat (size_ v))); [lia|].
    done.
Qed.

End Access.

(** ** Insertion and growth *)

Section Insertion.
Context {V : Type} (T : ElemType V).

(** A vector with room for its elements and at least one slot holds a
    block. *)
Lemma owns_block_count (w : world V) v xs :
  owns w v xs -> 0 < capacity_ (data_ v) ->
  block_count (blk (buffer_ (data_ v))) = 1.
Proof.
  intros (_ & _ & Hl & Hb) Hc. unfold block_is, block_in in Hb.
  destruct (blk (buffer_ (data_ v))); [done|].
  rewrite Hb in Hl. simpl in Hl. lia.
Qed.

(** X12. [Emplace(begin() + p, args...)], and so both overloads of [Insert],
    put the new element at index [p] in front of the elements that were at
    [p] and after, and return its position.  With spare capacity the
    storage is kept and no block is allocated or released. *)
Theorem Emplace_inserts_at (w : world V) (v : Vector) (xs : list V) (p : nat)
    (i : init V) :
  owns w v xs -> p <= length xs ->
  (forall r v' w',
     Emplace T (ptr_add (begin v) (Z.of_nat p)) i v w = Ok r v' w' ->
     owns w' v' (take p xs ++ init_value T i :: drop p xs) /\
     size_ v' = S (size_ v) /\
     r = ptr_add (begin v') (Z.of_nat p) /\
     load r v' w' = Ok (init_value T i) v' w' /\
     live_objects w' = (live_objects w + 1)%Z /\
     (size_ v < capacity_ (data_ v) ->
        data_ v' = data_ v /\ allocs w' = allocs w /\ frees w' = frees w)) /\
  (forall by_move a,
     Insert T by_move (ptr_add (begin v) (Z.of_nat p)) a v w =
     Emplace T (ptr_add (begin v) (Z.of_nat p)) (if by_move then MoveOf a else CopyOf a)
             v w) /\
  (nothrow T ->
   exists r v' w', Emplace T (ptr_add (begin v) (Z.of_nat p)) i v w = Ok r v' w').
Proof.
  intros Hown Hp. pose proof (Emplace_spec T w v xs p i Hown Hp) as Hspec.
  pose proof (owns_size _ _ _ Hown) as Hs.
  split_and!.
  - intros r v' w' Hrun.
    destruct (wp_Ok _ _ _ _ _ _ _ _ Hspec Hrun) as (Hown' & -> & Hfit & Hfull).
    pose proof (owns_size _ _ _ Hown') as Hs'.
    assert (length (take p xs ++ init_value T i :: drop p xs) = S (length xs)) as Hl'
      by (rewrite length_app, length_cons, length_take, length_drop; lia).
    assert ((take p xs ++ init_value T i :: drop p xs) !! p = Some (init_value T i))
      as Hpa by (apply list_lookup_middle; rewrite length_take; lia).
    split_and!; [done | lia | done | | |].
    + by destruct (owns_element v' w' v' _ p _ Hown' Hpa) as [_ Hload].
    + destruct (Nat.lt_ge_cases (size_ v) (capacity_ (data_ v))) as [Hlt|Hge].
      * destruct (Hfit Hlt) as [_ Hd]. bookkeeping.
      * destruct (Hfull Hge) as [_ Hd]. bookkeeping.
    + intros Hlt. destruct (Hfit Hlt) as [Hd Hdelta].
      split_and!; [done | bookkeeping | bookkeeping].
  - by intros [] a.
  - intros Hno.
    destruct (wp_total T _ _ _ _ _ Hspec) as (r & v' & w' & Hrun & _);
      [|done|eauto].
    intros v' w' (_ & Hfail). by eapply emplace_failed_thrown.
Qed.

(** X13. [PopBack] undoes [PushBack]: the elements and the size are as before
    the pair of calls; only the capacity may have grown. *)
Theorem PushBack_then_PopBack (w : world V) (v : Vector) (xs : list V) (i : init V) :
  owns w v xs ->
  forall u v1 w1,
    PushBack T i v w = Ok u v1 w1 ->
    exists v2 w2,
      PopBack v1 w1 = Ok tt v2 w2 /\
      owns w2 v2 xs /\ size_ v2 = size_ v /\ data_ v2 = data_ v1 /\
      capacity_ (data_ v) <= capacity_ (data_ v2) /\
      live_objects w2 = live_objects w.
Proof.
  intros Hown u v1 w1 Hrun.
  destruct (wp_Ok _ _ _ _ _ _ _ _ (PushBack_spec T w v xs i Hown) Hrun)
    as (Hown1 & Hfit & Hfull).
  destruct (wp_returns _ _ _ _ (PopBack_spec w1 v1 xs _ (fun _ _ => False) Hown1))
    as ([] & v2 & w2 & Hrun2 & Hown2 & Hd2 & Hdelta2).
  exists v2, w2.
  pose proof (owns_size _ _ _ Hown) as Hs.
  pose proof (owns_size _ _ _ Hown2) as Hs2.
  split_and!; [done | done | lia | done | |].
  - rewrite Hd2.
    destruct (Nat.lt_ge_cases (size_ v) (capacity_ (data_ v))) as [Hlt|Hge].
    + destruct (Hfit Hlt) as [-> _]. done.
    + destruct (Hfull Hge) as [-> _]. unfold grown.
      destruct (Nat.eqb_spec (size_ v) 0); lia.
  - destruct (Nat.lt_ge_cases (size_ v) (capacity_ (data_ v))) as [Hlt|Hge].
    + destruct (Hfit Hlt) as [_ Hd]. bookkeeping.
    + destruct (Hfull Hge) as [_ Hd]. bookkeeping.
Qed.

(** X14. [Reserve] beyond the capacity allocates exactly one block, releases
    the old one, and leaves the number of live objects as it was.  When the
    relocation throws, whatever the element type, the vector object is
    unchanged and the new block has been released. *)
Theorem Reserve_accounting (w : world V) (v : Vector) (xs : list V) (n : nat) :
  owns w v xs -> capacity_ (data_ v) < n ->
  (forall u v' w',
     Reserve T n v w = Ok u v' w' ->
     allocs w' = allocs w + 1 /\
     frees w' = frees w + block_count (blk (buffer_ (data_ v))) /\
     live_objects w' = live_objects w /\
     block_count (blk (buffer_ (data_ v'))) = 1) /\
  (forall v' w',
     Reserve T n v w = Throw v' w' ->
     v' = v /\ allocs w' = allocs w + 1 /\ frees w' = frees w + 1 /\
     live_objects w' = live_objects w).
Proof.
  intros Hown Hn. pose proof (Reserve_spec T w v xs n Hown) as Hspec. split.
  - intros u v' w' Hrun.
    destruct (wp_Ok _ _ _ _ _ _ _ _ Hspec Hrun) as (Hown' & _ & Hgrow).
    destruct (Hgrow Hn) as [Hcap Hd].
    split_and!; [bookkeeping | bookkeeping | bookkeeping |].
    eapply owns_block_count; [exact Hown' | lia].
  - intros v' w' Hrun.
    destruct (wp_Throw _ _ _ _ _ _ _ Hspec Hrun) as (_ & -> & Hd & _).
    split_and!; [done | bookkeeping | bookkeeping | bookkeeping].
Qed.

End Insertion.

(** ** Growth by appending *)

Section Growth.
Context {V : Type} (T : ElemType V).

(** The state of a vector that has only been appended to since it was
    default-constructed in a memory with [a0] allocations and [f0]
    releases: either nothing has been appended yet, or the capacity is a
    power of two [2 ^ k] not smaller than the size and smaller than twice
    the size, reached by [k + 1] allocations of which [k] have been
    released. *)
Definition doubling (a0 f0 : nat) (v : Vector) (w : world V) : Prop :=
  (size_ v = 0 /\ capacity_ (data_ v) = 0 /\ blk (buffer_ (data_ v)) = None /\
   allocs w = a0 /\ frees w = f0) \/
  (exists k, capacity_ (data_ v) = 2 ^ k /\ size_ v <= 2 ^ k < 2 * size_ v /\
             allocs w = a0 + S k /\ frees w = f0 + k).

Lemma pow2_pos k : 0 < 2 ^ k.
Proof. induction k; simpl; lia. Qed.

Lemma doubling_Append (w : world V) v xs by_move a a0 f0 u v' w' :
  owns w v xs -> doubling a0 f0 v w ->
  Append T by_move a v w = Ok u v' w' ->
  owns w' v' (xs ++ [a]) /\ doubling a0 f0 v' w'.
Proof.
  intros Hown Hinv Hrun.
  destruct (wp_Ok _ _ _ _ _ _ _ _ (Append_spec T w v xs by_move a Hown) Hrun)
    as (Hown' & Hfit & Hfull).
  split; [done|].
  pose proof (owns_size _ _ _ Hown) as Hs.
  pose proof (owns_size _ _ _ Hown') as Hs'.
  rewrite length_app in Hs'. cbn [length] in Hs'.
  destruct Hinv as [(Hs0 & Hc0 & Hb0 & Ha & Hf)|(k & Hc & Hrange & Ha & Hf)].
  - destruct Hfull as [Hcap Hd]; [lia|]. right. exists 0.
    rewrite Hs0 in Hcap. rewrite Hb0 in Hd. cbn in Hcap, Hd.
    split_and!; [done | simpl; lia | simpl; lia | bookkeeping | bookkeeping].
  - pose proof (pow2_pos k) as Hpos. right.
    destruct (Nat.lt_ge_cases (size_ v) (capacity_ (data_ v))) as [Hlt|Hge].
    + destruct (Hfit Hlt) as [Hd Hdelta]. exists k. rewrite Hd.
      split_and!; [done | lia | lia | bookkeeping | bookkeeping].
    + destruct (Hfull Hge) as [Hcap Hdelta]. exists (S k).
      rewrite (owns_block_count _ _ _ Hown) in Hdelta by lia.
      unfold grown in Hcap. destruct (Nat.eqb_spec (size_ v) 0) as [|_]; [lia|].
      assert (size_ v = 2 ^ k) as Hfull_size by lia.
      rewrite Nat.pow_succ_r'.
      split_and!; [lia | lia | lia | bookkeeping | bookkeeping].
Qed.

Lemma doubling_Append_all calls a0 f0 : forall (w : world V) v xs u v' w',
  owns w v xs -> doubling a0 f0 v w ->
  Append_all T calls v w = Ok u v' w' ->
  owns w' v' (xs ++ calls.*2) /\ doubling a0 f0 v' w'.
Proof.
  induction calls as [|[by_move a] calls IH]; intros w v xs u v' w' Hown Hinv Hrun.
  - revert Hrun. intros [= <- <- <-]. by rewrite app_nil_r.
  - cbn [Append_all] in Hrun.
    apply bind_Ok_inv in Hrun as (u1 & v1 & w1 & Hrun1 & Hrun).
    destruct (doubling_Append _ _ _ _ _ _ _ _ _ _ Hown Hinv Hrun1) as [Hown1 Hinv1].
    destruct (IH _ _ _ _ _ _ Hown1 Hinv1 Hrun) as [Hown' Hinv'].
    split; [|done]. cbn [fmap list_fmap snd]. by rewrite cons_middle, app_assoc.
Qed.

(** X15. Appending [n >= 1] elements to a default-constructed vector leaves a
    capacity that is a power of two [2 ^ k], the least one that holds [n]
    elements, so never twice the size or more; it takes [k + 1]
    allocations, and every block but the last has been released. *)
Theorem Append_all_doubles (w : world V) (calls : list (bool * V)) :
  calls <> [] ->
  forall u v' w',
    Append_all T calls Vector_default w = Ok u v' w' ->
    size_ v' = length calls /\
    exists k,
      capacity_ (data_ v') = 2 ^ k /\
      length calls <= 2 ^ k < 2 * length calls /\
      allocs w' = allocs w + S k /\ frees w' = frees w + k.
Proof.
  intros Hne u v' w' Hrun.
  assert (doubling (allocs w) (frees w) Vector_default w) as Hinv
    by (left; by split_and!).
  destruct (doubling_Append_all _ _ _ _ _ _ _ _ _ (owns_default w) Hinv Hrun)
    as [Hown' Hinv'].
  pose proof (owns_size _ _ _ Hown') as Hs'. cbn [app] in Hs'.
  rewrite length_fmap in Hs'. split; [done|].
  destruct Hinv' as [(Hs0 & _)|(k & Hc & Hrange & Ha & Hf)].
  - destruct calls; [done | simpl in Hs'; lia].
  - exists k. rewrite Hs' in Hrange. by split.
Qed.

(** The blocks outstanding and the objects alive, relative to what the
    vector itself holds, do not change while elements are appended. *)
Lemma balanced_Append_all calls : forall (w : world V) v xs u v' w',
  owns w v xs ->
  Append_all T calls v w = Ok u v' w' ->
  owns w' v' (xs ++ calls.*2) /\
  (live_blocks w' - Z.of_nat (block_count (blk (buffer_ (data_ v')))) =
   live_blocks w - Z.of_nat (block_count (blk (buffer_ (data_ v)))))%Z /\
  live_objects w' = (live_objects w + Z.of_nat (length calls))%Z.
Proof.
  induction calls as [|[by_move a] calls IH]; intros w v xs u v' w' Hown Hrun.
  - revert Hrun. intros [= <- <- <-]. rewrite app_nil_r. simpl. split_and!; [done|lia|lia].
  - cbn [Append_all] in Hrun.
    apply bind_Ok_inv in Hrun as (u1 & v1 & w1 & Hrun1 & Hrun).
    destruct (wp_Ok _ _ _ _ _ _ _ _ (Append_spec T w v xs by_move a Hown) Hrun1)
      as (Hown1 & Hfit & Hfull).
    destruct (IH _ _ _ _ _ _ Hown1 Hrun) as (Hown' & Hblocks & Hobjects).
    split; [cbn [fmap list_fmap snd]; by rewrite cons_middle, app_assoc|].
    cbn [length]. unfold live_blocks in *.
    destruct (Nat.lt_ge_cases (size_ v) (capacity_ (data_ v))) as [Hlt|Hge].
    + destruct (Hfit Hlt) as [Hd Hdelta]. rewrite Hd in Hblocks.
      split; [bookkeeping|]. destruct Hdelta. lia.
    + destruct (Hfull Hge) as [Hcap Hdelta].
      assert (block_count (blk (buffer_ (data_ v1))) = 1) as Hbc.
      { eapply owns_block_count; [exact Hown1|]. rewrite Hcap. unfold grown.
        destruct (Nat.eqb_spec (size_ v) 0); lia. }
      rewrite Hbc in Hblocks.
      split; [bookkeeping|]. destruct Hdelta. lia.
Qed.

(** X16. A vector that is filled by appending and then destroyed leaves nothing
    behind: after the destructor, the blocks the vector held at any time
    have all been released and the objects it held have all been
    destroyed. *)
Theorem Append_all_then_dtor_balanced {X} (x : X) (w : world V) (v : Vector)
    (xs : list V) (calls : list (bool * V)) :
  owns w v xs ->
  forall u v' w',
    Append_all T calls v w = Ok u v' w' ->
    exists w'',
      Vector_dtor v' x w' = Ok tt x w'' /\
      live_blocks w'' =
        (live_blocks w - Z.of_nat (block_count (blk (buffer_ (data_ v)))))%Z /\
      live_objects w'' = (live_objects w - Z.of_nat (length xs))%Z.
Proof.
  intros Hown u v' w' Hrun.
  destruct (balanced_Append_all _ _ _ _ _ _ _ Hown Hrun) as (Hown' & Hblocks & Hobjects).
  destruct (Vector_dtor_returns x w' v' _ Hown') as (w'' & Hrun' & _ & Ha & Hf & Ho).
  exists w''. split; [done|]. rewrite length_app, length_fmap in Ho.
  unfold live_blocks in *. split; lia.
Qed.

End Growth.

(** ** Resizing and copy assignment *)

Section Resizing.
Context {V : Type} (T : ElemType V).

(** What a failed growing [Resize] leaves behind: either the relocation
    inside [Reserve] threw, and the vector object is unchanged; or a default
    constructor threw, after [Reserve] had returned, and the vector holds
    its old elements in storage of the new capacity. *)
Definition resize_failed (v : Vector) (xs : list V) (n : nat)
    (w : world V) (v' : Vector) (w' : world V) : Prop :=
  (capacity_ (data_ v) < n /\ v' = v /\ delta w w' 1 1 0 /\
   relocation_failed T w w') \/
  (thrown T DefaultCtor /\ owns w' v' xs /\
   capacity_ (data_ v') = Nat.max n (capacity_ (data_ v)) /\
   live_objects w' = live_objects w).

Lemma Resize_grow_spec (w : world V) v xs n :
  owns w v xs -> length xs <= n ->
  wp (Resize T n) v w
    (fun _ v' w' =>
       owns w' v' (xs ++ replicate (n - length xs) (default_value T)) /\
       capacity_ (data_ v') = Nat.max n (capacity_ (data_ v)) /\
       live_objects w' = (live_objects w + Z.of_nat (n - length xs))%Z /\
       (n <= capacity_ (data_ v) ->
          data_ v' = data_ v /\ allocs w' = allocs w /\ frees w' = frees w))
    (fun v' w' => size_ v' = size_ v /\ resize_failed v xs n w v' w').
Proof.
  intros Hown Hn. unfold Resize, resize_failed. apply wp_get.
  pose proof (owns_size _ _ _ Hown) as Hs.
  destruct (Nat.ltb_spec n (size_ v)) as [|_]; [lia|].
  set (d := default_value T).
  eapply wp_bind with
    (Q1 := fun _ v1 w1 =>
       size_ v1 = size_ v /\
       storage w1 (data_ v1)
         ((Some <$> xs ++ replicate (n - length xs) d) ++
          replicate (capacity_ (data_ v1) - n) None) /\
       capacity_ (data_ v1) = Nat.max n (capacity_ (data_ v)) /\
       live_objects w1 = (live_objects w + Z.of_nat (n - length xs))%Z /\
       (n <= capacity_ (data_ v) ->
          data_ v1 = data_ v /\ allocs w1 = allocs w /\ frees w1 = frees w)).
  - eapply wp_bind; [by apply Reserve_spec | |].
    + intros [] v1 w1 (Hown1 & Hnoop & Hgrow). apply wp_get.
      pose proof (owns_le_capacity _ _ _ Hown1) as Hlen1.
      pose proof (owns_size _ _ _ Hown1) as Hs1.
      assert (capacity_ (data_ v1) = Nat.max n (capacity_ (data_ v)) /\
              live_objects w1 = live_objects w /\
              (n <= capacity_ (data_ v) ->
                 data_ v1 = data_ v /\ allocs w1 = allocs w /\ frees w1 = frees w))
        as (Hcap1 & Hobj1 & Hfit1).
      { destruct (Nat.le_gt_cases n (capacity_ (data_ v))) as [Hle|Hgt].
        - destruct (Hnoop Hle) as [-> ->]. split_and!; [lia | done | done].
        - destruct (Hgrow Hgt) as [Hc Hd].
          split_and!; [lia | bookkeeping | lia]. }
      destruct Hown1 as (_ & Ho1 & Hl1 & Hb1).
      apply wp_plus; [lia|]. rewrite Hs1.
      rewrite (replicate_split None (capacity_ (data_ v1) - length xs)
                 (n - length xs)) in Hb1 by lia.
      replace (capacity_ (data_ v1) - length xs - (n - length xs))
        with (capacity_ (data_ v1) - n) in Hb1 by lia.
      eapply wp_mono.
      { apply uninitialized_value_construct_n_spec with (d1 := Some <$> xs)
          (d2 := replicate (capacity_ (data_ v1) - n) None); [exact Hb1|].
        solve_off. }
      * intros _ v2 w2 (-> & Hh2 & Hf2). cbn [ptr_add blk] in Hh2.
        split_and!; [lia | | done | bookkeeping |].
        -- split_and!; [done | solve_off |].
           rewrite fmap_app, <- app_assoc.
           eapply block_is_write; [exact Hh2 | exact Hb1 | solve_off].
        -- intros Hle. destruct (Hfit1 Hle) as (Hd & Ha & Hf).
           split_and!; [done | bookkeeping | bookkeeping].
      * intros v2 w2 (-> & Hh2 & Hf2 & Hthr).
        instantiate (1 := fun v' w' =>
          size_ v' = size_ v /\
          ((capacity_ (data_ v) < n /\ v' = v /\ delta w w' 1 1 0 /\
            relocation_failed T w w') \/
           (thrown T DefaultCtor /\ owns w' v' xs /\
            capacity_ (data_ v') = Nat.max n (capacity_ (data_ v)) /\
            live_objects w' = live_objects w))).
        split; [lia|]. right.
        split_and!; [done | | done | bookkeeping].
        split; [lia|]. split_and!; [done | solve_off |].
        eapply block_is_same_heap; [exact Hh2|].
        rewrite (replicate_split None (capacity_ (data_ v1) - length xs)
                   (n - length xs)) by lia.
        by replace (capacity_ (data_ v1) - length xs - (n - length xs))
          with (capacity_ (data_ v1) - n) by lia.
    + intros v1 w1 (Hlt & -> & Hd & Hfail). split; [done|]. left. by split_and!.
  - intros [] v1 w1 (Hs1 & Hst1 & Hcap1 & Hobj1 & Hfit1).
    apply wp_get, wp_put. split_and!; [|done|done|done].
    split; [cbn [set_size size_]; rewrite length_app, length_replicate; lia|].
    cbn [set_size data_]. rewrite length_app, length_replicate.
    by replace (length xs + (n - length xs)) with n by lia.
  - intros v1 w1 H1. exact H1.
Qed.

(** X17. [Resize(n)] with [n] not above the size keeps the first [n] elements
    and destroys the others, in place, and cannot throw.  With [n] not
    below the size, and a byte count [n * sizeof(T)] that does not wrap
    around when [n] is above the capacity, it reserves room for [n]
    elements and appends value-initialised elements up to size [n].  If
    it throws, the size and
    the number of live objects are as before, and the elements are as
    before unless relocation by a throwing move constructor was under
    way. *)
Theorem Resize_sets_size (w : world V) (v : Vector) (xs : list V) (n : nat) :
  owns w v xs ->
  (n <= length xs ->
     exists v' w',
       Resize T n v w = Ok tt v' w' /\ owns w' v' (take n xs) /\
       data_ v' = data_ v /\ allocs w' = allocs w /\ frees w' = frees w /\
       live_objects w' = (live_objects w - Z.of_nat (length xs - n))%Z) /\
  (length xs <= n -> (capacity_ (data_ v) < n -> allocation_fits T n) ->
     (forall u v' w',
        Resize T n v w = Ok u v' w' ->
        owns w' v' (xs ++ replicate (n - length xs) (default_value T)) /\
        size_ v' = n /\
        capacity_ (data_ v') = Nat.max n (capacity_ (data_ v)) /\
        live_objects w' = (live_objects w + Z.of_nat (n - length xs))%Z /\
        (n <= capacity_ (data_ v) ->
           data_ v' = data_ v /\ allocs w' = allocs w /\ frees w' = frees w) /\
        (capacity_ (data_ v) < n ->
           allocation_room T n = Z.of_nat (capacity_ (data_ v')))) /\
     (forall v' w',
        Resize T n v w = Throw v' w' ->
        size_ v' = size_ v /\ live_objects w' = live_objects w /\
        (relocates_by_move T = false -> owns w' v' xs)) /\
     (nothrow T -> exists u v' w', Resize T n v w = Ok u v' w')).
Proof.
  intros Hown. split.
  - intros Hn.
    destruct (wp_returns _ _ _ _ (Resize_shrink_spec T w v xs n (fun _ _ => False) Hown Hn))
      as ([] & v' & w' & Hrun & Hown' & Hd & Hdelta).
    exists v', w'.
    split_and!; [done | done | done | bookkeeping | bookkeeping | bookkeeping].
  - intros Hn Hfits.
    pose proof (Resize_grow_spec w v xs n Hown Hn) as Hspec. split_and!.
    + intros u v' w' Hrun.
      destruct (wp_Ok _ _ _ _ _ _ _ _ Hspec Hrun) as (Hown' & Hcap & Hobj & Hfit).
      split_and!; [done | | done | done | done |].
      * rewrite (owns_size _ _ _ Hown'), length_app, length_replicate. lia.
      * intros Hlt. rewrite Hcap, Nat.max_l by lia.
        by apply allocation_fits_room, Hfits.
    + intros v' w' Hrun.
      destruct (wp_Throw _ _ _ _ _ _ _ Hspec Hrun) as (Hs & Hfail).
      split; [done|].
      destruct Hfail as [(_ & -> & Hd & Hrel)|(_ & Hown' & _ & Hobj)].
      * split; [bookkeeping|]. intros Hpol.
        destruct Hrel as [(_ & Hh & _)|(Hmove & _)]; [|congruence].
        by eapply owns_same_heap.
      * by split.
    + intros Hno.
      destruct (wp_total T _ _ _ _ _ Hspec) as (u & v' & w' & Hrun & _);
        [|done|eauto].
      intros v' w' (_ & [(_ & _ & _ & Hrel)|(Hthr & _)]); [|eauto].
      by eapply relocation_failed_thrown.
Qed.

(** X18. Copy assignment from another vector leaves the target holding a copy
    of the source's elements and the source as it is.  A source that fits
    the capacity is copied in place; a longer one gets a new block of
    exactly its length, and the old block is released.  If it throws, the
    target keeps its size and storage and nothing is leaked.  Assigning a
    vector to itself does nothing. *)
Theorem Vector_copy_assign_copies (w : world V) (this rhs : Vector)
    (xs ys : list V) :
  owns w this xs -> owns w rhs ys -> separate this rhs ->
  (forall u x' w',
     Vector_copy_assign T (Two this rhs) w = Ok u x' w' ->
     other_of x' = rhs /\ owns w' (this_of x') ys /\ owns w' rhs ys /\
     live_objects w' =
       (live_objects w + Z.of_nat (length ys) - Z.of_nat (length xs))%Z /\
     (length ys <= capacity_ (data_ this) ->
        data_ (this_of x') = data_ this /\
        allocs w' = allocs w /\ frees w' = frees w) /\
     (capacity_ (data_ this) < length ys ->
        capacity_ (data_ (this_of x')) = length ys /\
        allocs w' = allocs w + 1 /\
        frees w' = frees w + block_count (blk (buffer_ (data_ this))))) /\
  (forall x' w',
     Vector_copy_assign T (Two this rhs) w = Throw x' w' ->
     x' = Two this rhs /\ live_blocks w' = live_blocks w /\
     live_objects w' = live_objects w) /\
  (nothrow T -> exists u x' w', Vector_copy_assign T (Two this rhs) w = Ok u x' w') /\
  Vector_copy_assign T (Same this) w = Ok tt (Same this) w.
Proof.
  intros Hthis Hrhs Hsep.
  pose proof (Vector_copy_assign_spec T w this rhs xs ys Hthis Hrhs Hsep) as Hspec.
  split_and!.
  - intros u x' w' Hrun.
    destruct (wp_Ok _ _ _ _ _ _ _ _ Hspec Hrun)
      as (this' & -> & Hthis' & Hrhs' & Hfit & Hgrow).
    cbn [this_of other_of].
    split_and!; [done | done | done | | |].
    + destruct (Nat.le_gt_cases (length ys) (capacity_ (data_ this))) as [Hle|Hgt].
      * destruct (Hfit Hle) as [_ Hd]. bookkeeping.
      * destruct (Hgrow Hgt) as [_ Hd]. bookkeeping.
    + intros Hle. destruct (Hfit Hle) as [Hd Hdelta].
      split_and!; [done | bookkeeping | bookkeeping].
    + intros Hgt. destruct (Hgrow Hgt) as [Hc Hdelta].
      split_and!; [done | bookkeeping | bookkeeping].
  - intros x' w' Hrun.
    destruct (wp_Throw _ _ _ _ _ _ _ Hspec Hrun) as (-> & Hfail).
    split; [done|].
    destruct Hfail as [(_ & _ & (k & Hd) & _)|(_ & Hd & _)].
    + split; [by eapply delta_live_blocks|].
      rewrite (delta_live_objects _ _ _ _ _ Hd). lia.
    + split; [by eapply (delta_live_blocks _ _ 0)|].
      rewrite (delta_live_objects _ _ _ _ _ Hd). lia.
  - intros Hno.
    destruct (wp_total T _ _ _ _ _ Hspec) as (u & x' & w' & Hrun & _);
      [|done|eauto].
    intros x' w' (_ & [(_ & _ & _ & Hthr)|(_ & _ & [Hthr|Hthr])]); eauto.
  - done.
Qed.

End Resizing.

Section Reinsertion.
Context {V : Type} (T : ElemType V).

Lemma erase_insert_list {A} (xs : list A) p a :
  xs !! p = Some a ->
  take p (take p xs ++ drop (S p) xs) ++ a :: drop p (take p xs ++ drop (S p) xs) = xs.
Proof.
  intros Hp. pose proof (lookup_lt_Some _ _ _ Hp) as Hlt.
  assert (length (take p xs) = p) as Hl by (rewrite length_take; lia).
  rewrite take_app_length' by done. rewrite drop_app_length' by done.
  by apply take_drop_middle.
Qed.

(** X19. Inserting the erased value back at the position [Erase] returned
    restores the original sequence; the storage is the same as before the
    two calls, and no block has been allocated or released. *)
Theorem Erase_then_Insert (w : world V) (v : Vector) (xs : list V) (p : nat)
    (a : V) (by_move : bool) :
  owns w v xs -> xs !! p = Some a ->
  forall it v1 w1,
    Erase T (ptr_add (begin v) (Z.of_nat p)) v w = Ok it v1 w1 ->
    (forall it' v2 w2,
       Insert T by_move it a v1 w1 = Ok it' v2 w2 ->
       owns w2 v2 xs /\ it' = it /\ data_ v2 = data_ v /\ size_ v2 = size_ v /\
       allocs w2 = allocs w /\ frees w2 = frees w /\
       live_objects w2 = live_objects w) /\
    (nothrow T -> exists it' v2 w2, Insert T by_move it a v1 w1 = Ok it' v2 w2).
Proof.
  intros Hown Hp it v1 w1 Hrun1.
  pose proof (lookup_lt_Some _ _ _ Hp) as Hlt.
  pose proof (owns_le_capacity _ _ _ Hown) as Hlen.
  pose proof (owns_size _ _ _ Hown) as Hs.
  destruct (wp_Ok _ _ _ _ _ _ _ _ (Erase_spec T w v xs p Hown Hlt) Hrun1)
    as (Hown1 & -> & Hd1 & Hdelta1).
  pose proof (owns_size _ _ _ Hown1) as Hs1.
  assert (length (take p xs ++ drop (S p) xs) = length xs - 1) as Hl1
    by (rewrite length_app, length_take, length_drop; lia).
  assert (p <= length (take p xs ++ drop (S p) xs)) as Hp1 by lia.
  set (i := if by_move then MoveOf a else CopyOf a).
  assert (Insert T by_move (ptr_add (begin v1) (Z.of_nat p)) a =
          Emplace T (ptr_add (begin v1) (Z.of_nat p)) i) as -> by (by destruct by_move).
  assert (init_value T i = a) as Hi by (by destruct by_move).
  pose proof (Emplace_spec T w1 v1 _ p i Hown1 Hp1) as Hspec.
  rewrite Hi, (erase_insert_list xs p a Hp) in Hspec.
  split.
  - intros it' v2 w2 Hrun2.
    destruct (wp_Ok _ _ _ _ _ _ _ _ Hspec Hrun2) as (Hown2 & -> & Hfit & _).
    destruct Hfit as [Hd2 Hdelta2]; [rewrite Hd1; lia|].
    pose proof (owns_size _ _ _ Hown2) as Hs2.
    split_and!; [done | | congruence | lia | bookkeeping | bookkeeping | bookkeeping].
    unfold begin. by rewrite Hd2.
  - intros Hno.
    destruct (wp_total T _ _ _ _ _ Hspec) as (r & v' & w' & Hrun & _);
      [|done|eauto].
    intros v' w' (_ & Hfail). by eapply emplace_failed_thrown.
Qed.

End Reinsertion.

(** ** Concrete runs of the further properties *)

(** The vector [[4; 5; 6]] of capacity 4 that three Appends build, and a
    second vector [[7]] built next to it. *)
Definition sample : Vector * world nat :=
  state_after (Append_all Int [(false, 4); (true, 5); (false, 6)]).
Definition sample_pair : Vector * world nat :=
  run_on (Append_all Int [(false, 7)]) Vector_default sample.2.

Lemma Int_nothrow : nothrow Int.
Proof. by intros n op v. Qed.

Lemma RawMemory_lifetime_witness :
  allocation_fits Int 3 /\
  exists m w' w'',
    RawMemory_ctor (V := nat) 3 tt empty_world = Ok m tt w' /\
    (0 < 3 -> allocs w' = 1) /\
    RawMemory_index m 3 tt w' = Fault /\
    RawMemory_dtor m tt w' = Ok tt tt w'' /\ heap w'' = heap (@empty_world nat).
Proof.
  assert (allocation_fits Int 3) as Hfit by (vm_compute; discriminate).
  split; [exact Hfit|].
  destruct (RawMemory_lifetime Int tt empty_world 3 Hfit)
    as (m & w' & Hrun & _ & _ & _ & _ & Halloc & _ & Hidx & w'' & Hdtor & Hh & _).
  exists m, w', w''. split; [exact Hrun|]. split.
  - intros Hpos. destruct (Halloc Hpos) as (b & _ & _ & Ha & _). exact Ha.
  - split; [exact Hidx|]. split; [exact Hdtor | exact Hh].
Defined.

Lemma Vector_ctor_value_initialises_witness :
  allocation_fits Int 2 /\ nothrow Int /\
  exists r w',
    Vector_ctor Int 2 tt empty_world = Ok r tt w' /\
    owns w' r [0; 0] /\ capacity_ (data_ r) = 2.
Proof.
  assert (allocation_fits Int 2) as Hfit by (vm_compute; discriminate).
  split; [exact Hfit|]. split; [exact Int_nothrow|].
  destruct (Vector_ctor_value_initialises Int tt empty_world 2 Hfit)
    as (Hok & _ & _ & Htotal).
  destruct (Htotal Int_nothrow) as (r & [] & w' & Hrun).
  destruct (Hok _ _ _ Hrun) as (Hown & _ & Hcap & _).
  exists r, w'. split; [exact Hrun|]. split; [exact Hown | exact Hcap].
Defined.

Lemma Vector_copy_ctor_copies_witness :
  owns sample.2 sample.1 [4; 5; 6] /\
  exists r w',
    Vector_copy_ctor Int sample.1 tt sample.2 = Ok r tt w' /\
    owns w' r [4; 5; 6] /\ owns w' sample.1 [4; 5; 6] /\ capacity_ (data_ r) = 3.
Proof.
  assert (owns sample.2 sample.1 [4; 5; 6]) as Hown by concrete_owns.
  split; [exact Hown|].
  destruct (Vector_copy_ctor_copies Int tt _ _ _ Hown) as (Hok & _ & _ & Htotal).
  destruct (Htotal Int_nothrow) as (r & [] & w' & Hrun).
  destruct (Hok _ _ _ Hrun) as (Hr & Hsrc & _ & _ & Hcap & _).
  exists r, w'. split; [exact Hrun|]. split; [exact Hr|]. split; [exact Hsrc | exact Hcap].
Defined.

Lemma Vector_dtor_releases_witness :
  owns sample.2 sample.1 [4; 5; 6] /\
  exists w',
    Vector_dtor sample.1 tt sample.2 = Ok tt tt w' /\
    frees w' = frees sample.2 + block_count (blk (buffer_ (data_ sample.1))) /\
    live_objects w' = (live_objects sample.2 - 3)%Z.
Proof.
  assert (owns sample.2 sample.1 [4; 5; 6]) as Hown by concrete_owns.
  split; [exact Hown|].
  destruct (Vector_dtor_releases tt _ _ _ Hown) as (w' & Hrun & _ & _ & Hf & Ho).
  exists w'. split; [exact Hrun|]. split; [exact Hf | exact Ho].
Defined.

Lemma temporary_copy_restores_memory_witness :
  owns sample.2 sample.1 [4; 5; 6] /\
  match temporary_copy Int sample.1 tt sample.2 with
  | Ok _ x' w' | Throw x' w' =>
      x' = tt /\ heap w' = heap sample.2 /\ live_blocks w' = live_blocks sample.2 /\
      live_objects w' = live_objects sample.2
  | Fault => False
  end.
Proof.
  assert (owns sample.2 sample.1 [4; 5; 6]) as Hown by concrete_owns.
  split; [exact Hown|].
  exact (temporary_copy_restores_memory Int tt _ _ _ Hown).
Defined.

Lemma Vector_move_ctor_transfers_witness :
  owns sample.2 sample.1 [4; 5; 6] /\
  owns sample.2 (Vector_move_ctor sample.1).1 [4; 5; 6] /\
  (Vector_move_ctor sample.1).2 = Vector_default.
Proof.
  assert (owns sample.2 sample.1 [4; 5; 6]) as Hown by concrete_owns.
  split; [exact Hown|].
  destruct (Vector_move_ctor_transfers tt _ _ _ Hown) as (Hnew & _ & Hold & _).
  split; [exact Hnew | exact Hold].
Defined.

Lemma Vector_Swap_exchanges_witness :
  (owns sample_pair.2 sample.1 [4; 5; 6] /\ owns sample_pair.2 sample_pair.1 [7]) /\
  exists a' b',
    Vector_Swap (Two sample.1 sample_pair.1) sample_pair.2
      = Ok tt (Two a' b') sample_pair.2 /\
    owns sample_pair.2 a' [7] /\ owns sample_pair.2 b' [4; 5; 6].
Proof.
  assert (owns sample_pair.2 sample.1 [4; 5; 6]) as Ha by concrete_owns.
  assert (owns sample_pair.2 sample_pair.1 [7]) as Hb by concrete_owns.
  split; [by split|].
  destruct (Vector_Swap_exchanges _ _ _ _ _ Ha Hb)
    as ((a' & b' & Hrun & Ha' & Hb' & _) & _).
  exists a', b'. split; [exact Hrun|]. split; [exact Ha' | exact Hb'].
Defined.

Lemma Vector_move_assign_transfers_witness :
  (owns sample.2 Vector_default [] /\
   blk (buffer_ (data_ Vector_default)) = None /\
   owns sample.2 sample.1 [4; 5; 6]) /\
  exists this',
    Vector_move_assign (Two Vector_default sample.1) sample.2
      = Ok tt (Two this' Vector_default) sample.2 /\
    owns sample.2 this' [4; 5; 6].
Proof.
  assert (owns sample.2 sample.1 [4; 5; 6]) as Hown by concrete_owns.
  split; [split; [apply owns_default | by split]|].
  destruct (Vector_move_assign_transfers tt _ _ _ _ (owns_default _) eq_refl Hown)
    as ((this' & Hrun & Hthis' & _) & _).
  exists this'. split; [exact Hrun | exact Hthis'].
Defined.

Lemma Vector_index_in_bounds_witness :
  owns sample.2 sample.1 [4; 5; 6] /\
  read_at sample.1 1 tt sample.2 = Ok 5 tt sample.2 /\
  Vector_index sample.1 3 tt sample.2 = Fault.
Proof.
  assert (owns sample.2 sample.1 [4; 5; 6]) as Hown by concrete_owns.
  split; [exact Hown|].
  destruct (Vector_index_in_bounds tt _ _ _ Hown) as (Hin & Hout & _).
  split; [apply (Hin 1 5 eq_refl) | apply (Hout 3); simpl; lia].
Defined.

Lemma PopBack_removes_last_witness :
  owns sample.2 sample.1 [4; 5; 6] /\
  (exists v' w', PopBack sample.1 sample.2 = Ok tt v' w' /\ owns w' v' [4; 5]) /\
  PopBack (V := nat) Vector_default empty_world = Fault.
Proof.
  assert (owns sample.2 sample.1 [4; 5; 6]) as Hown by concrete_owns.
  split; [exact Hown|]. split.
  - destruct (PopBack_removes_last _ _ _ Hown) as (Hpop & _).
    destruct (Hpop [4; 5] 6 eq_refl) as (v' & w' & Hrun & Hown' & _).
    exists v', w'. split; [exact Hrun | exact Hown'].
  - destruct (PopBack_removes_last _ _ _ (owns_default (@empty_world nat)))
      as (_ & Hempty).
    exact (Hempty eq_refl).
Defined.

Lemma Erase_removes_witness :
  owns sample.2 sample.1 [4; 5; 6] /\
  (exists r v' w',
     Erase Int (ptr_add (begin sample.1) 1) sample.1 sample.2 = Ok r v' w' /\
     owns w' v' [4; 6] /\ load r v' w' = Ok 6 v' w') /\
  Erase Int (ptr_add (begin sample.1) 3) sample.1 sample.2 = Fault.
Proof.
  assert (owns sample.2 sample.1 [4; 5; 6]) as Hown by concrete_owns.
  split; [exact Hown|]. split.
  - destruct (Erase_removes Int _ _ _ 1 Hown) as (Hin & _).
    destruct Hin as (Hok & _ & Htotal); [simpl; lia|].
    destruct (Htotal Int_nothrow) as (r & v' & w' & Hrun).
    destruct (Hok _ _ _ Hrun) as (Hown' & _ & _ & _ & Hload & _).
    exists r, v', w'. split; [exact Hrun|]. split; [exact Hown' | exact (Hload 6 eq_refl)].
  - destruct (Erase_removes Int _ _ _ 3 Hown) as (_ & Hout).
    apply Hout. simpl. lia.
Defined.

Lemma Emplace_inserts_at_witness :
  (owns sample.2 sample.1 [4; 5; 6] /\ 1 <= length [4; 5; 6]) /\
  exists r v' w',
    Emplace Int (ptr_add (begin sample.1) 1) (FromArgs 9) sample.1 sample.2
      = Ok r v' w' /\
    owns w' v' [4; 9; 5; 6] /\ load r v' w' = Ok 9 v' w'.
Proof.
  assert (owns sample.2 sample.1 [4; 5; 6]) as Hown by concrete_owns.
  assert (1 <= length [4; 5; 6]) as Hp by (simpl; lia).
  split; [by split|].
  destruct (Emplace_inserts_at Int _ _ _ 1 (FromArgs 9) Hown Hp) as (Hok & _ & Htotal).
  destruct (Htotal Int_nothrow) as (r & v' & w' & Hrun).
  destruct (Hok _ _ _ Hrun) as (Hown' & _ & _ & Hload & _).
  exists r, v', w'. split; [exact Hrun|]. split; [exact Hown' | exact Hload].
Defined.

Lemma PushBack_then_PopBack_witness :
  owns sample.2 sample.1 [4; 5; 6] /\
  exists v1 w1 v2 w2,
    PushBack Int (CopyOf 8) sample.1 sample.2 = Ok tt v1 w1 /\
    PopBack v1 w1 = Ok tt v2 w2 /\ owns w2 v2 [4; 5; 6].
Proof.
  assert (owns sample.2 sample.1 [4; 5; 6]) as Hown by concrete_owns.
  split; [exact Hown|].
  assert (exists v1 w1, PushBack Int (CopyOf 8) sample.1 sample.2 = Ok tt v1 w1)
    as (v1 & w1 & Hrun) by (eexists _, _; vm_compute; reflexivity).
  destruct (PushBack_then_PopBack Int _ _ _ _ Hown _ _ _ Hrun)
    as (v2 & w2 & Hrun2 & Hown2 & _).
  exists v1, w1, v2, w2. split; [exact Hrun|]. split; [exact Hrun2 | exact Hown2].
Defined.

Lemma Reserve_accounting_witness :
  (owns sample.2 sample.1 [4; 5; 6] /\ capacity_ (data_ sample.1) < 9) /\
  exists v' w',
    Reserve Int 9 sample.1 sample.2 = Ok tt v' w' /\
    allocs w' = allocs sample.2 + 1 /\ live_objects w' = live_objects sample.2.
Proof.
  assert (owns sample.2 sample.1 [4; 5; 6]) as Hown by concrete_owns.
  assert (capacity_ (data_ sample.1) < 9) as Hn by (vm_compute; lia).
  split; [by split|].
  assert (exists v' w', Reserve Int 9 sample.1 sample.2 = Ok tt v' w')
    as (v' & w' & Hrun) by (eexists _, _; vm_compute; reflexivity).
  destruct (Reserve_accounting Int _ _ _ 9 Hown Hn) as (Hok & _).
  destruct (Hok _ _ _ Hrun) as (Ha & _ & Ho & _).
  exists v', w'. split; [exact Hrun|]. split; [exact Ha | exact Ho].
Defined.

Lemma Append_all_doubles_witness :
  [(false, 4); (true, 5); (false, 6)] <> @nil (bool * nat) /\
  size_ sample.1 = 3 /\
  exists k,
    capacity_ (data_ sample.1) = 2 ^ k /\ 3 <= 2 ^ k < 2 * 3 /\
    allocs sample.2 = S k /\ frees sample.2 = k.
Proof.
  assert ([(false, 4); (true, 5); (false, 6)] <> @nil (bool * nat)) as Hne
    by discriminate.
  split; [exact Hne|].
  assert (Append_all Int [(false, 4); (true, 5); (false, 6)] Vector_default empty_world
          = Ok tt sample.1 sample.2) as Hrun by (vm_compute; reflexivity).
  exact (Append_all_doubles Int empty_world _ Hne _ _ _ Hrun).
Defined.

Lemma Append_all_then_dtor_balanced_witness :
  owns (V := nat) empty_world Vector_default [] /\
  exists w'',
    Vector_dtor sample.1 tt sample.2 = Ok tt tt w'' /\
    live_blocks w'' = 0%Z /\ live_objects w'' = 0%Z.
Proof.
  split; [apply owns_default|].
  assert (Append_all Int [(false, 4); (true, 5); (false, 6)] Vector_default empty_world
          = Ok tt sample.1 sample.2) as Hrun by (vm_compute; reflexivity).
  exact (Append_all_then_dtor_balanced Int tt empty_world Vector_default [] _
           (owns_default _) _ _ _ Hrun).
Defined.

Lemma Resize_sets_size_witness :
  owns sample.2 sample.1 [4; 5; 6] /\ allocation_fits Int 5 /\
  (exists v' w', Resize Int 1 sample.1 sample.2 = Ok tt v' w' /\ owns w' v' [4]) /\
  (exists v' w',
     Resize Int 5 sample.1 sample.2 = Ok tt v' w' /\
     owns w' v' [4; 5; 6; 0; 0] /\ capacity_ (data_ v') = 5).
Proof.
  assert (owns sample.2 sample.1 [4; 5; 6]) as Hown by concrete_owns.
  split; [exact Hown|]. split; [vm_compute; discriminate|]. split.
  - destruct (Resize_sets_size Int _ _ _ 1 Hown) as (Hshrink & _).
    destruct Hshrink as (v' & w' & Hrun & Hown' & _); [simpl; lia|].
    exists v', w'. split; [exact Hrun | exact Hown'].
  - destruct (Resize_sets_size Int _ _ _ 5 Hown) as (_ & Hgrow).
    destruct Hgrow as (Hok & _ & Htotal);
      [simpl; lia | intros _; vm_compute; discriminate |].
    destruct (Htotal Int_nothrow) as ([] & v' & w' & Hrun).
    destruct (Hok _ _ _ Hrun) as (Hown' & _ & Hcap & _).
    exists v', w'. split; [exact Hrun|]. split; [exact Hown'|].
    etrans; [exact Hcap|]. vm_compute. reflexivity.
Defined.

Lemma Vector_copy_assign_copies_witness :
  (owns sample_pair.2 sample_pair.1 [7] /\ owns sample_pair.2 sample.1 [4; 5; 6] /\
   separate sample_pair.1 sample.1) /\
  exists x' w',
    Vector_copy_assign Int (Two sample_pair.1 sample.1) sample_pair.2 = Ok tt x' w' /\
    owns w' (this_of x') [4; 5; 6] /\ owns w' sample.1 [4; 5; 6] /\
    capacity_ (data_ (this_of x')) = 3.
Proof.
  assert (owns sample_pair.2 sample_pair.1 [7]) as Hthis by concrete_owns.
  assert (owns sample_pair.2 sample.1 [4; 5; 6]) as Hrhs by concrete_owns.
  assert (separate sample_pair.1 sample.1) as Hsep
    by (unfold separate; vm_compute; discriminate).
  split; [by split_and!|].
  destruct (Vector_copy_assign_copies Int _ _ _ _ _ Hthis Hrhs Hsep)
    as (Hok & _ & Htotal & _).
  destruct (Htotal Int_nothrow) as ([] & x' & w' & Hrun).
  destruct (Hok _ _ _ Hrun) as (_ & Hthis' & Hrhs' & _ & _ & Hgrow).
  exists x', w'. split; [exact Hrun|]. split; [exact Hthis'|]. split; [exact Hrhs'|].
  apply Hgrow. vm_compute. lia.
Defined.

Lemma Erase_then_Insert_witness :
  (owns sample.2 sample.1 [4; 5; 6] /\ [4; 5; 6] !! 1 = Some 5) /\
  exists it v1 w1 it' v2 w2,
    Erase Int (ptr_add (begin sample.1) 1) sample.1 sample.2 = Ok it v1 w1 /\
    Insert Int false it 5 v1 w1 = Ok it' v2 w2 /\
    owns w2 v2 [4; 5; 6] /\ data_ v2 = data_ sample.1.
Proof.
  assert (owns sample.2 sample.1 [4; 5; 6]) as Hown by concrete_owns.
  assert ([4; 5; 6] !! 1 = Some 5) as Hp by reflexivity.
  split; [by split|].
  assert (exists it v1 w1,
            Erase Int (ptr_add (begin sample.1) 1) sample.1 sample.2 = Ok it v1 w1)
    as (it & v1 & w1 & Hrun) by (eexists _, _, _; vm_compute; reflexivity).
  destruct (Erase_then_Insert Int _ _ _ 1 5 false Hown Hp _ _ _ Hrun) as (Hok & Htotal).
  destruct (Htotal Int_nothrow) as (it' & v2 & w2 & Hrun2).
  destruct (Hok _ _ _ Hrun2) as (Hown2 & _ & Hd & _).
  exists it, v1, w1, it', v2, w2.
  split; [exact Hrun|]. split; [exact Hrun2|]. split; [exact Hown2 | exact Hd].
Defined.
